(** * PixelCheck: structural feature extraction and cross-platform reconciliation

    A shallow embedding of the extraction and comparison engine of the
    repository:

    - [Analyzer]      the flat extractor (traverse, classifyTextElement, ...);
    - [AnalyzerNode]  the structural-group extractor and the reconciler
                      (extractFeatures, extractSemanticKeywords,
                      findSemanticEquivalents, compareFeatures);
    - [Hierarchical]  src/utils/hierarchical-extractor.js;
    - [CallStack]     the three recursive extractors with the call stack of
                      the engine made explicit;
    - [AiMatcher]     zoho-cliq-bot/ai-matcher.js (areComponentsSimilar and its
                      debounced batch queue, batchStructuralMatch).

    The definitions come first; the vocabulary of the statements and the
    example designs follow; the properties, one module of facts for each part
    of the engine, close the file.

    JavaScript strings are modelled by [string]; the case conversion and the
    white space of [trim] are the ASCII ones, so the statements speak about
    ASCII names and texts.  A missing (undefined) [name], [characters] or
    [children] is modelled by the empty string or the empty list: the source
    only reads them through [x || ''], [x || []] or a truthiness test, which
    do not tell the two apart. *)

From Stdlib Require Import List String Ascii Arith NArith Lia Bool.
From Stdlib Require Import DecimalNat DecimalString.
Import ListNotations.
Local Open Scope string_scope.
Local Open Scope list_scope.

(** ** JavaScript string primitives *)

Module Js.

Definition lowerAscii (c : ascii) : ascii :=
  let n := nat_of_ascii c in
  if ((65 <=? n) && (n <=? 90))%nat then ascii_of_nat (n + 32) else c.

(** [String.prototype.toLowerCase] on a string of ASCII code units: the
    letters A to Z are lowered and nothing else changes.  (On other code
    units the method of the language lowers further letters.) *)
Fixpoint toLowerCase (s : string) : string :=
  match s with
  | EmptyString => EmptyString
  | String c r => String (lowerAscii c) (toLowerCase r)
  end.

(** [String.prototype.includes] *)
Fixpoint includes (s pat : string) : bool :=
  if String.prefix pat s then true
  else match s with
       | EmptyString => false
       | String _ r => includes r pat
       end.

Definition isWhite (c : ascii) : bool :=
  let n := nat_of_ascii c in
  (((9 <=? n) && (n <=? 13)) || (n =? 32))%nat.

Fixpoint trimStart (s : string) : string :=
  match s with
  | EmptyString => EmptyString
  | String c r => if isWhite c then trimStart r else s
  end.

Fixpoint trimEnd (s : string) : string :=
  match s with
  | EmptyString => EmptyString
  | String c r =>
      match trimEnd r with
      | EmptyString => if isWhite c then EmptyString else String c EmptyString
      | r' => String c r'
      end
  end.

(** [String.prototype.trim] on a string of ASCII code units, whose white
    space is the tab, the line feed, the vertical tab, the form feed, the
    carriage return and the space.  (On other code units the method of the
    language strips further spaces, U+00A0 and U+FEFF among them.) *)
Definition trim (s : string) : string := trimEnd (trimStart s).

(** Truthiness of a string: the empty string is the only falsy one. *)
Definition truthy (s : string) : bool :=
  match s with EmptyString => false | _ => true end.

(** [a || b] on strings *)
Definition orElse (a b : string) : string := if truthy a then a else b.

(** [s.substring(0, n)] *)
Definition substring0 (n : nat) (s : string) : string := String.substring 0 n s.

(** [`${n}`] for a non-negative integer *)
Definition ofNat (n : nat) : string := NilZero.string_of_uint (Nat.to_uint n).

(** [arr.join(sep)] *)
Fixpoint join (sep : string) (l : list string) : string :=
  match l with
  | [] => EmptyString
  | [x] => x
  | x :: r => (x ++ sep ++ join sep r)%string
  end.

(** [arr.filter(Boolean)] on an array of objects and nulls *)
Fixpoint filterBoolean {A} (l : list (option A)) : list A :=
  match l with
  | [] => []
  | Some x :: r => x :: filterBoolean r
  | None :: r => filterBoolean r
  end.

(** [s.split('\n')] *)
Fixpoint splitLines (s : string) : list string :=
  match s with
  | EmptyString => [EmptyString]
  | String c r =>
      if Ascii.eqb c "010"%char then EmptyString :: splitLines r
      else match splitLines r with
           | [] => [String c EmptyString]
           | l :: ls => String c l :: ls
           end
  end.

Definition isDigit (c : ascii) : bool :=
  let n := nat_of_ascii c in ((48 <=? n) && (n <=? 57))%nat.

(** [Number(digits)] for a non-empty string of decimal digits *)
Definition numberOfDigits (digits : string) : N :=
  fold_left (fun acc c => (10 * acc + N.of_nat (nat_of_ascii c - 48))%N)
            (list_ascii_of_string digits) 0%N.

(** [patterns.some(p => s.includes(p))] *)
Definition includesSome (s : string) (patterns : list string) : bool :=
  existsb (includes s) patterns.

(** [arr.includes(x)] on an array of strings *)
Definition arrayIncludes (arr : list string) (x : string) : bool :=
  existsb (String.eqb x) arr.

(** [Set.prototype.add] on an insertion-ordered set, and [new Set(arr)] *)
Definition setAdd {A} (eqb : A -> A -> bool) (x : A) (s : list A) : list A :=
  if existsb (eqb x) s then s else s ++ [x].

Definition setOfList (l : list string) : list string :=
  fold_left (fun s x => setAdd String.eqb x s) l [].

End Js.

(** ** The design document tree *)

#[local] Unset Elimination Schemes.

Inductive DesignNode : Type :=
  mkNode { node_id : string;
           node_name : string;
           node_type : string;
           node_characters : string;
           node_children : list DesignNode }.

#[local] Set Elimination Schemes.

Section DesignNode_nested_ind.

Variable P : DesignNode -> Prop.
Hypothesis step : forall i n t c cs, Forall P cs -> P (mkNode i n t c cs).

Fixpoint DesignNode_nested_ind (node : DesignNode) : P node :=
  match node with
  | mkNode i n t c cs =>
      step i n t c cs
        ((fix all (l : list DesignNode) : Forall P l :=
            match l with
            | [] => Forall_nil P
            | x :: r => Forall_cons x (DesignNode_nested_ind x) (all r)
            end) cs)
  end.

End DesignNode_nested_ind.

(** A chain of [n] unnamed FRAMEs, each with one child, above [leaf]: the leaf
    sits at depth [n]. *)
Fixpoint chain (n : nat) (leaf : DesignNode) : DesignNode :=
  match n with
  | 0 => leaf
  | S k => mkNode "" "" "FRAME" "" [chain k leaf]
  end.

(** ** The flat extractor *)

Module Analyzer.

Inductive Category := TEXT | BUTTON | ICON | OTHER.

Definition Category_eqb (a b : Category) : bool :=
  match a, b with
  | TEXT, TEXT | BUTTON, BUTTON | ICON, ICON | OTHER, OTHER => true
  | _, _ => false
  end.

(** The object [{ name, type }]; the sets of the source hold its
    [JSON.stringify], which is one-to-one on these objects. *)
Record Feature := { f_name : string; f_type : Category }.

Definition Feature_eqb (a b : Feature) : bool :=
  String.eqb (f_name a) (f_name b) && Category_eqb (f_type a) (f_type b).

Record Features := { text : list Feature; buttons : list Feature; all : list Feature }.

Definition emptyFeatures : Features := {| text := []; buttons := []; all := [] |}.

Definition iconPatterns : list string :=
  ["heroicons"; "material-symbols"; "material-icons"; "feather"; "fontawesome";
   "icon"; "/home"; "/heart"; "/map"; "/explore"; "/search"; "/filter";
   "/menu"; "/profile"; "/settings"].

Definition isIconComponent (name : string) : bool :=
  let lowerName := Js.toLowerCase name in
  Js.includesSome lowerName iconPatterns.

(** The alternatives of the anchored pattern
    [/^(sign in|sign up|login|register|submit|continue|next|back|cancel)$/]. *)
Definition buttonKeywords : list string :=
  ["sign in"; "sign up"; "login"; "register"; "submit"; "continue"; "next";
   "back"; "cancel"].

Definition classifyTextElement (text nodeName : string) : Category :=
  let lowerText := Js.toLowerCase text in
  let lowerNodeName := Js.toLowerCase nodeName in
  if Js.includes lowerNodeName "button" || Js.includes lowerNodeName "btn" then BUTTON
  else if Js.arrayIncludes buttonKeywords lowerText then BUTTON
  else TEXT.

Definition classifyComponent (componentName : string) : Category :=
  let lower := Js.toLowerCase componentName in
  if Js.includes lower "button" || Js.includes lower "btn" then BUTTON else OTHER.

Definition classifyGroup (groupName : string) : Category :=
  let lower := Js.toLowerCase groupName in
  if Js.includes lower "(button)" || Js.includes lower "button" || Js.includes lower "btn"
  then BUTTON else OTHER.

(** The three [add] calls that follow the construction of a feature. *)
Definition record (feature : Feature) (features : Features) : Features :=
  {| text := match f_type feature with
             | BUTTON => text features
             | _ => Js.setAdd Feature_eqb feature (text features)
             end;
     buttons := match f_type feature with
                | BUTTON => Js.setAdd Feature_eqb feature (buttons features)
                | _ => buttons features
                end;
     all := Js.setAdd Feature_eqb feature (all features) |}.

(** The body of [traverse] above the recursion on the children. *)
Definition visit (nodeType nodeName characters : string) (hasChildren : bool)
    (features : Features) : Features :=
  if nodeType =? "TEXT" then
    let text := characters in
    if Js.truthy (Js.trim text) then
      let type := classifyTextElement text nodeName in
      record {| f_name := Js.trim text; f_type := type |} features
    else features
  else if (nodeType =? "COMPONENT") || (nodeType =? "INSTANCE") then
    if Js.truthy (Js.trim nodeName) then
      let type := classifyComponent nodeName in
      record {| f_name := nodeName; f_type := type |} features
    else features
  else if (nodeType =? "GROUP") || (nodeType =? "FRAME") then
    if Js.truthy (Js.trim nodeName) then
      let isIcon := isIconComponent nodeName in
      if isIcon || negb hasChildren then
        let type := if isIcon then ICON else classifyGroup nodeName in
        match type with
        | OTHER => features
        | _ => record {| f_name := nodeName; f_type := type |} features
        end
      else features
    else features
  else features.

Fixpoint traverse (node : DesignNode) (features : Features) : Features :=
  match node with
  | mkNode _ nodeName nodeType characters children =>
      let hasChildren := match children with [] => false | _ => true end in
      let features := visit nodeType nodeName characters hasChildren features in
      fold_left (fun acc child => traverse child acc) children features
  end.

Definition extractFeatures (documentNode : DesignNode) : Features :=
  traverse documentNode emptyFeatures.

End Analyzer.

(** ** The structural-group extractor and the reconciler *)

Module AnalyzerNode.

Record Recipe := { r_text : nat; r_buttons : nat; r_total : nat }.

Record Group := {
  g_name : string;
  g_id : string;
  g_type : string;
  g_recipe : Recipe;
  g_signature : string;
  g_semanticKeywords : list string }.

Record TextFeature := { t_name : string; t_text : string; t_id : string }.
Record ButtonFeature := { b_name : string; b_id : string; b_type : string }.

Record Features := {
  text : list TextFeature;
  buttons : list ButtonFeature;
  groups : list Group }.

Definition emptyFeatures : Features := {| text := []; buttons := []; groups := [] |}.

(** The entries of [semanticMap], in the order of [Object.entries]. *)
Definition semanticMap : list (string * list string) :=
  [ ("search", ["search"; "find"; "query"; "lookup"]);
    ("notification", ["bell"; "notification"; "alert"; "notify"]);
    ("user", ["user"; "profile"; "account"; "avatar"]);
    ("menu", ["menu"; "hamburger"; "nav"; "drawer"]);
    ("filter", ["filter"; "sort"; "refine"]);
    ("location", ["location"; "map"; "pin"; "marker"; "gps"]);
    ("time", ["time"; "clock"; "schedule"; "calendar"]);
    ("favorite", ["favorite"; "heart"; "like"; "bookmark"; "star"]) ].

Definition extractSemanticKeywords (name : string) : list string :=
  let normalized := Js.toLowerCase name in
  map fst (filter (fun entry => Js.includesSome normalized (snd entry)) semanticMap).

Definition containerTypes : list string := ["FRAME"; "GROUP"; "COMPONENT"; "INSTANCE"].

Definition isTextChild (c : DesignNode) : bool := node_type c =? "TEXT".

Definition isButtonChild (c : DesignNode) : bool :=
  Js.includes (Js.toLowerCase (node_name c)) "button"
  || Js.includes (Js.toLowerCase (node_name c)) "btn"
  || Js.includes (Js.toLowerCase (node_name c)) "cta".

(** The signature template [`T${textCount}B${buttonCount}`]. *)
Definition signatureOf (textCount buttonCount : nat) : string :=
  ("T" ++ Js.ofNat textCount ++ "B" ++ Js.ofNat buttonCount)%string.

Definition buttonKeywords : list string := ["button"; "btn"; "cta"; "action"].

(** The body of [extractFeatures] above the recursion on the children. *)
Definition visit (node : DesignNode) (features : Features) : Features :=
  let features :=
    if Js.arrayIncludes containerTypes (node_type node) then
      let children := node_children node in
      let textCount := List.length (filter isTextChild children) in
      let buttonCount := List.length (filter isButtonChild children) in
      if (1 <? List.length children)%nat || (node_type node =? "COMPONENT")
         || (node_type node =? "INSTANCE") then
        let semanticKeywords := extractSemanticKeywords (node_name node) in
        {| text := text features;
           buttons := buttons features;
           groups := groups features ++
             [ {| g_name := Js.orElse (node_name node) "Unnamed Group";
                  g_id := node_id node;
                  g_type := node_type node;
                  g_recipe := {| r_text := textCount;
                                 r_buttons := buttonCount;
                                 r_total := List.length children |};
                  g_signature := signatureOf textCount buttonCount;
                  g_semanticKeywords := semanticKeywords |} ] |}
      else features
    else features in
  let features :=
    if node_type node =? "TEXT" then
      if Js.truthy (node_characters node) && Js.truthy (Js.trim (node_characters node)) then
        {| text := text features ++
             [ {| t_name := Js.orElse (node_name node)
                                      (Js.substring0 30 (node_characters node));
                  t_text := node_characters node;
                  t_id := node_id node |} ];
           buttons := buttons features;
           groups := groups features |}
      else features
    else features in
  let nodeName := Js.toLowerCase (node_name node) in
  if Js.includesSome nodeName buttonKeywords && negb (node_type node =? "TEXT") then
    {| text := text features;
       buttons := buttons features ++
         [ {| b_name := node_name node; b_id := node_id node; b_type := node_type node |} ];
       groups := groups features |}
  else features.

Fixpoint extractFeaturesFrom (node : DesignNode) (features : Features) : Features :=
  match node with
  | mkNode _ _ _ _ children =>
      fold_left (fun acc child => extractFeaturesFrom child acc) children
                (visit node features)
  end.

(** [extractFeatures(node)] with the default accumulator. *)
Definition extractFeatures (node : DesignNode) : Features :=
  extractFeaturesFrom node emptyFeatures.

(** *** The reconciler *)

Inductive Platform := Android | iOS | Web.

Definition Platform_eqb (p q : Platform) : bool :=
  match p, q with
  | Android, Android | iOS, iOS | Web, Web => true
  | _, _ => false
  end.

(** [counts: { Android: 0, iOS: 0, Web: 0 }] *)
Record Counts := { c_Android : nat; c_iOS : nat; c_Web : nat }.

Definition countOf (platform : Platform) (c : Counts) : nat :=
  match platform with
  | Android => c_Android c
  | iOS => c_iOS c
  | Web => c_Web c
  end.

(** [counts[platform]++] *)
Definition increment (platform : Platform) (c : Counts) : Counts :=
  match platform with
  | Android => {| c_Android := S (c_Android c); c_iOS := c_iOS c; c_Web := c_Web c |}
  | iOS => {| c_Android := c_Android c; c_iOS := S (c_iOS c); c_Web := c_Web c |}
  | Web => {| c_Android := c_Android c; c_iOS := c_iOS c; c_Web := S (c_Web c) |}
  end.

(** The object that [trackIdentity] stores for an identity.  It has the
    properties [name], [signature], [recipe] and [counts], and no other. *)
Record IdentityData := {
  i_name : string;
  i_signature : string;
  i_recipe : Recipe;
  i_counts : Counts }.

(** [`${g.name}|${g.signature}`] *)
Definition getIdentity (g : Group) : string :=
  (g_name g ++ "|" ++ g_signature g)%string.

(** The [Map] of identities, in insertion order (the order of [forEach]). *)
Definition Identities := list (string * IdentityData).

Definition has (id : string) (identities : Identities) : bool :=
  existsb (fun entry => fst entry =? id) identities.

Definition get (id : string) (identities : Identities) : option IdentityData :=
  option_map snd (find (fun entry => fst entry =? id) identities).

(** [identities.get(id).counts[platform]++] *)
Fixpoint bump (platform : Platform) (id : string) (identities : Identities) : Identities :=
  match identities with
  | [] => []
  | (k, d) :: rest =>
      if k =? id then
        (k, {| i_name := i_name d; i_signature := i_signature d; i_recipe := i_recipe d;
               i_counts := increment platform (i_counts d) |}) :: rest
      else (k, d) :: bump platform id rest
  end.

Definition trackIdentity (platform : Platform) (identities : Identities) (group : Group)
  : Identities :=
  let id := getIdentity group in
  let identities :=
    if has id identities then identities
    else identities ++
           [ (id, {| i_name := g_name group;
                     i_signature := g_signature group;
                     i_recipe := g_recipe group;
                     i_counts := {| c_Android := 0; c_iOS := 0; c_Web := 0 |} |}) ] in
  bump platform id identities.

(** The three [forEach(g => trackIdentity(...))] loops. *)
Definition buildIdentities (androidGroups iosGroups webGroups : list Group) : Identities :=
  let identities := fold_left (trackIdentity Android) androidGroups [] in
  let identities := fold_left (trackIdentity iOS) iosGroups identities in
  fold_left (trackIdentity Web) webGroups identities.

(** What [findSemanticEquivalents] reads of its first argument: the property
    [name], and the property [semanticKeywords] when the object has one. *)
Record TargetData := {
  td_name : string;
  td_semanticKeywords : option (list string) }.

(** An identity record seen as the first argument of
    [findSemanticEquivalents]: it has no [semanticKeywords] property. *)
Definition targetOfIdentity (data : IdentityData) : TargetData :=
  {| td_name := i_name data; td_semanticKeywords := None |}.

(** A group seen as the first argument of [findSemanticEquivalents]. *)
Definition targetOfGroup (g : Group) : TargetData :=
  {| td_name := g_name g; td_semanticKeywords := Some (g_semanticKeywords g) |}.

Definition findSemanticEquivalents (targetData : TargetData)
    (androidGroups iosGroups webGroups : list Group) : list string :=
  let targetKeywords :=
    match td_semanticKeywords targetData with Some k => k | None => [] end in
  match targetKeywords with
  | [] => []
  | _ =>
      let allGroups := androidGroups ++ iosGroups ++ webGroups in
      let equivalents :=
        map g_name
          (filter (fun group =>
                     let groupKeywords := g_semanticKeywords group in
                     let hasCommonKeyword :=
                       existsb (fun kw => Js.arrayIncludes groupKeywords kw) targetKeywords in
                     hasCommonKeyword && negb (g_name group =? td_name targetData))
                  allGroups) in
      Js.setOfList equivalents
  end.

Record PlatformTotals := { total : nat; total_text : nat; total_buttons : nat }.

(** The two templates of [countInfo], the two icons and the templates of
    [details], each with the values it interpolates. *)
Inductive CountInfo :=
| CountAcrossAll (n : nat)
| CountsPerPlatform (a i w : nat).

Inductive Icon := IconCheck | IconWarning.

Inductive Details :=
| StructurallyPerfect
| AlternativeImplementationFound (equivalents : list string)
| MissingOn (missing : list Platform)
| CountMismatch (a i w : nat)
| NoDetails.

Record MappingEntry := {
  m_name : string;
  m_platforms : list Platform;
  m_countInfo : CountInfo;
  m_icon : Icon;
  m_details : Details }.

Record Results := {
  android : PlatformTotals;
  ios : PlatformTotals;
  web : PlatformTotals;
  consistent : nat;
  inconsistent : nat;
  mapping_text : list MappingEntry }.

Definition addConsistent (n : nat) (r : Results) : Results :=
  {| android := android r; ios := ios r; web := web r;
     consistent := consistent r + n; inconsistent := inconsistent r;
     mapping_text := mapping_text r |}.

Definition addInconsistent (n : nat) (r : Results) : Results :=
  {| android := android r; ios := ios r; web := web r;
     consistent := consistent r; inconsistent := inconsistent r + n;
     mapping_text := mapping_text r |}.

Definition subInconsistent (n : nat) (r : Results) : Results :=
  {| android := android r; ios := ios r; web := web r;
     consistent := consistent r; inconsistent := inconsistent r - n;
     mapping_text := mapping_text r |}.

Definition pushMapping (e : MappingEntry) (r : Results) : Results :=
  {| android := android r; ios := ios r; web := web r;
     consistent := consistent r; inconsistent := inconsistent r;
     mapping_text := mapping_text r ++ [e] |}.

(** [Math.max(Android, iOS, Web)] *)
Definition max3 (a i w : nat) : nat := Nat.max a (Nat.max i w).

Definition includesPlatform (l : list Platform) (p : Platform) : bool :=
  existsb (Platform_eqb p) l.

(** The callback of [identities.forEach]. *)
Definition compareIdentity (androidGroups iosGroups webGroups : list Group)
    (results : Results) (data : IdentityData) : Results :=
  let nAndroid := c_Android (i_counts data) in
  let niOS := c_iOS (i_counts data) in
  let nWeb := c_Web (i_counts data) in
  let platformsPresent :=
    (if (0 <? nAndroid)%nat then [Android] else [])
    ++ (if (0 <? niOS)%nat then [iOS] else [])
    ++ (if (0 <? nWeb)%nat then [Web] else []) in
  let allPresent := (List.length platformsPresent =? 3)%nat in
  let countsMatch := ((nAndroid =? niOS) && (niOS =? nWeb))%nat in
  let isConsistent := allPresent && countsMatch in
  if isConsistent then
    let results := addConsistent nAndroid results in
    pushMapping {| m_name := i_name data;
                   m_platforms := platformsPresent;
                   m_countInfo := CountAcrossAll nAndroid;
                   m_icon := IconCheck;
                   m_details := StructurallyPerfect |} results
  else
    let results := addInconsistent (max3 nAndroid niOS nWeb) results in
    let '(status, results) :=
      if negb allPresent then
        let missing :=
          (if (nAndroid =? 0)%nat then [Android] else [])
          ++ (if (niOS =? 0)%nat then [iOS] else [])
          ++ (if (nWeb =? 0)%nat then [Web] else []) in
        let semanticEquivalents :=
          findSemanticEquivalents (targetOfIdentity data)
            (if includesPlatform missing Android then androidGroups else [])
            (if includesPlatform missing iOS then iosGroups else [])
            (if includesPlatform missing Web then webGroups else []) in
        if (0 <? List.length semanticEquivalents)%nat then
          (AlternativeImplementationFound semanticEquivalents,
           addConsistent (max3 nAndroid niOS nWeb)
             (subInconsistent (max3 nAndroid niOS nWeb) results))
        else (MissingOn missing, results)
      else if negb countsMatch then (CountMismatch nAndroid niOS nWeb, results)
      else (NoDetails, results) in
    pushMapping {| m_name := i_name data;
                   m_platforms := platformsPresent;
                   m_countInfo := CountsPerPlatform nAndroid niOS nWeb;
                   m_icon := IconWarning;
                   m_details := status |} results.

Definition totalsOf (f : Features) : PlatformTotals :=
  {| total := List.length (groups f);
     total_text := List.length (text f);
     total_buttons := List.length (buttons f) |}.

Definition compareFeatures (androidFeatures iosFeatures webFeatures : Features) : Results :=
  let results :=
    {| android := totalsOf androidFeatures;
       ios := totalsOf iosFeatures;
       web := totalsOf webFeatures;
       consistent := 0;
       inconsistent := 0;
       mapping_text := [] |} in
  let identities :=
    buildIdentities (groups androidFeatures) (groups iosFeatures) (groups webFeatures) in
  fold_left (compareIdentity (groups androidFeatures) (groups iosFeatures)
                             (groups webFeatures))
            (map snd identities) results.

End AnalyzerNode.

(** ** The hierarchical extractor *)

Module Hierarchical.

Inductive ComponentType := text | icon | button | container | instance.

#[local] Unset Elimination Schemes.

(** The object built by [extractDetailedHierarchy].  A property that the
    source sets on some branches only is an [option]; [s_children] is empty
    when the property is not set. *)
Inductive Structure : Type :=
  mkStructure { s_type : string;
                s_name : string;
                s_id : string;
                s_depth : nat;
                s_componentType : option ComponentType;
                s_textContent : option string;
                s_iconName : option string;
                s_instanceName : option string;
                s_children : list Structure }.

#[local] Set Elimination Schemes.

Section Structure_nested_ind.

Variable P : Structure -> Prop.
Hypothesis step : forall t n i d ct tc ic ins cs,
    Forall P cs -> P (mkStructure t n i d ct tc ic ins cs).

Fixpoint Structure_nested_ind (s : Structure) : P s :=
  match s with
  | mkStructure t n i d ct tc ic ins cs =>
      step t n i d ct tc ic ins cs
        ((fix all (l : list Structure) : Forall P l :=
            match l with
            | [] => Forall_nil P
            | x :: r => Forall_cons x (Structure_nested_ind x) (all r)
            end) cs)
  end.

End Structure_nested_ind.

Definition isIcon (node : DesignNode) : bool :=
  let name := Js.toLowerCase (node_name node) in
  Js.includes name "icon"
  || Js.includes name ":"
  || Js.includes name "/"
  || Js.includes name "mynai"
  || ((node_type node =? "INSTANCE") && (Js.includes name "icon" || Js.includes name ":")).

Definition isButton (node : DesignNode) : bool :=
  let name := Js.toLowerCase (node_name node) in
  Js.includes name "button" || Js.includes name "btn" || Js.includes name "cta".

Fixpoint extractDetailedHierarchy (node : DesignNode) (depth maxDepth : nat)
  : option Structure :=
  if (maxDepth <? depth)%nat then None
  else
    match node with
    | mkNode id name type characters children =>
        let classified (ct : option ComponentType) (tc ic ins : option string) cs :=
          mkStructure type (Js.orElse name "Unnamed") id depth ct tc ic ins cs in
        let cs :=
          Js.filterBoolean
            (map (fun child => extractDetailedHierarchy child (depth + 1) maxDepth)
                 children) in
        Some
          (if type =? "TEXT" then
             classified (Some text) (Some (Js.substring0 50 characters)) None None cs
           else if isIcon node then
             classified (Some icon) None (Some name) None cs
           else if isButton node then
             classified (Some button) None None None cs
           else if (type =? "FRAME") || (type =? "GROUP") then
             classified (Some container) None None None cs
           else if type =? "INSTANCE" then
             classified (Some instance) None None (Some name) cs
           else classified None None None None cs)
    end.

Record TextEntry := { te_name : string; te_path : string; te_content : option string }.
Record NamedEntry := { ne_name : string; ne_path : string }.
Record FrameEntry := { fe_name : string; fe_path : string; fe_childCount : nat }.

Record Inventory := {
  texts : list TextEntry;
  icons : list NamedEntry;
  buttons : list NamedEntry;
  frames : list FrameEntry;
  instances : list NamedEntry }.

Definition emptyInventory : Inventory :=
  {| texts := []; icons := []; buttons := []; frames := []; instances := [] |}.

(** [o || d] where [o] may be undefined *)
Definition optOr (o : option string) (d : string) : string :=
  match o with Some v => Js.orElse v d | None => d end.

(** The categorising part of the inner [traverse] of
    [createComponentInventory]. *)
Definition categorize (node : Structure) (currentPath : list string)
    (inventory : Inventory) : Inventory :=
  let path := Js.join " > " currentPath in
  match s_componentType node with
  | Some text =>
      {| texts := texts inventory ++
           [ {| te_name := s_name node; te_path := path;
                te_content := s_textContent node |} ];
         icons := icons inventory; buttons := buttons inventory;
         frames := frames inventory; instances := instances inventory |}
  | Some icon =>
      {| texts := texts inventory;
         icons := icons inventory ++
           [ {| ne_name := optOr (s_iconName node) (s_name node); ne_path := path |} ];
         buttons := buttons inventory;
         frames := frames inventory; instances := instances inventory |}
  | Some button =>
      {| texts := texts inventory; icons := icons inventory;
         buttons := buttons inventory ++ [ {| ne_name := s_name node; ne_path := path |} ];
         frames := frames inventory; instances := instances inventory |}
  | Some container =>
      {| texts := texts inventory; icons := icons inventory;
         buttons := buttons inventory;
         frames := frames inventory ++
           [ {| fe_name := s_name node; fe_path := path;
                fe_childCount := List.length (s_children node) |} ];
         instances := instances inventory |}
  | Some instance =>
      {| texts := texts inventory; icons := icons inventory;
         buttons := buttons inventory; frames := frames inventory;
         instances := instances inventory ++
           [ {| ne_name := optOr (s_instanceName node) (s_name node); ne_path := path |} ] |}
  | None => inventory
  end.

Fixpoint inventoryTraverse (node : Structure) (path : list string)
    (inventory : Inventory) : Inventory :=
  match node with
  | mkStructure _ name _ _ _ _ _ _ children =>
      let currentPath := path ++ [name] in
      fold_left (fun acc child => inventoryTraverse child currentPath acc) children
                (categorize node currentPath inventory)
  end.

Definition createComponentInventory (structure : Structure) : Inventory :=
  inventoryTraverse structure [] emptyInventory.

(** [iconCounts[name] = (iconCounts[name] || 0) + 1] on an object whose keys
    are icon names. *)
Fixpoint countUp (name : string) (counts : list (string * nat)) : list (string * nat) :=
  match counts with
  | [] => [(name, 1)]
  | (k, n) :: rest => if k =? name then (k, n + 1) :: rest else (k, n) :: countUp name rest
  end.

Definition countIconsByName (inventory : Inventory) : list (string * nat) :=
  fold_left (fun counts i => countUp (ne_name i) counts) (icons inventory) [].

Definition hasCardPattern (structure : Structure) : bool :=
  match s_children structure with
  | [] => false
  | _ =>
      let inventory := createComponentInventory structure in
      let hasText := (0 <? List.length (texts inventory))%nat in
      let hasIcon := (0 <? List.length (icons inventory))%nat in
      let hasButton := (0 <? List.length (buttons inventory))%nat in
      hasText && (hasIcon || hasButton)
  end.

Record CardInventory := {
  ci_texts : nat;
  ci_icons : list (string * nat);
  ci_buttons : nat;
  ci_frames : nat;
  ci_instances : nat }.

(** A card; its [detailedString], a rendering of the inventory for prompts and
    reports, is left out. *)
Record Card := {
  card_name : string;
  card_id : string;
  card_inventory : CardInventory;
  card_fullStructure : Structure }.

Definition isMainFeature (structure : Structure) : bool :=
  (s_type structure =? "FRAME")
  && (2 <=? List.length (s_children structure))%nat
  && (Js.includes (Js.toLowerCase (s_name structure)) "card"
      || Js.includes (Js.toLowerCase (s_name structure)) "item"
      || Js.includes (Js.toLowerCase (s_name structure)) "section"
      || Js.includes (Js.toLowerCase (s_name structure)) "header"
      || Js.includes (Js.toLowerCase (s_name structure)) "bar"
      || hasCardPattern structure).

Definition cardOf (structure : Structure) : Card :=
  let inventory := createComponentInventory structure in
  {| card_name := s_name structure;
     card_id := s_id structure;
     card_inventory :=
       {| ci_texts := List.length (texts inventory);
          ci_icons := countIconsByName inventory;
          ci_buttons := List.length (buttons inventory);
          ci_frames := List.length (frames inventory);
          ci_instances := List.length (instances inventory) |};
     card_fullStructure := structure |}.

Fixpoint extractCardsWithDetails (structure : Structure) (cards : list Card) (depth : nat)
  : list Card :=
  if (10 <? depth)%nat then cards
  else
    let inventory := createComponentInventory structure in
    if isMainFeature structure
       && ((0 <? List.length (texts inventory))%nat
           || (0 <? List.length (buttons inventory))%nat)
    then cards ++ [cardOf structure]
    else
      match structure with
      | mkStructure _ _ _ _ _ _ _ _ children =>
          fold_left (fun acc child => extractCardsWithDetails child acc (depth + 1))
                    children cards
      end.

Record HierarchicalFeatures := {
  fullTree : option Structure;
  cards : list Card }.

(** [extractHierarchicalFeatures]; [extractCardsWithDetails(null)] is the
    empty list. *)
Definition extractHierarchicalFeatures (figmaDocument : DesignNode) : HierarchicalFeatures :=
  let tree := extractDetailedHierarchy figmaDocument 0 15 in
  {| fullTree := tree;
     cards := match tree with
              | Some t => extractCardsWithDetails t [] 0
              | None => []
              end |}.

(** All the nodes of a structure, in pre-order. *)
Fixpoint nodesOf (s : Structure) : list Structure :=
  match s with
  | mkStructure _ _ _ _ _ _ _ _ children => s :: flat_map nodesOf children
  end.

End Hierarchical.

(** ** The call stack of the recursive extractors *)

Module CallStack.

(** The extractors call themselves on the children of a node, so that the
    calls nest as deep as the tree, or as deep as the cap of the extractor
    lets them.  The engine admits only so many nested calls and throws a
    RangeError beyond, which nothing in the extractors catches.  In the
    functions below [stack] is the number of nested activations of the
    function that the engine still admits and [None] is that error; for the
    rest they are the functions of [Analyzer], [AnalyzerNode] and
    [Hierarchical]. *)

Fixpoint traverse (stack : nat) (node : DesignNode) (features : Analyzer.Features)
  : option Analyzer.Features :=
  match stack with
  | 0 => None
  | S stack =>
      match node with
      | mkNode _ nodeName nodeType characters children =>
          let hasChildren := match children with [] => false | _ => true end in
          let features :=
            Analyzer.visit nodeType nodeName characters hasChildren features in
          fold_left (fun acc child =>
                       match acc with
                       | Some features => traverse stack child features
                       | None => None
                       end)
                    children (Some features)
      end
  end.

Fixpoint extractFeatures (stack : nat) (node : DesignNode)
    (features : AnalyzerNode.Features) : option AnalyzerNode.Features :=
  match stack with
  | 0 => None
  | S stack =>
      fold_left (fun acc child =>
                   match acc with
                   | Some features => extractFeatures stack child features
                   | None => None
                   end)
                (node_children node) (Some (AnalyzerNode.visit node features))
  end.

(** [children.map(f)] where a call of [f] may throw. *)
Fixpoint mapCalls {A B} (f : A -> option B) (l : list A) : option (list B) :=
  match l with
  | [] => Some []
  | x :: rest =>
      match f x with
      | Some y =>
          match mapCalls f rest with
          | Some ys => Some (y :: ys)
          | None => None
          end
      | None => None
      end
  end.

(** The object that [extractDetailedHierarchy] returns for a node, given the
    structures of its children. *)
Definition structureOf (node : DesignNode) (depth : nat)
    (cs : list Hierarchical.Structure) : Hierarchical.Structure :=
  let classified (ct : option Hierarchical.ComponentType) (tc ic ins : option string) :=
    Hierarchical.mkStructure (node_type node) (Js.orElse (node_name node) "Unnamed")
                             (node_id node) depth ct tc ic ins cs in
  if node_type node =? "TEXT" then
    classified (Some Hierarchical.text)
               (Some (Js.substring0 50 (node_characters node))) None None
  else if Hierarchical.isIcon node then
    classified (Some Hierarchical.icon) None (Some (node_name node)) None
  else if Hierarchical.isButton node then
    classified (Some Hierarchical.button) None None None
  else if (node_type node =? "FRAME") || (node_type node =? "GROUP") then
    classified (Some Hierarchical.container) None None None
  else if node_type node =? "INSTANCE" then
    classified (Some Hierarchical.instance) None None (Some (node_name node))
  else classified None None None None.

(** The inner [option] is the [null] of a node beyond the cap. *)
Fixpoint extractDetailedHierarchy (stack : nat) (node : DesignNode)
    (depth maxDepth : nat) : option (option Hierarchical.Structure) :=
  match stack with
  | 0 => None
  | S stack =>
      if (maxDepth <? depth)%nat then Some None
      else
        match mapCalls (fun child =>
                          extractDetailedHierarchy stack child (depth + 1) maxDepth)
                       (node_children node) with
        | Some results => Some (Some (structureOf node depth (Js.filterBoolean results)))
        | None => None
        end
  end.

End CallStack.

(** ** The semantic matcher and its debounced batch queue *)

Module AiMatcher.

Import AnalyzerNode.

(** An entry of [comparisonQueue].  [q_resolve] names the [resolve] function
    of the promise the caller holds. *)
Record QueueItem := {
  q_id : string;
  c1 : Group;
  c2 : Group;
  q_resolve : nat }.

(** *** batchStructuralMatch *)

(** The body of a request: the numbered input lines of the prompt and
    [max_tokens]. *)
Record Request := { req_lines : list string; req_max_tokens : nat }.

Definition describe (g : Group) : string :=
  ("n:" ++ g_name g ++ "|t:" ++ Js.ofNat (r_text (g_recipe g))
        ++ "|b:" ++ Js.ofNat (r_buttons (g_recipe g)))%string.

Fixpoint promptLines (i : nat) (pairs : list QueueItem) : list string :=
  match pairs with
  | [] => []
  | p :: rest =>
      (Js.ofNat (i + 1) ++ ") C1=" ++ describe (c1 p) ++ "  C2=" ++ describe (c2 p))%string
      :: promptLines (i + 1) rest
  end.

Definition requestOf (pairs : list QueueItem) : Request :=
  {| req_lines := promptLines 0 pairs; req_max_tokens := List.length pairs * 5 |}.

(** What one [callAI] does: it answers with a body whose [response] is a
    text, or with a body that has no such text, or it throws, with status 401
    or otherwise. *)
Inductive CallResult :=
| Answers (response : string)
| AnswersWithoutText
| Throws (status401 : bool).

(** The behaviour of the collaborators during one [batchStructuralMatch]: the
    first [callAI], the token refresh ([execSync]) and the second [callAI]. *)
Record Oracle := {
  firstCall : CallResult;
  refreshSucceeds : bool;
  secondCall : CallResult }.

(** The [try]/[catch] around [callAI] and the read of
    [response.data.response] that follows it: the response text, or [None]
    when the function throws.  It throws when [callAI] does, the retry after a
    status 401 apart, and when the body of the answer has no text to split,
    which is outside the [try] and is not retried. *)
Definition callWithRetry (o : Oracle) : option string :=
  match firstCall o with
  | Answers response => Some response
  | AnswersWithoutText => None
  | Throws true =>
      if refreshSucceeds o then
        match secondCall o with
        | Answers response => Some response
        | AnswersWithoutText => None
        | Throws _ => None
        end
      else None
  | Throws false => None
  end.

Definition isYN (c : ascii) : bool :=
  Ascii.eqb c "Y" || Ascii.eqb c "N" || Ascii.eqb c "y" || Ascii.eqb c "n".

(** A match of [/(\d+):([YN])/i] at the start of [s]: the two groups. *)
Fixpoint matchAt (s : string) : option (string * ascii) :=
  match s with
  | EmptyString => None
  | String d r =>
      if Js.isDigit d then
        match matchAt r with
        | Some (digits, v) => Some (String d digits, v)
        | None =>
            match r with
            | String ":" (String v _) =>
                if isYN v then Some (String d EmptyString, v) else None
            | _ => None
            end
        end
      else None
  end.

(** [line.match(/(\d+):([YN])/i)]: the leftmost match. *)
Fixpoint lineMatch (line : string) : option (string * ascii) :=
  match matchAt line with
  | Some m => Some m
  | None =>
      match line with
      | EmptyString => None
      | String _ r => lineMatch r
      end
  end.

(** The [Map] from pair id to verdict. *)
Definition ResultMap := list (string * bool).

Fixpoint mapSet (k : string) (v : bool) (m : ResultMap) : ResultMap :=
  match m with
  | [] => [(k, v)]
  | (k', v') :: rest => if k' =? k then (k', v) :: rest else (k', v') :: mapSet k v rest
  end.

Definition mapGet (k : string) (m : ResultMap) : option bool :=
  option_map snd (find (fun entry => fst entry =? k) m).

(** The callback of [lines.forEach]. *)
Definition readLine (pairs : list QueueItem) (resultMap : ResultMap) (line : string)
  : ResultMap :=
  match lineMatch line with
  | Some (digits, v) =>
      let n := Js.numberOfDigits digits in
      let val := Ascii.eqb v "Y" || Ascii.eqb v "y" in
      if (n =? 0)%N then resultMap
      else
        match nth_error pairs (N.to_nat (n - 1)) with
        | Some p => mapSet (q_id p) val resultMap
        | None => resultMap
        end
  | None => resultMap
  end.

Definition parseResponse (pairs : list QueueItem) (response : string) : ResultMap :=
  fold_left (readLine pairs) (Js.splitLines response) [].

(** [batchStructuralMatch(pairs)]: the result map, or [None] when the promise
    is rejected. *)
Definition batchStructuralMatch (pairs : list QueueItem) (o : Oracle) : option ResultMap :=
  match pairs with
  | [] => Some []
  | _ =>
      match callWithRetry o with
      | Some response => Some (parseResponse pairs response)
      | None => None
      end
  end.

(** *** areComponentsSimilar and the timer callback *)

(** The module state ([comparisonQueue], [flushTimer]) and what the
    environment observes: the batches handed to [batchStructuralMatch] whose
    answer is awaited, the requests built by [batchStructuralMatch], one for
    each non-empty batch ([callAI] posts it once, and once more when the
    first post is answered with status 401, see [callWithRetry]), and the
    promises resolved so far with their values. *)
Record State := {
  comparisonQueue : list QueueItem;
  flushTimer : bool;
  inFlight : list (list QueueItem);
  oracleCalls : list Request;
  resolved : list (nat * bool) }.

Definition initial : State :=
  {| comparisonQueue := []; flushTimer := false; inFlight := [];
     oracleCalls := []; resolved := [] |}.

(** [resolve(v)] *)
Definition resolveWith (resolve : nat) (v : bool) (st : State) : State :=
  {| comparisonQueue := comparisonQueue st; flushTimer := flushTimer st;
     inFlight := inFlight st; oracleCalls := oracleCalls st;
     resolved := resolved st ++ [(resolve, v)] |}.

Definition itemOf (resolve : nat) (group1 group2 : Group) : QueueItem :=
  {| q_id := (g_name group1 ++ "__" ++ g_name group2)%string;
     c1 := group1; c2 := group2; q_resolve := resolve |}.

Definition areComponentsSimilar (resolve : nat) (group1 group2 : Group) (st : State)
  : State :=
  if negb (r_text (g_recipe group1) =? r_text (g_recipe group2))%nat
     || negb (r_buttons (g_recipe group1) =? r_buttons (g_recipe group2))%nat
  then resolveWith resolve false st
  else if (g_name group1 =? g_name group2) && (g_signature group1 =? g_signature group2)
  then resolveWith resolve true st
  else
    {| comparisonQueue := comparisonQueue st ++ [itemOf resolve group1 group2];
       flushTimer := true;
       inFlight := inFlight st; oracleCalls := oracleCalls st;
       resolved := resolved st |}.

(** The timer callback up to its [await]: the queue is spliced, the timer
    reset and [batchStructuralMatch] entered, which posts its request unless
    the batch is empty. *)
Definition timerFires (st : State) : State :=
  if flushTimer st then
    let batch := comparisonQueue st in
    match batch with
    | [] =>
        {| comparisonQueue := []; flushTimer := false;
           inFlight := inFlight st; oracleCalls := oracleCalls st;
           resolved := resolved st |}
    | _ =>
        {| comparisonQueue := []; flushTimer := false;
           inFlight := inFlight st ++ [batch];
           oracleCalls := oracleCalls st ++ [requestOf batch];
           resolved := resolved st |}
    end
  else st.

(** The timer callback after its [await], for a batch and the outcome of
    [batchStructuralMatch]: the value each item's promise is resolved with. *)
Definition settle (batch : list QueueItem) (results : option ResultMap) : list (nat * bool) :=
  match results with
  | Some results =>
      map (fun item =>
             (q_resolve item,
              match mapGet (q_id item) results with Some v => v | None => false end))
          batch
  | None =>
      map (fun item =>
             (q_resolve item,
              Js.toLowerCase (g_name (c1 item)) =? Js.toLowerCase (g_name (c2 item))))
          batch
  end.

Fixpoint removeNth {A} (k : nat) (l : list A) : list A :=
  match k, l with
  | _, [] => []
  | 0, _ :: r => r
  | S k, x :: r => x :: removeNth k r
  end.

(** The [k]-th awaited batch completes, the collaborators behaving as [o]. *)
Definition oracleSettles (k : nat) (o : Oracle) (st : State) : State :=
  match nth_error (inFlight st) k with
  | Some batch =>
      {| comparisonQueue := comparisonQueue st; flushTimer := flushTimer st;
         inFlight := removeNth k (inFlight st);
         oracleCalls := oracleCalls st;
         resolved := resolved st ++ settle batch (batchStructuralMatch batch o) |}
  | None => st
  end.

(** The events of the single-threaded event loop. *)
Inductive Event :=
| Call (resolve : nat) (group1 group2 : Group)
| TimerFires
| OracleSettles (k : nat) (o : Oracle).

Definition step (st : State) (e : Event) : State :=
  match e with
  | Call resolve group1 group2 => areComponentsSimilar resolve group1 group2 st
  | TimerFires => timerFires st
  | OracleSettles k o => oracleSettles k o st
  end.

Definition run (st : State) (events : list Event) : State := fold_left step events st.

(** A call is ambiguous when neither fast path applies. *)
Definition ambiguous (group1 group2 : Group) : bool :=
  negb (negb (r_text (g_recipe group1) =? r_text (g_recipe group2))%nat
        || negb (r_buttons (g_recipe group1) =? r_buttons (g_recipe group2))%nat)
  && negb ((g_name group1 =? g_name group2) && (g_signature group1 =? g_signature group2)).

(** The items that the calls among [events] put on the queue. *)
Fixpoint enqueued (events : list Event) : list QueueItem :=
  match events with
  | [] => []
  | Call resolve group1 group2 :: rest =>
      if ambiguous group1 group2 then itemOf resolve group1 group2 :: enqueued rest
      else enqueued rest
  | _ :: rest => enqueued rest
  end.

Definition isTimerFires (e : Event) : bool :=
  match e with TimerFires => true | _ => false end.

End AiMatcher.

From Stdlib Require Import ZArith Permutation.

(** ** The flat reconciler *)

Module AnalyzerCompare.

Import Analyzer.

(** A value of the [allFeatures] map: the name and the type of the first
    feature seen under the key, and the set of platforms, in insertion
    order. *)
Record Entry := {
  e_name : string;
  e_type : Category;
  e_platforms : list AnalyzerNode.Platform }.

(** The [allFeatures] map, keyed by feature name, in insertion order. *)
Definition AllFeatures := list (string * Entry).

Definition has (key : string) (allFeatures : AllFeatures) : bool :=
  existsb (fun entry => fst entry =? key) allFeatures.

Definition get (key : string) (allFeatures : AllFeatures) : option Entry :=
  option_map snd (find (fun entry => fst entry =? key) allFeatures).

(** [allFeatures.get(key).platforms.add(platform)] *)
Fixpoint addPlatform (platform : AnalyzerNode.Platform) (key : string)
    (allFeatures : AllFeatures) : AllFeatures :=
  match allFeatures with
  | [] => []
  | (k, e) :: rest =>
      if k =? key then
        (k, {| e_name := e_name e; e_type := e_type e;
               e_platforms := Js.setAdd AnalyzerNode.Platform_eqb platform (e_platforms e) |})
        :: rest
      else (k, e) :: addPlatform platform key rest
  end.

(** The callback of [features.all.forEach] in [addFeatures]. *)
Definition addFeature (platform : AnalyzerNode.Platform) (allFeatures : AllFeatures)
    (feature : Feature) : AllFeatures :=
  let key := f_name feature in
  let allFeatures :=
    if has key allFeatures then allFeatures
    else allFeatures ++
           [ (key, {| e_name := f_name feature; e_type := f_type feature;
                      e_platforms := [] |}) ] in
  addPlatform platform key allFeatures.

Definition addFeatures (features : Features) (platform : AnalyzerNode.Platform)
    (allFeatures : AllFeatures) : AllFeatures :=
  fold_left (addFeature platform) (all features) allFeatures.

(** An item of the mapping: [{ name, platforms, icon }]. *)
Record Item := {
  it_name : string;
  it_platforms : list AnalyzerNode.Platform;
  it_icon : AnalyzerNode.Icon }.

Record Tally := {
  consistent : nat;
  inconsistent : nat;
  mapping_text : list Item;
  mapping_buttons : list Item }.

(** The callback of [allFeatures.forEach]. *)
Definition tally (t : Tally) (feature : Entry) : Tally :=
  let platformCount := List.length (e_platforms feature) in
  let isConsistent := (platformCount =? 3)%nat in
  let item := {| it_name := e_name feature;
                 it_platforms := e_platforms feature;
                 it_icon := if isConsistent then AnalyzerNode.IconCheck
                            else AnalyzerNode.IconWarning |} in
  {| consistent := if isConsistent then consistent t + 1 else consistent t;
     inconsistent := if isConsistent then inconsistent t else inconsistent t + 1;
     mapping_text := match e_type feature with
                     | BUTTON => mapping_text t
                     | _ => mapping_text t ++ [item]
                     end;
     mapping_buttons := match e_type feature with
                        | BUTTON => mapping_buttons t ++ [item]
                        | _ => mapping_buttons t
                        end |}.

Record Results := {
  android : AnalyzerNode.PlatformTotals;
  ios : AnalyzerNode.PlatformTotals;
  web : AnalyzerNode.PlatformTotals;
  r_consistent : nat;
  r_inconsistent : nat;
  r_mapping_text : list Item;
  r_mapping_buttons : list Item }.

Definition totalsOf (f : Features) : AnalyzerNode.PlatformTotals :=
  {| AnalyzerNode.total := List.length (all f);
     AnalyzerNode.total_text := List.length (text f);
     AnalyzerNode.total_buttons := List.length (buttons f) |}.

Section WithLocale.

(** [a.localeCompare(b)]: negative, zero or positive.  The collation of the
    host is not part of the program. *)
Variable localeCompare : string -> string -> Z.

(** [items.sort((a, b) => a.name.localeCompare(b.name))]: the sort of an
    array is stable, so for a comparator that orders the names its result is
    the one of a stable insertion sort. *)
Fixpoint insertByName (x : Item) (sorted : list Item) : list Item :=
  match sorted with
  | [] => [x]
  | y :: rest =>
      if Z.ltb (localeCompare (it_name x) (it_name y)) 0%Z then x :: y :: rest
      else y :: insertByName x rest
  end.

Definition sortByName (items : list Item) : list Item :=
  fold_left (fun sorted x => insertByName x sorted) items [].

Definition compareFeatures (android ios web : Features) : Results :=
  let allFeatures := addFeatures android AnalyzerNode.Android [] in
  let allFeatures := addFeatures ios AnalyzerNode.iOS allFeatures in
  let allFeatures := addFeatures web AnalyzerNode.Web allFeatures in
  let t := fold_left tally (map snd allFeatures)
             {| consistent := 0; inconsistent := 0;
                mapping_text := []; mapping_buttons := [] |} in
  {| android := totalsOf android;
     ios := totalsOf ios;
     web := totalsOf web;
     r_consistent := consistent t;
     r_inconsistent := inconsistent t;
     r_mapping_text := sortByName (mapping_text t);
     r_mapping_buttons := sortByName (mapping_buttons t) |}.

End WithLocale.

End AnalyzerCompare.

(** ** The hierarchical extractor, by page *)

Module HierarchicalPages.

Import Hierarchical.

Record Page := {
  pageName : string;
  page_cards : list Card;
  totalCards : nat }.

(** The callback of [pages.map]. *)
Definition pageOf (page : DesignNode) : Page :=
  let tree := extractDetailedHierarchy page 0 15 in
  let cards := match tree with
               | Some t => extractCardsWithDetails t [] 0
               | None => []
               end in
  let cards := if (100 <? List.length cards)%nat then firstn 100 cards else cards in
  {| pageName := node_name page; page_cards := cards; totalCards := List.length cards |}.

Definition extractHierarchicalFeaturesByPage (figmaDocument : DesignNode) : list Page :=
  match node_children figmaDocument with
  | [] => []
  | children =>
      let pages := filter (fun child => node_type child =? "CANVAS") children in
      filter (fun p => (0 <? List.length (page_cards p))%nat) (map pageOf pages)
  end.

End HierarchicalPages.

(** ** The comparison by name with the matcher *)

Module AiCompare.

Import AnalyzerNode AiMatcher.

Inductive CountInfo :=
| CountOneAcrossAll
| StructureVaries
| MissingFrom (missing : list Platform).

Inductive Details :=
| StructurallyPerfect
| StructuralMismatch
| MissingOn (missing : list Platform).

Record MappingEntry := {
  m_name : string;
  m_platforms : list Platform;
  m_countInfo : CountInfo;
  m_icon : Icon;
  m_details : Details }.

Record Results := {
  android : PlatformTotals;
  ios : PlatformTotals;
  web : PlatformTotals;
  consistent : nat;
  inconsistent : nat;
  mapping_text : list MappingEntry }.

(** [groups.find(g => g.name === name)] *)
Definition findByName (name : string) (groups : list Group) : option Group :=
  find (fun g => g_name g =? name) groups.

Definition present {A} (o : option A) (p : Platform) : list Platform :=
  match o with Some _ => [p] | None => [] end.

Definition absent {A} (o : option A) (p : Platform) : list Platform :=
  match o with Some _ => [] | None => [p] end.

Definition totalsOf (groups : list Group) : PlatformTotals :=
  {| total := List.length groups; total_text := 0; total_buttons := 0 |}.

(** The value that the promise [resolve] was resolved with. *)
Definition valueOf (resolve : nat) (st : State) : option bool :=
  option_map snd (find (fun entry => (fst entry =? resolve)%nat) (resolved st)).

(** [await Promise.all([areComponentsSimilar(android, ios),
    areComponentsSimilar(android, web), areComponentsSimilar(ios, web)])],
    the module being in its initial state and having no other caller: the
    three calls run in this order, each within the executor of its promise;
    the timer that a queued call armed fires; the batch, if there is one, is
    answered, the collaborators behaving as [o]; the values of the three
    promises are read.  [None] when a promise is never resolved, so that the
    [await] does not return. *)
Definition similarities (o : Oracle) (androidGroup iosGroup webGroup : Group)
  : option (bool * bool * bool) :=
  let st := run initial [ Call 0 androidGroup iosGroup;
                          Call 1 androidGroup webGroup;
                          Call 2 iosGroup webGroup;
                          TimerFires;
                          OracleSettles 0 o ] in
  match valueOf 0 st, valueOf 1 st, valueOf 2 st with
  | Some androidIosSimilar, Some androidWebSimilar, Some iosWebSimilar =>
      Some (androidIosSimilar, androidWebSimilar, iosWebSimilar)
  | _, _, _ => None
  end.

Section WithOracle.

(** The behaviour of the collaborators during the batch that the comparison
    of a name hands to [batchStructuralMatch], if it queues a pair. *)
Variable oracle : string -> Oracle.

(** The body of the loop over [allNames]; [None] when it does not return.
    The three groups are found exactly when [platforms.length === 3]. *)
Definition compareName (androidGroups iosGroups webGroups : list Group)
    (results : option Results) (name : string) : option Results :=
  match results with
  | None => None
  | Some results =>
      let android_ := findByName name androidGroups in
      let ios_ := findByName name iosGroups in
      let web_ := findByName name webGroups in
      let platforms := present android_ Android ++ present ios_ iOS ++ present web_ Web in
      match android_, ios_, web_ with
      | Some androidGroup, Some iosGroup, Some webGroup =>
          match similarities (oracle name) androidGroup iosGroup webGroup with
          | Some (androidIosSimilar, androidWebSimilar, iosWebSimilar) =>
              let allMatch := androidIosSimilar && androidWebSimilar && iosWebSimilar in
              if allMatch then
                Some
                  {| android := android results; ios := ios results; web := web results;
                     consistent := consistent results + 1;
                     inconsistent := inconsistent results;
                     mapping_text := mapping_text results ++
                       [ {| m_name := name; m_platforms := platforms;
                            m_countInfo := CountOneAcrossAll; m_icon := IconCheck;
                            m_details := StructurallyPerfect |} ] |}
              else
                Some
                  {| android := android results; ios := ios results; web := web results;
                     consistent := consistent results;
                     inconsistent := inconsistent results + 1;
                     mapping_text := mapping_text results ++
                       [ {| m_name := name; m_platforms := platforms;
                            m_countInfo := StructureVaries; m_icon := IconWarning;
                            m_details := StructuralMismatch |} ] |}
          | None => None
          end
      | _, _, _ =>
          let missing := absent android_ Android ++ absent ios_ iOS ++ absent web_ Web in
          Some
            {| android := android results; ios := ios results; web := web results;
               consistent := consistent results;
               inconsistent := inconsistent results + 1;
               mapping_text := mapping_text results ++
                 [ {| m_name := name; m_platforms := platforms;
                      m_countInfo := MissingFrom missing; m_icon := IconWarning;
                      m_details := MissingOn missing |} ] |}
      end
  end.

(** [compareComponentsWithAI]: the results, or [None] when the function does
    not return. *)
Definition compareComponentsWithAI (androidGroups iosGroups webGroups : list Group)
  : option Results :=
  let results :=
    {| android := totalsOf androidGroups;
       ios := totalsOf iosGroups;
       web := totalsOf webGroups;
       consistent := 0; inconsistent := 0; mapping_text := [] |} in
  let allNames :=
    Js.setOfList (map g_name androidGroups ++ map g_name iosGroups ++ map g_name webGroups) in
  fold_left (compareName androidGroups iosGroups webGroups) allNames (Some results).

End WithOracle.

End AiCompare.

(** ** The analysis of the bot *)

Module BotHandler.

(** The three uploaded files, each with its [document]. *)
Record Files := { f_android : DesignNode; f_ios : DesignNode; f_web : DesignNode }.

Definition performAnalysis (files : Files) : AnalyzerNode.Results :=
  let androidFeatures := AnalyzerNode.extractFeatures (f_android files) in
  let iosFeatures := AnalyzerNode.extractFeatures (f_ios files) in
  let webFeatures := AnalyzerNode.extractFeatures (f_web files) in
  AnalyzerNode.compareFeatures androidFeatures iosFeatures webFeatures.

End BotHandler.

(** * Vocabulary of the statements *)

Module JsSpec.

(** The strings of decimal digits. *)
Fixpoint allDigits (s : string) : bool :=
  match s with
  | EmptyString => true
  | String c r => Js.isDigit c && allDigits r
  end.


End JsSpec.

Module AnalyzerSpec.

Import Analyzer.

(** The feature that a TEXT node with the characters [characters] and the
    name [nodeName] stands for: its name is the trimmed text, its category is
    decided on the node name and on the text as it is. *)
Definition textFeature (nodeName characters : string) : Feature :=
  {| f_name := Js.trim characters;
     f_type := if Js.includes (Js.toLowerCase nodeName) "button"
                  || Js.includes (Js.toLowerCase nodeName) "btn"
                  || Js.arrayIncludes buttonKeywords (Js.toLowerCase characters)
               then BUTTON else TEXT |}.

End AnalyzerSpec.

Module GroupSpec.

Import AnalyzerNode.

(** The group that [visit] pushes for a node, and the test that decides
    whether it is pushed. *)
Definition groupOf (node : DesignNode) : Group :=
  let children := node_children node in
  let textCount := List.length (filter isTextChild children) in
  let buttonCount := List.length (filter isButtonChild children) in
  {| g_name := Js.orElse (node_name node) "Unnamed Group";
     g_id := node_id node;
     g_type := node_type node;
     g_recipe := {| r_text := textCount; r_buttons := buttonCount;
                    r_total := List.length children |};
     g_signature := signatureOf textCount buttonCount;
     g_semanticKeywords := extractSemanticKeywords (node_name node) |}.

Definition tracksGroup (node : DesignNode) : bool :=
  Js.arrayIncludes containerTypes (node_type node)
  && ((1 <? List.length (node_children node))%nat
      || (node_type node =? "COMPONENT") || (node_type node =? "INSTANCE")).

(** The invariant of the data model: the signature of a group is the one
    derived from its recipe, as the extractor builds it. *)
Definition wellFormed (g : Group) : Prop :=
  g_signature g = signatureOf (r_text (g_recipe g)) (r_buttons (g_recipe g)).

End GroupSpec.

Module ReconcilerSpec.

Import AnalyzerNode.

(** The distinct identities of the three lists, in the order of their first
    occurrence; the occurrences of an identity in one list; the largest of
    its three occurrence counts. *)
Definition distinctIdentities (androidGroups iosGroups webGroups : list Group) : list string :=
  Js.setOfList (map getIdentity (androidGroups ++ iosGroups ++ webGroups)).

Definition occurrences (id : string) (groups : list Group) : nat :=
  List.length (filter (fun g => getIdentity g =? id) groups).

Definition peak (androidGroups iosGroups webGroups : list Group) (id : string) : nat :=
  max3 (occurrences id androidGroups) (occurrences id iosGroups) (occurrences id webGroups).

(** The count that the identity map holds for an identity on a platform. *)
Definition countAt (platform : Platform) (id : string) (identities : Identities) : nat :=
  match get id identities with
  | Some d => countOf platform (i_counts d)
  | None => 0
  end.

Definition peakOfData (d : IdentityData) : nat :=
  max3 (c_Android (i_counts d)) (c_iOS (i_counts d)) (c_Web (i_counts d)).

(** An entry whose details are not those of an alternative implementation. *)
Definition notRescued (e : MappingEntry) : Prop :=
  match m_details e with AlternativeImplementationFound _ => False | _ => True end.

End ReconcilerSpec.

Module DepthSpec.

(** The nodes of a tree that lie [k] levels at most below its root, in
    document order. *)
Fixpoint nodesUpTo (k : nat) (node : DesignNode) : list DesignNode :=
  node :: match k with
          | 0 => []
          | S k => flat_map (nodesUpTo k) (node_children node)
          end.

(** The number of levels of a tree. *)
Fixpoint levels (node : DesignNode) : nat :=
  match node with
  | mkNode _ _ _ _ children => S (fold_right Nat.max 0 (map levels children))
  end.

(** What the flat extractor and the structural-group extractor find in a
    tree of which [Examples.deepText] is the only node that they record. *)
Definition deepFlat : Analyzer.Features :=
  let deep := {| Analyzer.f_name := "Deep"; Analyzer.f_type := Analyzer.TEXT |} in
  {| Analyzer.text := [deep]; Analyzer.buttons := []; Analyzer.all := [deep] |}.

Definition deepGroups : AnalyzerNode.Features :=
  {| AnalyzerNode.text := [ {| AnalyzerNode.t_name := "Deep label";
                               AnalyzerNode.t_text := "Deep";
                               AnalyzerNode.t_id := "9:9" |} ];
     AnalyzerNode.buttons := [];
     AnalyzerNode.groups := [] |}.

End DepthSpec.

Module MatcherSpec.

Import AnalyzerNode AiMatcher.

(** A response line names the pair at position [j] when its first match has
    the number [j + 1]. *)
Definition lineNames (j : nat) (line : string) : Prop :=
  exists digits v, lineMatch line = Some (digits, v)
                   /\ Js.numberOfDigits digits = N.of_nat (j + 1).

End MatcherSpec.

(** ** Example designs *)

Module Examples.

Import AnalyzerNode AiMatcher.

(** The TEXT leaf used below the chains. *)
Definition deepText : DesignNode := mkNode "9:9" "Deep label" "TEXT" "Deep" [].

(** A screen with two cards of the same name and recipe. *)
Definition twoCards : DesignNode :=
  mkNode "0:1" "Screen" "FRAME" ""
    [ mkNode "1:1" "Card" "FRAME" ""
        [ mkNode "1:2" "Title" "TEXT" "Paris" []; mkNode "1:3" "Price" "TEXT" "120" [] ];
      mkNode "2:1" "Card" "FRAME" ""
        [ mkNode "2:2" "Title" "TEXT" "Rome" []; mkNode "2:3" "Price" "TEXT" "95" [] ] ].

(** The three designs of the search scenario. *)
Definition searchAndroid : DesignNode :=
  mkNode "1:1" "Search Bar" "FRAME" ""
    [ mkNode "1:2" "Placeholder" "TEXT" "Search flights..." [];
      mkNode "1:3" "Go Button" "RECTANGLE" "" [] ].

Definition searchIos : DesignNode := mkNode "2:1" "Search Icon" "INSTANCE" "" [].

Definition searchWeb : DesignNode :=
  mkNode "3:1" "Search Input" "COMPONENT" ""
    [ mkNode "3:2" "Placeholder" "TEXT" "Search" [] ].

(** Two designs of a search bar and of a search field, by recipe. *)
Definition searchBar (t b : nat) : Group :=
  {| g_name := "Search Bar"; g_id := "1:1"; g_type := "FRAME";
     g_recipe := {| r_text := t; r_buttons := b; r_total := t + b |};
     g_signature := signatureOf t b; g_semanticKeywords := ["search"] |}.

Definition searchField (t b : nat) : Group :=
  {| g_name := "Search Field"; g_id := "2:1"; g_type := "FRAME";
     g_recipe := {| r_text := t; r_buttons := b; r_total := t + b |};
     g_signature := signatureOf t b; g_semanticKeywords := ["search"] |}.

Definition answers (response : string) : Oracle :=
  {| firstCall := Answers response; refreshSucceeds := true; secondCall := Throws false |}.

End Examples.

(** ** Vocabulary of the further properties *)

Module FlatSpec.

Import Analyzer.

Definition isButtonFeature (f : Feature) : bool := Category_eqb (f_type f) BUTTON.

(** The three sets agree: [all] has no duplicate, [buttons] holds its BUTTON
    features and [text] the others, each in the order of [all]. *)
Definition setInvariant (fs : Features) : Prop :=
  NoDup (all fs)
  /\ text fs = filter (fun f => negb (isButtonFeature f)) (all fs)
  /\ buttons fs = filter isButtonFeature (all fs).

(** The feature that [visit] records for a node, if it records one. *)
Definition emits (nodeType nodeName characters : string) (hasChildren : bool)
  : option Feature :=
  if nodeType =? "TEXT" then
    if Js.truthy (Js.trim characters) then
      Some {| f_name := Js.trim characters;
              f_type := classifyTextElement characters nodeName |}
    else None
  else if (nodeType =? "COMPONENT") || (nodeType =? "INSTANCE") then
    if Js.truthy (Js.trim nodeName) then
      Some {| f_name := nodeName; f_type := classifyComponent nodeName |}
    else None
  else if (nodeType =? "GROUP") || (nodeType =? "FRAME") then
    if Js.truthy (Js.trim nodeName) then
      if isIconComponent nodeName then Some {| f_name := nodeName; f_type := ICON |}
      else if negb hasChildren then
        match classifyGroup nodeName with
        | OTHER => None
        | c => Some {| f_name := nodeName; f_type := c |}
        end
      else None
    else None
  else None.

End FlatSpec.

Module FlatCompareSpec.

Import Analyzer AnalyzerCompare.

(** The feature names of a platform, the distinct names of the three
    platforms in the order of their first occurrence, and the platforms that
    have a feature of a given name. *)
Definition names (f : Features) : list string := map f_name (all f).

Definition distinctNames (a i w : Features) : list string :=
  Js.setOfList (names a ++ names i ++ names w).

Definition hasName (f : Features) (k : string) : bool :=
  existsb (String.eqb k) (names f).

Definition platformsOf (a i w : Features) (k : string) : list AnalyzerNode.Platform :=
  (if hasName a k then [AnalyzerNode.Android] else [])
  ++ (if hasName i k then [AnalyzerNode.iOS] else [])
  ++ (if hasName w k then [AnalyzerNode.Web] else []).

Definition platformsAt (k : string) (m : AllFeatures) : list AnalyzerNode.Platform :=
  match get k m with Some e => e_platforms e | None => [] end.

(** The map built by the three [addFeatures]. *)
Definition built (a i w : Features) : AllFeatures :=
  addFeatures w AnalyzerNode.Web
    (addFeatures i AnalyzerNode.iOS (addFeatures a AnalyzerNode.Android [])).

(** An entry present on three platforms. *)
Definition threefold (e : Entry) : bool := (List.length (e_platforms e) =? 3)%nat.

(** No two neighbours of the list are in the wrong order. *)
Fixpoint ordered (localeCompare : string -> string -> Z) (items : list Item) : Prop :=
  match items with
  | [] => True
  | x :: rest =>
      match rest with
      | [] => True
      | y :: _ => (0 <= localeCompare (it_name y) (it_name x))%Z
      end /\ ordered localeCompare rest
  end.

(** A comparison of names by their characters. *)
Definition byCharacters (a b : string) : Z :=
  match String.compare a b with Lt => (-1)%Z | Eq => 0%Z | Gt => 1%Z end.

End FlatCompareSpec.

Module GroupExtraSpec.

Import AnalyzerNode GroupSpec.

(** The nodes of a tree, in document order (pre-order). *)
Fixpoint allNodes (node : DesignNode) : list DesignNode :=
  match node with
  | mkNode _ _ _ _ children => node :: flat_map allNodes children
  end.

(** The three lists of one result followed by those of another. *)
Definition appendFeatures (f g : Features) : Features :=
  {| text := text f ++ text g;
     buttons := buttons f ++ buttons g;
     groups := groups f ++ groups g |}.

(** What one node adds on its own. *)
Definition own (node : DesignNode) : Features := visit node emptyFeatures.

(** What every extracted group satisfies. *)
Definition groupInvariant (g : Group) : Prop :=
  wellFormed g
  /\ r_text (g_recipe g) <= r_total (g_recipe g)
  /\ r_buttons (g_recipe g) <= r_total (g_recipe g)
  /\ In (g_type g) containerTypes
  /\ (2 <= r_total (g_recipe g) \/ g_type g = "COMPONENT" \/ g_type g = "INSTANCE")
  /\ g_name g <> EmptyString.

(** The strings without the character [c]. *)
Fixpoint freeOf (c : ascii) (s : string) : bool :=
  match s with
  | EmptyString => true
  | String x r => negb (Ascii.eqb x c) && freeOf c r
  end.

End GroupExtraSpec.

Module ReconcilerExtraSpec.

Import AnalyzerNode ReconcilerSpec.

(** The keywords that [findSemanticEquivalents] reads of its target. *)
Definition keywordsOf (t : TargetData) : list string :=
  match td_semanticKeywords t with Some k => k | None => [] end.

(** An identity is perfect when it occurs on the three platforms, the same
    number of times. *)
Definition perfect (a i w : list Group) (k : string) : bool :=
  (0 <? occurrences k a)%nat && (0 <? occurrences k i)%nat && (0 <? occurrences k w)%nat
  && (occurrences k a =? occurrences k i)%nat && (occurrences k i =? occurrences k w)%nat.

Definition perfectData (d : IdentityData) : bool :=
  (0 <? c_Android (i_counts d))%nat && (0 <? c_iOS (i_counts d))%nat
  && (0 <? c_Web (i_counts d))%nat
  && (c_Android (i_counts d) =? c_iOS (i_counts d))%nat
  && (c_iOS (i_counts d) =? c_Web (i_counts d))%nat.

(** The shapes that an entry of the mapping can have. *)
Definition entryShape (e : MappingEntry) : Prop :=
  match m_details e with
  | StructurallyPerfect =>
      m_icon e = IconCheck /\ m_platforms e = [Android; iOS; Web]
      /\ exists n, 0 < n /\ m_countInfo e = CountAcrossAll n
  | MissingOn missing =>
      m_icon e = IconWarning /\ missing <> []
      /\ (forall p, In p missing <-> ~ In p (m_platforms e))
  | CountMismatch a i w =>
      m_icon e = IconWarning /\ m_platforms e = [Android; iOS; Web]
      /\ ~ (a = i /\ i = w) /\ m_countInfo e = CountsPerPlatform a i w
  | AlternativeImplementationFound _ => False
  | NoDetails => False
  end.

End ReconcilerExtraSpec.

Module HierarchySpec.

Import Hierarchical.

(** The number of levels of a tree. *)
Fixpoint height (node : DesignNode) : nat :=
  match node with
  | mkNode _ _ _ _ children => S (fold_right Nat.max 0 (map height children))
  end.

Definition ComponentType_eqb (a b : ComponentType) : bool :=
  match a, b with
  | text, text | icon, icon | button, button | container, container
  | instance, instance => true
  | _, _ => false
  end.

(** The nodes of a structure that are classified as [ct]. *)
Definition ofKind (ct : ComponentType) (s : Structure) : list Structure :=
  filter (fun x => match s_componentType x with
                   | Some c => ComponentType_eqb c ct
                   | None => false
                   end) (nodesOf s).

(** The length of the list that an inventory keeps for a kind. *)
Definition entriesOf (inventory : Inventory) (ct : ComponentType) : nat :=
  match ct with
  | text => List.length (texts inventory)
  | icon => List.length (icons inventory)
  | button => List.length (buttons inventory)
  | container => List.length (frames inventory)
  | instance => List.length (instances inventory)
  end.

(** The count that a table of counts holds for a name. *)
Definition countFor (name : string) (counts : list (string * nat)) : nat :=
  match find (fun entry => fst entry =? name) counts with
  | Some entry => snd entry
  | None => 0
  end.

(** Every child is labelled one level below its parent. *)
Definition levelled (s : Structure) : Prop :=
  forall x, In x (nodesOf s) -> forall c, In c (s_children x) -> s_depth c = s_depth x + 1.

End HierarchySpec.

Module CardSpec.

Import Hierarchical.

(** What every card found under [root] satisfies: it is the card of one of
    the nodes of [root], a FRAME with two children at least that passes the
    test of a main feature, with a text or a button in its inventory, labelled
    at depth 10 at most. *)
Definition cardOf_ok (root : Structure) (c : Card) : Prop :=
  c = cardOf (card_fullStructure c)
  /\ In (card_fullStructure c) (nodesOf root)
  /\ isMainFeature (card_fullStructure c) = true
  /\ s_type (card_fullStructure c) = "FRAME"
  /\ 2 <= List.length (s_children (card_fullStructure c))
  /\ (0 < ci_texts (card_inventory c) \/ 0 < ci_buttons (card_inventory c))
  /\ s_depth (card_fullStructure c) <= 10.

End CardSpec.

Module QueueSpec.

Import AnalyzerNode AiMatcher.

(** The two recipes agree on the number of texts and of buttons. *)
Definition recipesAgree (a b : Group) : bool :=
  (r_text (g_recipe a) =? r_text (g_recipe b))%nat
  && (r_buttons (g_recipe a) =? r_buttons (g_recipe b))%nat.

(** The promises handed out by the calls among [events]. *)
Fixpoint promised (events : list Event) : list nat :=
  match events with
  | [] => []
  | Call resolve _ _ :: rest => resolve :: promised rest
  | _ :: rest => promised rest
  end.

(** The promises that a state accounts for: the resolved ones, those of the
    queue and those of the batches that await their answer. *)
Definition accounted (st : State) : list nat :=
  map fst (resolved st)
  ++ map q_resolve (comparisonQueue st)
  ++ map q_resolve (List.concat (inFlight st)).

(** The timer is armed exactly when the queue is not empty. *)
Definition timerMatchesQueue (st : State) : Prop :=
  flushTimer st = match comparisonQueue st with [] => false | _ => true end.

(** The response that answers the pairs at the positions [start], [start + 1],
    ... with the verdicts of [v], one line each. *)
Definition answerLine (v : nat -> bool) (j : nat) : string :=
  (Js.ofNat (j + 1) ++ ":" ++ (if v j then "Y" else "N"))%string.

Definition fullAnswer (v : nat -> bool) (n : nat) : string :=
  Js.join (String "010"%char EmptyString) (map (answerLine v) (seq 0 n)).

(** A name that each of the three lists has a group of. *)
Definition onAllThree (a i w : list Group) (name : string) : bool :=
  existsb (fun g => g_name g =? name) a
  && existsb (fun g => g_name g =? name) i
  && existsb (fun g => g_name g =? name) w.

(** A name that each of the three lists has a group of, the first groups of
    that name agreeing pairwise on texts and buttons. *)
Definition agreeOnAllThree (a i w : list Group) (name : string) : bool :=
  match AiCompare.findByName name a, AiCompare.findByName name i,
        AiCompare.findByName name w with
  | Some x, Some y, Some z => recipesAgree x y && recipesAgree x z && recipesAgree y z
  | _, _, _ => false
  end.

End QueueSpec.

(** * Properties *)

(** ** Facts about the string primitives *)

Module JsFacts.

Import JsSpec.

Lemma arrayIncludes_In (arr : list string) (x : string) :
  Js.arrayIncludes arr x = true <-> In x arr.
Proof.
  unfold Js.arrayIncludes. rewrite existsb_exists. split.
  - intros [y [Hin Heq]]. apply String.eqb_eq in Heq. now subst.
  - intros Hin. exists x. split; [assumption | apply String.eqb_refl].
Qed.

Lemma truthy_true (s : string) : Js.truthy s = true <-> s <> EmptyString.
Proof. destruct s; simpl; split; congruence. Qed.

Lemma truthy_false (s : string) : Js.truthy s = false <-> s = EmptyString.
Proof. destruct s; simpl; split; congruence. Qed.

Lemma allDigits_uint (d : Decimal.uint) : allDigits (NilEmpty.string_of_uint d) = true.
Proof. induction d; simpl; auto. Qed.

Lemma allDigits_ofNat (n : nat) : allDigits (Js.ofNat n) = true.
Proof.
  unfold Js.ofNat, NilZero.string_of_uint.
  destruct (Nat.to_uint n) eqn:E; try reflexivity; rewrite <- E; apply allDigits_uint.
Qed.

Lemma ofNat_inj (a b : nat) : Js.ofNat a = Js.ofNat b -> a = b.
Proof.
  assert (back : forall n,
             match NilZero.uint_of_string (Js.ofNat n) with
             | Some d => Nat.of_uint d
             | None => 0
             end = n).
  { intros n. unfold Js.ofNat.
    destruct (Nat.to_uint n) eqn:E.
    - simpl. rewrite <- (DecimalNat.Unsigned.of_to n), E. reflexivity.
    - rewrite NilZero.usu by discriminate. rewrite <- E. apply DecimalNat.Unsigned.of_to.
    - rewrite NilZero.usu by discriminate. rewrite <- E. apply DecimalNat.Unsigned.of_to.
    - rewrite NilZero.usu by discriminate. rewrite <- E. apply DecimalNat.Unsigned.of_to.
    - rewrite NilZero.usu by discriminate. rewrite <- E. apply DecimalNat.Unsigned.of_to.
    - rewrite NilZero.usu by discriminate. rewrite <- E. apply DecimalNat.Unsigned.of_to.
    - rewrite NilZero.usu by discriminate. rewrite <- E. apply DecimalNat.Unsigned.of_to.
    - rewrite NilZero.usu by discriminate. rewrite <- E. apply DecimalNat.Unsigned.of_to.
    - rewrite NilZero.usu by discriminate. rewrite <- E. apply DecimalNat.Unsigned.of_to.
    - rewrite NilZero.usu by discriminate. rewrite <- E. apply DecimalNat.Unsigned.of_to.
    - rewrite NilZero.usu by discriminate. rewrite <- E. apply DecimalNat.Unsigned.of_to. }
  intros H. rewrite <- (back a), <- (back b), H. reflexivity.
Qed.

(** Two digit strings followed by the letter B and a rest can only agree when
    the digit strings and the rests agree. *)
Lemma digits_B_inj (s1 s2 t1 t2 : string) :
  allDigits s1 = true -> allDigits s2 = true ->
  (s1 ++ String "B" t1)%string = (s2 ++ String "B" t2)%string ->
  s1 = s2 /\ t1 = t2.
Proof.
  revert s2. induction s1 as [|c s1 IH]; intros [|c' s2] H1 H2 E; simpl in *.
  - injection E as ->. auto.
  - injection E as <- _. discriminate H2.
  - injection E as -> _. discriminate H1.
  - injection E as -> E.
    apply andb_prop in H1 as [_ H1]. apply andb_prop in H2 as [_ H2].
    destruct (IH s2 H1 H2 E) as [-> ->]. auto.
Qed.

End JsFacts.

(** ** The flat extractor: TEXT nodes *)

Module AnalyzerFacts.

Import Analyzer AnalyzerSpec.

Lemma classifyTextElement_spec (characters nodeName : string) :
  classifyTextElement characters nodeName = f_type (textFeature nodeName characters).
Proof.
  unfold classifyTextElement, textFeature; simpl.
  destruct (Js.includes (Js.toLowerCase nodeName) "button"
            || Js.includes (Js.toLowerCase nodeName) "btn"); simpl; [reflexivity|].
  destruct (Js.arrayIncludes buttonKeywords (Js.toLowerCase characters)); reflexivity.
Qed.

Lemma record_empty (f : Feature) :
  record f emptyFeatures =
  {| text := match f_type f with BUTTON => [] | _ => [f] end;
     buttons := match f_type f with BUTTON => [f] | _ => [] end;
     all := [f] |}.
Proof. destruct f as [n []]; reflexivity. Qed.

(** A TEXT leaf with a non-blank text yields exactly its one feature. *)
Lemma text_leaf_features (id nodeName characters : string) :
  Js.trim characters <> EmptyString ->
  extractFeatures (mkNode id nodeName "TEXT" characters []) =
  record (textFeature nodeName characters) emptyFeatures.
Proof.
  intros H. apply JsFacts.truthy_true in H.
  unfold extractFeatures; simpl. unfold visit; simpl. rewrite H.
  rewrite classifyTextElement_spec. reflexivity.
Qed.




End AnalyzerFacts.

(** ** The structural-group extractor *)

Module GroupFacts.

Import AnalyzerNode GroupSpec.

Lemma visit_groups (node : DesignNode) (features : Features) :
  groups (visit node features) =
  groups features ++ (if tracksGroup node then [groupOf node] else []).
Proof.
  unfold visit, tracksGroup.
  destruct (Js.arrayIncludes containerTypes (node_type node)); cbn [andb].
  - destruct ((1 <? List.length (node_children node))%nat
              || (node_type node =? "COMPONENT") || (node_type node =? "INSTANCE"));
      repeat match goal with |- context [if ?b then _ else _] => destruct b end;
      cbn [groups]; rewrite ?app_nil_r; reflexivity.
  - repeat match goal with |- context [if ?b then _ else _] => destruct b end;
      cbn [groups]; rewrite ?app_nil_r; reflexivity.
Qed.

Lemma fold_groups_extend (children : list DesignNode) :
  Forall (fun child => forall features, exists more,
              groups (extractFeaturesFrom child features) = groups features ++ more)
         children ->
  forall features, exists more,
    groups (fold_left (fun acc child => extractFeaturesFrom child acc) children features)
    = groups features ++ more.
Proof.
  induction 1 as [|child rest Hchild _ IH]; intros features; simpl.
  - exists []. now rewrite app_nil_r.
  - destruct (Hchild features) as [m1 E1].
    destruct (IH (extractFeaturesFrom child features)) as [m2 E2].
    exists (m1 ++ m2). rewrite E2, E1. now rewrite app_assoc.
Qed.

(** Extraction only ever appends to the list of groups. *)
Lemma extractFeaturesFrom_groups_extend (node : DesignNode) :
  forall features, exists more,
    groups (extractFeaturesFrom node features) = groups features ++ more.
Proof.
  induction node as [i n t c cs IH] using DesignNode_nested_ind. intros features.
  destruct (fold_groups_extend cs IH (visit (mkNode i n t c cs) features)) as [m E].
  exists ((if tracksGroup (mkNode i n t c cs) then [groupOf (mkNode i n t c cs)] else []) ++ m).
  cbn [extractFeaturesFrom]. rewrite E, visit_groups. now rewrite app_assoc.
Qed.

(** The group of a qualifying node is the first one of its extraction. *)
Lemma own_group_first (node : DesignNode) :
  tracksGroup node = true ->
  exists rest, groups (extractFeatures node) = groupOf node :: rest.
Proof.
  intros H. destruct node as [i n t c cs].
  destruct (fold_groups_extend cs
              (proj2 (Forall_forall _ cs)
                     (fun child _ => extractFeaturesFrom_groups_extend child))
              (visit (mkNode i n t c cs) emptyFeatures)) as [m E].
  exists m. unfold extractFeatures. cbn [extractFeaturesFrom].
  rewrite E, visit_groups, H. reflexivity.
Qed.

(** C10: the recipe of a tracked container counts its direct children of type
    TEXT, its direct children with a button-like name, and its direct
    children; the first two counts overlap, and for some inputs their sum
    exceeds the total. *)
Theorem recipe_counts_overlap :
  (forall node : DesignNode,
      In (node_type node) containerTypes ->
      (1 < List.length (node_children node)
       \/ node_type node = "COMPONENT" \/ node_type node = "INSTANCE") ->
      exists g rest,
        groups (extractFeatures node) = g :: rest
        /\ r_text (g_recipe g) =
           List.length (filter (fun c => node_type c =? "TEXT") (node_children node))
        /\ r_buttons (g_recipe g) =
           List.length
             (filter (fun c => Js.includes (Js.toLowerCase (node_name c)) "button"
                               || Js.includes (Js.toLowerCase (node_name c)) "btn"
                               || Js.includes (Js.toLowerCase (node_name c)) "cta")
                     (node_children node))
        /\ r_total (g_recipe g) = List.length (node_children node))
  /\ (exists node g,
         In g (groups (extractFeatures node))
         /\ r_total (g_recipe g) < r_text (g_recipe g) + r_buttons (g_recipe g)).
Proof.
  split.
  - intros node Hc Hq.
    assert (T : tracksGroup node = true).
    { unfold tracksGroup. apply andb_true_intro. split.
      - now apply JsFacts.arrayIncludes_In.
      - destruct Hq as [Hq | [Hq | Hq]].
        + apply Nat.ltb_lt in Hq. now rewrite Hq.
        + rewrite Hq. cbn [String.eqb Ascii.eqb Bool.eqb]. now rewrite orb_true_r.
        + rewrite Hq. cbn [String.eqb Ascii.eqb Bool.eqb]. now rewrite !orb_true_r. }
    destruct (own_group_first node T) as [rest E].
    exists (groupOf node), rest. repeat split; assumption || reflexivity.
  - exists (mkNode "1" "Login" "COMPONENT" "" [mkNode "2" "btn label" "TEXT" "Sign In" []]).
    exists (groupOf (mkNode "1" "Login" "COMPONENT" ""
                            [mkNode "2" "btn label" "TEXT" "Sign In" []])).
    split; [left; reflexivity | vm_compute; lia].
Qed.

Lemma recipe_counts_overlap_witness :
  exists g rest,
    groups (extractFeatures
              (mkNode "1" "Toolbar" "FRAME" ""
                 [mkNode "2" "Title" "TEXT" "Flights" [];
                  mkNode "3" "Search Button" "INSTANCE" "" []])) = g :: rest
    /\ r_text (g_recipe g) = 1 /\ r_buttons (g_recipe g) = 1 /\ r_total (g_recipe g) = 2.
Proof.
  destruct (proj1 recipe_counts_overlap
              (mkNode "1" "Toolbar" "FRAME" ""
                 [mkNode "2" "Title" "TEXT" "Flights" [];
                  mkNode "3" "Search Button" "INSTANCE" "" []])
              ltac:(cbn; tauto) ltac:(cbn; lia))
    as [g [rest [E [Ht [Hb Hn]]]]].
  exists g, rest. repeat split; assumption.
Defined.

(** C4, as the code has it: a FRAME named "Login Button" whose only direct
    child is a TEXT node with the characters "Sign In" yields no group at
    all, whatever the ids and the name of the child; were the container a
    COMPONENT or an INSTANCE, its one group would count the child as a text,
    and as a button only on the child's own name, with the signature T1B0 or
    T1B1. *)
Theorem login_button_single_child (id childId childName : string) :
  let child := mkNode childId childName "TEXT" "Sign In" [] in
  let b := if isButtonChild child then 1 else 0 in
  groups (extractFeatures (mkNode id "Login Button" "FRAME" "" [child])) = []
  /\ (forall g, In g (groups (extractFeatures (mkNode id "Login Button" "COMPONENT" "" [child])))
                     \/ In g (groups (extractFeatures
                                        (mkNode id "Login Button" "INSTANCE" "" [child]))) ->
                r_text (g_recipe g) = 1 /\ r_buttons (g_recipe g) = b
                /\ g_signature g = (if isButtonChild child then "T1B1" else "T1B0")
                /\ g_signature g <> "T0B1").
Proof.
  intros child b. split.
  - subst child. unfold extractFeatures. cbn [extractFeaturesFrom fold_left].
    rewrite !visit_groups. reflexivity.
  - assert (E : forall t, t = "COMPONENT" \/ t = "INSTANCE" ->
                  groups (extractFeatures (mkNode id "Login Button" t "" [child]))
                  = [groupOf (mkNode id "Login Button" t "" [child])]).
    { intros t Ht. subst child. unfold extractFeatures.
      cbn [extractFeaturesFrom fold_left].
      rewrite !visit_groups. destruct Ht as [-> | ->]; reflexivity. }
    intros g Hg.
    assert (G : exists t, g = groupOf (mkNode id "Login Button" t "" [child])).
    { destruct Hg as [Hg | Hg];
        [rewrite (E "COMPONENT") in Hg by tauto | rewrite (E "INSTANCE") in Hg by tauto];
        destruct Hg as [<- | []]; eexists; reflexivity. }
    destruct G as [t ->]. subst b.
    unfold groupOf. cbn -[isButtonChild signatureOf Js.ofNat].
    destruct (isButtonChild child); cbn; repeat split; discriminate.
Qed.

Lemma login_button_single_child_witness :
  r_text (g_recipe (GroupSpec.groupOf
                      (mkNode "1" "Login Button" "COMPONENT" ""
                              [mkNode "2" "Sign In" "TEXT" "Sign In" []]))) = 1.
Proof.
  apply (proj2 (login_button_single_child "1" "2" "Sign In")).
  left. cbn. left. reflexivity.
Defined.

(** C4, as stated, fails: the frame of the claim yields no group, so none
    with one button and the signature T0B1. *)
Lemma login_button_has_no_group :
  ~ exists g,
      In g (groups (extractFeatures
                      (mkNode "1" "Login Button" "FRAME" ""
                              [mkNode "2" "Sign In" "TEXT" "Sign In" []])))
      /\ r_buttons (g_recipe g) = 1 /\ g_signature g = "T0B1".
Proof. intros [g [[] _]]. Qed.

End GroupFacts.

(** ** Depth: the cap of the hierarchical extractor *)

Module DepthFacts.

Import Hierarchical Examples DepthSpec.

Lemma structure_shape (node : DesignNode) (depth maxDepth : nat) (s : Structure) :
  extractDetailedHierarchy node depth maxDepth = Some s ->
  depth <= maxDepth
  /\ s_depth s = depth
  /\ s_children s =
     Js.filterBoolean
       (map (fun child => extractDetailedHierarchy child (depth + 1) maxDepth)
            (node_children node)).
Proof.
  destruct node as [i n t c cs]. cbn [extractDetailedHierarchy node_children].
  destruct (maxDepth <? depth)%nat eqn:E; [discriminate|].
  apply Nat.ltb_ge in E. intros [= <-].
  repeat match goal with |- context [if ?b then _ else _] => destruct b end;
    cbn; auto.
Qed.

Lemma nodesOf_unfold (s : Structure) :
  nodesOf s = s :: flat_map nodesOf (s_children s).
Proof. destruct s; reflexivity. Qed.

Lemma Forall_flat_map_filterBoolean {A} (f : A -> option Structure)
    (Q : Structure -> Prop) (l : list A) :
  Forall (fun a => forall s, f a = Some s -> Forall Q (nodesOf s)) l ->
  Forall Q (flat_map nodesOf (Js.filterBoolean (map f l))).
Proof.
  induction 1 as [|a r Ha _ IH]; simpl; [constructor|].
  destruct (f a) as [s|] eqn:E; simpl; [|assumption].
  apply Forall_app. split; [now apply Ha | assumption].
Qed.

(** Every node of an extracted structure lies between the starting depth and
    the cap. *)
Lemma depth_bounded (node : DesignNode) :
  forall depth maxDepth s,
    extractDetailedHierarchy node depth maxDepth = Some s ->
    Forall (fun x => depth <= s_depth x <= maxDepth) (nodesOf s).
Proof.
  induction node as [i n t c cs IH] using DesignNode_nested_ind.
  intros depth maxDepth s E.
  destruct (structure_shape _ _ _ _ E) as [Hle [Hd Hc]].
  rewrite nodesOf_unfold. constructor; [lia|].
  rewrite Hc. cbn [node_children].
  apply Forall_flat_map_filterBoolean.
  eapply Forall_impl; [|exact IH].
  intros child Hchild s' E'. specialize (Hchild _ _ _ E').
  eapply Forall_impl; [|exact Hchild]. cbn. intros x Hx. lia.
Qed.

Lemma root_is_extracted (node : DesignNode) (maxDepth : nat) :
  exists s, extractDetailedHierarchy node 0 maxDepth = Some s.
Proof.
  destruct node as [i n t c cs]. cbn [extractDetailedHierarchy].
  replace (maxDepth <? 0)%nat with false by (symmetry; apply Nat.ltb_ge; lia).
  eexists. reflexivity.
Qed.

(** A leaf under a chain that ends beyond the cap leaves no text in the
    inventory of the structure. *)
Lemma chain_beyond_cap (leaf : DesignNode) (maxDepth : nat) :
  forall n depth, maxDepth < depth + n ->
    match extractDetailedHierarchy (chain n leaf) depth maxDepth with
    | Some s => forall path inventory,
        texts (inventoryTraverse s path inventory) = texts inventory
    | None => True
    end.
Proof.
  induction n as [|k IH]; intros depth H.
  - cbn [chain]. destruct leaf as [i n t c cs]. cbn [extractDetailedHierarchy].
    replace (maxDepth <? depth)%nat with true by (symmetry; apply Nat.ltb_lt; lia).
    exact I.
  - cbn [chain extractDetailedHierarchy map].
    destruct (maxDepth <? depth)%nat; [exact I|].
    specialize (IH (depth + 1) ltac:(lia)).
    destruct (extractDetailedHierarchy (chain k leaf) (depth + 1) maxDepth) as [s'|];
      intros path inventory; cbn; [rewrite IH|]; reflexivity.
Qed.

Lemma flat_chain (leaf : DesignNode) (n : nat) (features : Analyzer.Features) :
  Analyzer.traverse (chain n leaf) features = Analyzer.traverse leaf features.
Proof. induction n as [|k IH]; [reflexivity | cbn; exact IH]. Qed.

Lemma group_chain (leaf : DesignNode) (n : nat) (features : AnalyzerNode.Features) :
  AnalyzerNode.extractFeaturesFrom (chain n leaf) features
  = AnalyzerNode.extractFeaturesFrom leaf features.
Proof.
  induction n as [|k IH]; [reflexivity|].
  cbn [chain AnalyzerNode.extractFeaturesFrom fold_left].
  replace (AnalyzerNode.visit (mkNode "" "" "FRAME" "" [chain k leaf]) features)
    with features by reflexivity.
  exact IH.
Qed.

(** *** The call stack *)

Lemma fold_thrown {F} (within : DesignNode -> F -> option F) (children : list DesignNode) :
  fold_left (fun acc child => match acc with
                              | Some features => within child features
                              | None => None
                              end) children None = None.
Proof. induction children as [|c cs IH]; [reflexivity | exact IH]. Qed.

(** A loop over the children whose calls need as many nested calls as the
    child has levels needs as many as the tallest child. *)
Lemma fold_within {F} (within : DesignNode -> F -> option F)
    (total : DesignNode -> F -> F) (stack : nat) :
  (forall child features,
      within child features
      = if (levels child <=? stack)%nat then Some (total child features) else None) ->
  forall children features,
    fold_left (fun acc child => match acc with
                                | Some features => within child features
                                | None => None
                                end) children (Some features)
    = if (fold_right Nat.max 0 (map levels children) <=? stack)%nat
      then Some (fold_left (fun acc child => total child acc) children features)
      else None.
Proof.
  intros Hwithin. induction children as [|c cs IH]; intros features;
    cbn [fold_left map fold_right]; [reflexivity|].
  rewrite Hwithin.
  destruct (levels c <=? stack)%nat eqn:Ec.
  - rewrite IH. apply Nat.leb_le in Ec.
    destruct (fold_right Nat.max 0 (map levels cs) <=? stack)%nat eqn:Ecs.
    + apply Nat.leb_le in Ecs.
      replace (Nat.max (levels c) (fold_right Nat.max 0 (map levels cs)) <=? stack)%nat
        with true by (symmetry; apply Nat.leb_le; lia).
      reflexivity.
    + apply Nat.leb_gt in Ecs.
      replace (Nat.max (levels c) (fold_right Nat.max 0 (map levels cs)) <=? stack)%nat
        with false by (symmetry; apply Nat.leb_gt; lia).
      reflexivity.
  - rewrite fold_thrown. apply Nat.leb_gt in Ec.
    replace (Nat.max (levels c) (fold_right Nat.max 0 (map levels cs)) <=? stack)%nat
      with false by (symmetry; apply Nat.leb_gt; lia).
    reflexivity.
Qed.

Lemma levels_unfold (node : DesignNode) :
  levels node = S (fold_right Nat.max 0 (map levels (node_children node))).
Proof. destruct node; reflexivity. Qed.

(** The flat extractor nests one call for each level of the tree. *)
Lemma traverse_within (stack : nat) :
  forall node features,
    CallStack.traverse stack node features
    = if (levels node <=? stack)%nat then Some (Analyzer.traverse node features) else None.
Proof.
  induction stack as [|stack IH]; intros [i n t c cs] features.
  - reflexivity.
  - cbn [CallStack.traverse Analyzer.traverse].
    rewrite (fold_within (CallStack.traverse stack)
                         (fun child acc => Analyzer.traverse child acc) stack IH).
    reflexivity.
Qed.

(** So does the structural-group extractor. *)
Lemma extractFeatures_within (stack : nat) :
  forall node features,
    CallStack.extractFeatures stack node features
    = if (levels node <=? stack)%nat
      then Some (AnalyzerNode.extractFeaturesFrom node features) else None.
Proof.
  induction stack as [|stack IH]; intros [i n t c cs] features.
  - reflexivity.
  - cbn [CallStack.extractFeatures AnalyzerNode.extractFeaturesFrom node_children].
    rewrite (fold_within (CallStack.extractFeatures stack)
                         (fun child acc => AnalyzerNode.extractFeaturesFrom child acc)
                         stack IH).
    reflexivity.
Qed.

Lemma levels_chain (leaf : DesignNode) (n : nat) :
  levels (chain n leaf) = n + levels leaf.
Proof.
  induction n as [|k IH]; [reflexivity|].
  cbn [chain levels map fold_right]. rewrite IH. lia.
Qed.

Lemma hierarchy_unfold (node : DesignNode) (depth maxDepth : nat) :
  extractDetailedHierarchy node depth maxDepth
  = if (maxDepth <? depth)%nat then None
    else Some (CallStack.structureOf node depth
                 (Js.filterBoolean
                    (map (fun child => extractDetailedHierarchy child (depth + 1) maxDepth)
                         (node_children node)))).
Proof.
  destruct node as [i n t c cs].
  cbn [extractDetailedHierarchy CallStack.structureOf node_type node_name node_id
       node_characters node_children].
  reflexivity.
Qed.

Lemma mapCalls_returned {A B} (f : A -> option B) (g : A -> B) (l : list A) :
  Forall (fun x => f x = Some (g x)) l -> CallStack.mapCalls f l = Some (map g l).
Proof.
  induction 1 as [|x r Hx _ IH]; cbn [CallStack.mapCalls map]; [reflexivity|].
  now rewrite Hx, IH.
Qed.

(** The hierarchical extractor nests no call below the level that follows
    the cap, however deep the tree. *)
Lemma hierarchy_within (node : DesignNode) :
  forall depth maxDepth stack,
    1 <= stack -> maxDepth + 2 <= stack + depth ->
    CallStack.extractDetailedHierarchy stack node depth maxDepth
    = Some (extractDetailedHierarchy node depth maxDepth).
Proof.
  induction node as [i n t c cs IH] using DesignNode_nested_ind.
  intros depth maxDepth [|stack] H1 H2; [lia|].
  cbn [CallStack.extractDetailedHierarchy]. rewrite hierarchy_unfold.
  destruct (maxDepth <? depth)%nat eqn:E; [reflexivity|].
  apply Nat.ltb_ge in E. cbn [node_children].
  rewrite (mapCalls_returned _
             (fun child => extractDetailedHierarchy child (depth + 1) maxDepth)).
  - reflexivity.
  - eapply Forall_impl; [|exact IH]. cbn beta. intros child Hchild.
    apply Hchild; lia.
Qed.

(** *** The cap *)

Lemma beyond_cap (node : DesignNode) (depth maxDepth : nat) :
  maxDepth < depth -> extractDetailedHierarchy node depth maxDepth = None.
Proof.
  intros H. rewrite hierarchy_unfold.
  replace (maxDepth <? depth)%nat with true by (symmetry; apply Nat.ltb_lt; lia).
  reflexivity.
Qed.

Lemma structure_id (node : DesignNode) (depth maxDepth : nat) (s : Structure) :
  extractDetailedHierarchy node depth maxDepth = Some s -> s_id s = node_id node.
Proof.
  rewrite hierarchy_unfold. destruct (maxDepth <? depth)%nat; [discriminate|].
  intros [= <-]. unfold CallStack.structureOf.
  repeat match goal with |- context [if ?b then _ else _] => destruct b end; reflexivity.
Qed.

(** The structure keeps the nodes down to the cap, and no other. *)
Lemma kept_down_to_cap (node : DesignNode) :
  forall depth maxDepth s,
    extractDetailedHierarchy node depth maxDepth = Some s ->
    map s_id (nodesOf s) = map node_id (nodesUpTo (maxDepth - depth) node).
Proof.
  induction node as [i n t c cs IH] using DesignNode_nested_ind.
  intros depth maxDepth s E.
  destruct (structure_shape _ _ _ _ E) as [Hle [_ Hc]].
  rewrite nodesOf_unfold, Hc. cbn [map node_children].
  rewrite (structure_id _ _ _ _ E).
  destruct (maxDepth - depth) as [|k] eqn:K; cbn [nodesUpTo node_children map]; f_equal.
  - assert (maxDepth < depth + 1) as Hb by lia. clear - Hb.
    induction cs as [|x r IHr]; cbn [map Js.filterBoolean flat_map]; [reflexivity|].
    rewrite (beyond_cap x (depth + 1) maxDepth Hb). exact IHr.
  - assert (Hk : k = maxDepth - (depth + 1)) by lia.
    assert (Hin : depth + 1 <= maxDepth) by lia. clear K Hc E.
    induction IH as [|x r Hx _ IHr]; cbn [map Js.filterBoolean flat_map]; [reflexivity|].
    destruct (extractDetailedHierarchy x (depth + 1) maxDepth) as [s'|] eqn:Ex.
    + cbn [flat_map]. rewrite !map_app, IHr, (Hx _ _ _ Ex), <- Hk. reflexivity.
    + exfalso. rewrite hierarchy_unfold in Ex.
      replace (maxDepth <? depth + 1)%nat with false in Ex
        by (symmetry; apply Nat.ltb_ge; lia).
      discriminate.
Qed.

(** C7, as the code has it.  The hierarchical extractor alone has a depth
    cap, which is 15: whatever the tree, it returns with 17 nested calls at
    most, and its structure keeps the nodes that lie 15 levels at most below
    the root, in document order, and no other; so a leaf under a chain of
    single-child levels is in the inventory when the chain has 15 levels at
    most and leaves no trace under 16 levels or more.  The flat extractor and
    the structural-group extractor have no cap: they nest one call for each
    level of the tree, return what they find at every depth when the stack
    admits as many nested calls as the tree has levels, and throw when it
    does not; on a chain of [n] levels above a TEXT leaf they record the leaf
    when the stack admits [n + 1] calls and throw otherwise. *)
Theorem depth_cap_is_hierarchical_only :
  (forall node stack, 17 <= stack ->
      exists s,
        CallStack.extractDetailedHierarchy stack node 0 15 = Some (Some s)
        /\ extractDetailedHierarchy node 0 15 = Some s
        /\ map s_id (nodesOf s) = map node_id (nodesUpTo 15 node)
        /\ Forall (fun x => s_depth x <= 15) (nodesOf s))
  /\ (forall n, exists s,
         extractDetailedHierarchy (chain n deepText) 0 15 = Some s
         /\ List.length (texts (createComponentInventory s))
            = if (n <=? 15)%nat then 1 else 0)
  /\ (forall stack node features,
         CallStack.traverse stack node features
         = if (levels node <=? stack)%nat
           then Some (Analyzer.traverse node features) else None)
  /\ (forall stack node features,
         CallStack.extractFeatures stack node features
         = if (levels node <=? stack)%nat
           then Some (AnalyzerNode.extractFeaturesFrom node features) else None)
  /\ (forall n stack,
         CallStack.traverse stack (chain n deepText) Analyzer.emptyFeatures
         = if (n <? stack)%nat then Some deepFlat else None)
  /\ (forall n stack,
         CallStack.extractFeatures stack (chain n deepText) AnalyzerNode.emptyFeatures
         = if (n <? stack)%nat then Some deepGroups else None).
Proof.
  split; [|split; [|split; [|split; [|split]]]].
  - intros node stack Hstack. destruct (root_is_extracted node 15) as [s E].
    exists s. split; [|split; [exact E|split]].
    + rewrite (hierarchy_within node 0 15 stack) by lia. now rewrite E.
    + exact (kept_down_to_cap node 0 15 s E).
    + eapply Forall_impl; [|exact (depth_bounded node 0 15 s E)].
      cbn. intros x Hx. lia.
  - intros n. destruct (n <=? 15)%nat eqn:En.
    + apply Nat.leb_le in En.
      do 16 (destruct n as [|n]; [eexists; split; reflexivity|]). lia.
    + apply Nat.leb_gt in En.
      destruct (root_is_extracted (chain n deepText) 15) as [s E].
      exists s. split; [exact E|].
      pose proof (chain_beyond_cap deepText 15 n 0 ltac:(lia)) as H.
      rewrite E in H. unfold createComponentInventory. rewrite H. reflexivity.
  - intros stack. exact (traverse_within stack).
  - intros stack. exact (extractFeatures_within stack).
  - intros n stack. rewrite traverse_within, levels_chain, flat_chain.
    cbn [levels deepText map fold_right].
    replace (n + 1 <=? stack)%nat with (n <? stack)%nat
      by (unfold Nat.ltb; f_equal; lia).
    reflexivity.
  - intros n stack. rewrite extractFeatures_within, levels_chain, group_chain.
    cbn [levels deepText map fold_right].
    replace (n + 1 <=? stack)%nat with (n <? stack)%nat
      by (unfold Nat.ltb; f_equal; lia).
    reflexivity.
Qed.

(** C7, as stated, fails for the flat and the structural-group extraction: a
    TEXT leaf under 16 single-child levels, beyond the cap of 15, is in both
    results. *)
Lemma deep_leaf_is_not_omitted :
  In {| Analyzer.f_name := "Deep"; Analyzer.f_type := Analyzer.TEXT |}
     (Analyzer.all (Analyzer.extractFeatures (chain 16 deepText)))
  /\ In {| AnalyzerNode.t_name := "Deep label"; AnalyzerNode.t_text := "Deep";
           AnalyzerNode.t_id := "9:9" |}
        (AnalyzerNode.text (AnalyzerNode.extractFeatures (chain 16 deepText))).
Proof. split; left; reflexivity. Qed.

(** ** Blank TEXT nodes *)

(** C8, as the code has it: a TEXT node without children whose characters are
    empty or blank yields nothing in the flat extraction and nothing in the
    structural-group extraction, and no card when it is the root of the
    hierarchical extraction; the component inventory of its structure,
    however, holds one text entry for it. *)
Theorem blank_text_node (id name characters : string) :
  Js.trim characters = EmptyString ->
  let node := mkNode id name "TEXT" characters [] in
  Analyzer.extractFeatures node = Analyzer.emptyFeatures
  /\ AnalyzerNode.extractFeatures node = AnalyzerNode.emptyFeatures
  /\ cards (extractHierarchicalFeatures node) = []
  /\ (exists s, extractDetailedHierarchy node 0 15 = Some s
                /\ List.length (texts (createComponentInventory s)) = 1).
Proof.
  intros H node. subst node. split; [|split; [|split]].
  - unfold Analyzer.extractFeatures. cbn -[Js.trim].
    unfold Analyzer.visit. cbn -[Js.trim]. now rewrite H.
  - unfold AnalyzerNode.extractFeatures. cbn [AnalyzerNode.extractFeaturesFrom fold_left].
    unfold AnalyzerNode.visit. cbn -[Js.trim]. rewrite H. cbn.
    now rewrite !andb_false_r.
  - reflexivity.
  - eexists. split; reflexivity.
Qed.

Lemma blank_text_node_witness :
  Analyzer.extractFeatures (mkNode "1:2" "lbl1" "TEXT" "" []) = Analyzer.emptyFeatures.
Proof.
  exact (proj1 (blank_text_node "1:2" "lbl1" "" eq_refl)).
Defined.

(** C8, as stated, fails in the hierarchical mode: the inventory of the node
    of the claim has a text entry, and a frame of two blank TEXT nodes becomes
    a card that counts two texts. *)
Lemma blank_text_is_inventoried :
  (exists s, extractDetailedHierarchy (mkNode "1:2" "lbl1" "TEXT" "" []) 0 15 = Some s
             /\ texts (createComponentInventory s)
                = [ {| te_name := "lbl1"; te_path := "lbl1"; te_content := Some "" |} ])
  /\ map (fun c => ci_texts (card_inventory c))
         (cards (extractHierarchicalFeatures
                   (mkNode "1:1" "card" "FRAME" ""
                      [mkNode "1:2" "lbl1" "TEXT" "" [];
                       mkNode "1:3" "lbl2" "TEXT" " " []]))) = [2].
Proof. split; [eexists; split; reflexivity | reflexivity]. Qed.

End DepthFacts.

(** ** The reconciler *)

Module ReconcilerFacts.

Import AnalyzerNode ReconcilerSpec Examples.

(** *** Insertion-ordered sets *)

Lemma existsb_eqb_In (x : string) (s : list string) :
  existsb (String.eqb x) s = true <-> In x s.
Proof. exact (JsFacts.arrayIncludes_In s x). Qed.

Lemma setAdd_NoDup (x : string) (s : list string) :
  NoDup s -> NoDup (Js.setAdd String.eqb x s).
Proof.
  intros H. unfold Js.setAdd. destruct (existsb (String.eqb x) s) eqn:E; [assumption|].
  apply NoDup_app; [assumption | repeat constructor; intros [] | ].
  intros y Hy [<- | []].
  apply existsb_eqb_In in Hy. congruence.
Qed.

Lemma setAdd_In (x y : string) (s : list string) :
  In y (Js.setAdd String.eqb x s) <-> y = x \/ In y s.
Proof.
  unfold Js.setAdd. destruct (existsb (String.eqb x) s) eqn:E.
  - apply existsb_eqb_In in E. split; [auto | intros [-> | H]; assumption].
  - rewrite in_app_iff. cbn. intuition.
Qed.

Lemma fold_setAdd_NoDup (l s : list string) :
  NoDup s -> NoDup (fold_left (fun s x => Js.setAdd String.eqb x s) l s).
Proof. revert s. induction l as [|x l IH]; intros s H; cbn; auto using setAdd_NoDup. Qed.

Lemma fold_setAdd_In (y : string) (l s : list string) :
  In y (fold_left (fun s x => Js.setAdd String.eqb x s) l s) <-> In y l \/ In y s.
Proof.
  revert s. induction l as [|x l IH]; intros s; cbn; [tauto|].
  rewrite IH, setAdd_In. intuition.
Qed.

Lemma setOfList_NoDup (l : list string) : NoDup (Js.setOfList l).
Proof. apply fold_setAdd_NoDup. constructor. Qed.

Lemma setOfList_In (y : string) (l : list string) : In y (Js.setOfList l) <-> In y l.
Proof. unfold Js.setOfList. rewrite fold_setAdd_In. cbn. tauto. Qed.

(** The list of distinct identities has no duplicate and holds exactly the
    identities of the groups of the three lists. *)
Lemma distinctIdentities_spec (a i w : list Group) :
  NoDup (distinctIdentities a i w)
  /\ (forall k, In k (distinctIdentities a i w)
                <-> exists g, In g (a ++ i ++ w) /\ getIdentity g = k).
Proof.
  split; [apply setOfList_NoDup|].
  intros k. unfold distinctIdentities. rewrite setOfList_In, in_map_iff.
  split; intros [g [H1 H2]]; exists g; auto.
Qed.

(** *** The identity map *)

Lemma has_keys (id : string) (identities : Identities) :
  has id identities = existsb (String.eqb id) (map fst identities).
Proof.
  unfold has. induction identities as [|[k d] r IH]; cbn; [reflexivity|].
  now rewrite IH, (String.eqb_sym k id).
Qed.

Lemma bump_keys (p : Platform) (id : string) (identities : Identities) :
  map fst (bump p id identities) = map fst identities.
Proof.
  induction identities as [|[k d] r IH]; cbn; [reflexivity|].
  destruct (k =? id); cbn; [reflexivity | now rewrite IH].
Qed.

Lemma trackIdentity_keys (p : Platform) (identities : Identities) (g : Group) :
  map fst (trackIdentity p identities g)
  = Js.setAdd String.eqb (getIdentity g) (map fst identities).
Proof.
  unfold trackIdentity, Js.setAdd. rewrite bump_keys, <- has_keys.
  destruct (has (getIdentity g) identities); [reflexivity|].
  now rewrite map_app.
Qed.

Lemma get_app (k : string) (xs ys : Identities) :
  get k (xs ++ ys) = if has k xs then get k xs else get k ys.
Proof.
  unfold get, has. induction xs as [|[k' d] r IH]; cbn; [reflexivity|].
  destruct (k' =? k); cbn; [reflexivity | exact IH].
Qed.

Lemma get_bump (p : Platform) (id k : string) (identities : Identities) :
  get k (bump p id identities)
  = if k =? id then
      option_map (fun d => {| i_name := i_name d; i_signature := i_signature d;
                              i_recipe := i_recipe d;
                              i_counts := increment p (i_counts d) |})
                 (get k identities)
    else get k identities.
Proof.
  unfold get. induction identities as [|[k' d] r IH]; cbn.
  - now destruct (k =? id).
  - destruct (k' =? id) eqn:E1; cbn.
    + apply String.eqb_eq in E1. subst k'.
      rewrite (String.eqb_sym k id). destruct (id =? k) eqn:E2; reflexivity.
    + destruct (k' =? k) eqn:E2; cbn.
      * apply String.eqb_eq in E2. subst k'. now rewrite E1.
      * exact IH.
Qed.

Lemma get_none (k : string) (identities : Identities) :
  has k identities = false -> get k identities = None.
Proof.
  unfold has, get. induction identities as [|[k' d] r IH]; cbn; [reflexivity|].
  destruct (k' =? k); cbn; [discriminate | exact IH].
Qed.

Lemma get_some (k : string) (identities : Identities) :
  has k identities = true -> exists d, get k identities = Some d.
Proof.
  unfold has, get. induction identities as [|[k' d] r IH]; cbn; [discriminate|].
  destruct (k' =? k); cbn; [intros _; now exists d | exact IH].
Qed.

Lemma countOf_increment (p q : Platform) (c : Counts) :
  countOf q (increment p c) = countOf q c + (if Platform_eqb p q then 1 else 0).
Proof. destruct p, q; cbn; lia. Qed.

(** Tracking one group adds one to the count of its identity on its
    platform, and changes no other count. *)
Lemma trackIdentity_count (p q : Platform) (k : string) (identities : Identities) (g : Group) :
  countAt q k (trackIdentity p identities g)
  = countAt q k identities
    + (if Platform_eqb p q && (getIdentity g =? k) then 1 else 0).
Proof.
  unfold countAt, trackIdentity. rewrite get_bump.
  rewrite (String.eqb_sym k (getIdentity g)).
  destruct (getIdentity g =? k) eqn:E.
  - apply String.eqb_eq in E. subst k. rewrite andb_true_r.
    destruct (has (getIdentity g) identities) eqn:H.
    + destruct (get_some _ _ H) as [d ->]. cbn. now rewrite countOf_increment.
    + rewrite get_app, H. unfold get. cbn [find fst snd].
      rewrite String.eqb_refl. cbn [option_map snd i_counts].
      fold (get (getIdentity g) identities). rewrite (get_none _ _ H).
      destruct p, q; reflexivity.
  - rewrite andb_false_r, Nat.add_0_r.
    destruct (has (getIdentity g) identities) eqn:H; [reflexivity|].
    rewrite get_app. destruct (has k identities) eqn:H'; [reflexivity|].
    rewrite (get_none _ _ H'). unfold get. cbn [find fst snd]. rewrite E. reflexivity.
Qed.

Lemma occurrences_cons (k : string) (g : Group) (gs : list Group) :
  occurrences k (g :: gs) = (if getIdentity g =? k then 1 else 0) + occurrences k gs.
Proof. unfold occurrences. cbn [filter]. now destruct (getIdentity g =? k). Qed.

Lemma track_fold_keys (p : Platform) (gs : list Group) (identities : Identities) :
  map fst (fold_left (trackIdentity p) gs identities)
  = fold_left (fun s x => Js.setAdd String.eqb x s) (map getIdentity gs) (map fst identities).
Proof.
  revert identities. induction gs as [|g gs IH]; intros identities; cbn [fold_left map].
  - reflexivity.
  - now rewrite IH, trackIdentity_keys.
Qed.

Lemma track_fold_count (p q : Platform) (k : string) (gs : list Group)
    (identities : Identities) :
  countAt q k (fold_left (trackIdentity p) gs identities)
  = countAt q k identities + (if Platform_eqb p q then occurrences k gs else 0).
Proof.
  revert identities. induction gs as [|g gs IH]; intros identities; cbn [fold_left].
  - unfold occurrences. cbn. destruct (Platform_eqb p q); lia.
  - rewrite IH, trackIdentity_count, occurrences_cons.
    destruct (Platform_eqb p q); cbn [andb]; lia.
Qed.

(** The keys of the identity map are the distinct identities of the input. *)
Lemma buildIdentities_keys (a i w : list Group) :
  map fst (buildIdentities a i w) = distinctIdentities a i w.
Proof.
  unfold buildIdentities, distinctIdentities, Js.setOfList.
  rewrite !track_fold_keys, !map_app, !fold_left_app. reflexivity.
Qed.

(** Its counts are the occurrences of each identity in each list. *)
Lemma buildIdentities_counts (a i w : list Group) (k : string) :
  countAt Android k (buildIdentities a i w) = occurrences k a
  /\ countAt iOS k (buildIdentities a i w) = occurrences k i
  /\ countAt Web k (buildIdentities a i w) = occurrences k w.
Proof.
  unfold buildIdentities. rewrite !track_fold_count. cbn. repeat split; lia.
Qed.

Lemma get_of_entry (identities : Identities) :
  NoDup (map fst identities) ->
  forall e, In e identities -> get (fst e) identities = Some (snd e).
Proof.
  unfold get. induction identities as [|[k d] r IH]; intros ND e Hin; [destruct Hin|].
  cbn in ND. apply NoDup_cons_iff in ND as [Hk ND]. cbn [find fst].
  destruct Hin as [<- | Hin]; cbn [fst snd].
  - now rewrite String.eqb_refl.
  - destruct (k =? fst e) eqn:E.
    + apply String.eqb_eq in E. subst k. exfalso. apply Hk. now apply in_map.
    + now apply IH.
Qed.

(** *** The loop over the identities *)

(** An identity record carries no semantic keywords, so the search for
    equivalents returns at once. *)
Lemma findSemanticEquivalents_of_identity (d : IdentityData) (a i w : list Group) :
  findSemanticEquivalents (targetOfIdentity d) a i w = [].
Proof. reflexivity. Qed.

Lemma compareIdentity_total (a i w : list Group) (r : Results) (d : IdentityData) :
  consistent (compareIdentity a i w r d) + inconsistent (compareIdentity a i w r d)
  = consistent r + inconsistent r + peakOfData d.
Proof.
  unfold compareIdentity, peakOfData.
  match goal with |- context [if ?c then pushMapping _ _ else _] => destruct c eqn:E end.
  - apply andb_prop in E as [_ E]. apply andb_prop in E as [E1 E2].
    apply Nat.eqb_eq in E1, E2. cbn. unfold max3.
    rewrite E1, E2, !Nat.max_id. lia.
  - repeat match goal with |- context [if ?c then (_, _) else _] => destruct c end;
      cbn; unfold max3; lia.
Qed.

Lemma fold_compare_total (a i w : list Group) (ds : list IdentityData) (r : Results) :
  consistent (fold_left (compareIdentity a i w) ds r)
  + inconsistent (fold_left (compareIdentity a i w) ds r)
  = consistent r + inconsistent r + list_sum (map peakOfData ds).
Proof.
  revert r. induction ds as [|d ds IH]; intros r; cbn [fold_left map].
  - cbn. lia.
  - rewrite IH, compareIdentity_total.
    change (list_sum (peakOfData d :: map peakOfData ds))
      with (peakOfData d + list_sum (map peakOfData ds)).
    lia.
Qed.

Lemma compareIdentity_not_rescued (a i w : list Group) (r : Results) (d : IdentityData) :
  Forall notRescued (mapping_text r) ->
  Forall notRescued (mapping_text (compareIdentity a i w r d)).
Proof.
  intros H. unfold compareIdentity.
  match goal with |- context [if ?c then pushMapping _ _ else _] => destruct c end.
  - cbn. apply Forall_app. split; [assumption | repeat constructor].
  - rewrite findSemanticEquivalents_of_identity. cbn [List.length Nat.ltb Nat.leb].
    repeat match goal with |- context [if ?c then (_, _) else _] => destruct c end;
      cbn; apply Forall_app; (split; [assumption | repeat constructor]).
Qed.

Lemma peak_of_entry (a i w : list Group) (e : string * IdentityData) :
  In e (buildIdentities a i w) -> peakOfData (snd e) = peak a i w (fst e).
Proof.
  intros Hin.
  assert (ND : NoDup (map fst (buildIdentities a i w))).
  { rewrite buildIdentities_keys. apply setOfList_NoDup. }
  pose proof (get_of_entry _ ND e Hin) as G.
  destruct (buildIdentities_counts a i w (fst e)) as [HA [HI HW]].
  unfold countAt in HA, HI, HW. rewrite G in HA, HI, HW. cbn in HA, HI, HW.
  unfold peakOfData, peak. now rewrite HA, HI, HW.
Qed.

Lemma sum_of_peaks (a i w : list Group) :
  list_sum (map peakOfData (map snd (buildIdentities a i w)))
  = list_sum (map (peak a i w) (distinctIdentities a i w)).
Proof.
  rewrite <- buildIdentities_keys, !map_map. f_equal.
  apply map_ext_in. intros e He. now apply peak_of_entry.
Qed.

Lemma occurrences_absent (k : string) (gs : list Group) :
  ~ In k (map getIdentity gs) -> occurrences k gs = 0.
Proof.
  induction gs as [|g gs IH]; intros H; [reflexivity|].
  rewrite occurrences_cons. cbn in H.
  destruct (getIdentity g =? k) eqn:E.
  - apply String.eqb_eq in E. tauto.
  - rewrite IH by tauto. reflexivity.
Qed.

Lemma occurrences_present (k : string) (gs : list Group) :
  In k (map getIdentity gs) -> 1 <= occurrences k gs.
Proof.
  induction gs as [|g gs IH]; intros H; [destruct H|].
  rewrite occurrences_cons. destruct H as [H | H].
  - rewrite H, String.eqb_refl. lia.
  - specialize (IH H). lia.
Qed.

Lemma occurrences_NoDup (k : string) (gs : list Group) :
  NoDup (map getIdentity gs) -> occurrences k gs <= 1.
Proof.
  induction gs as [|g gs IH]; intros ND; [cbn; lia|].
  cbn in ND. apply NoDup_cons_iff in ND as [Hg ND].
  rewrite occurrences_cons. destruct (getIdentity g =? k) eqn:E.
  - apply String.eqb_eq in E. subst k. rewrite (occurrences_absent _ _ Hg). lia.
  - specialize (IH ND). lia.
Qed.

Lemma list_sum_ones {A} (f : A -> nat) (l : list A) :
  (forall x, In x l -> f x = 1) -> list_sum (map f l) = List.length l.
Proof.
  induction l as [|x l IH]; intros H; [reflexivity|].
  change (list_sum (map f (x :: l))) with (f x + list_sum (map f l)).
  rewrite (H x (or_introl eq_refl)), IH; [reflexivity|].
  intros y Hy. apply H. now right.
Qed.

(** C1, as the code has it: the two totals count instances, not identities.
    Their sum is the sum, over the distinct identities of the three lists, of
    the largest of the three occurrence counts of the identity; it is the
    number of distinct identities when no list holds an identity twice. *)
Theorem reconciler_totals (androidFeatures iosFeatures webFeatures : Features) :
  let a := groups androidFeatures in
  let i := groups iosFeatures in
  let w := groups webFeatures in
  let r := compareFeatures androidFeatures iosFeatures webFeatures in
  consistent r + inconsistent r = list_sum (map (peak a i w) (distinctIdentities a i w))
  /\ (NoDup (map getIdentity a) -> NoDup (map getIdentity i) -> NoDup (map getIdentity w) ->
      consistent r + inconsistent r = List.length (distinctIdentities a i w)).
Proof.
  intros a i w r.
  assert (T : consistent r + inconsistent r
              = list_sum (map (peak a i w) (distinctIdentities a i w))).
  { subst r. unfold compareFeatures. rewrite fold_compare_total. cbn [consistent inconsistent].
    fold a i w. now rewrite sum_of_peaks. }
  split; [exact T|].
  intros Ha Hi Hw. rewrite T. apply list_sum_ones.
  intros k Hk. unfold distinctIdentities in Hk.
  apply (proj1 (setOfList_In _ _)) in Hk. rewrite !map_app, !in_app_iff in Hk.
  pose proof (occurrences_NoDup k a Ha). pose proof (occurrences_NoDup k i Hi).
  pose proof (occurrences_NoDup k w Hw).
  unfold peak, max3.
  destruct Hk as [Hk | [Hk | Hk]]; apply occurrences_present in Hk; lia.
Qed.

Lemma reconciler_totals_witness :
  let r := compareFeatures (extractFeatures (mkNode "1" "Bar" "INSTANCE" "" []))
                           (extractFeatures (mkNode "2" "Bar" "INSTANCE" "" []))
                           (extractFeatures (mkNode "3" "Tab" "INSTANCE" "" [])) in
  consistent r + inconsistent r = 2.
Proof.
  refine (proj2 (reconciler_totals
                   (extractFeatures (mkNode "1" "Bar" "INSTANCE" "" []))
                   (extractFeatures (mkNode "2" "Bar" "INSTANCE" "" []))
                   (extractFeatures (mkNode "3" "Tab" "INSTANCE" "" []))) _ _ _);
    cbn; repeat constructor; cbn; intuition discriminate.
Defined.

(** C1, as stated, fails when an identity occurs twice on a platform: the
    same screen on all three platforms has two distinct identities, and the
    totals add up to three. *)
Lemma totals_count_instances :
  let f := extractFeatures twoCards in
  let r := compareFeatures f f f in
  consistent r + inconsistent r = 3
  /\ List.length (distinctIdentities (groups f) (groups f) (groups f)) = 2.
Proof. split; reflexivity. Qed.

(** The entries of the result never report an alternative implementation. *)
Lemma rescue_never_fires (androidFeatures iosFeatures webFeatures : Features) :
  Forall notRescued (mapping_text (compareFeatures androidFeatures iosFeatures webFeatures)).
Proof.
  unfold compareFeatures.
  generalize (map snd (buildIdentities (groups androidFeatures) (groups iosFeatures)
                                       (groups webFeatures))).
  intros ds.
  match goal with |- Forall _ (mapping_text (fold_left _ _ ?r0)) =>
    assert (H0 : Forall notRescued (mapping_text r0)) by constructor;
    generalize dependent r0
  end.
  induction ds as [|d ds IH]; intros r0 H0; cbn [fold_left]; [assumption|].
  apply IH. now apply compareIdentity_not_rescued.
Qed.

(** Given the keywords of a group itself, the search does find a group of
    another name that shares one of them. *)
Lemma findSemanticEquivalents_finds (g other : Group) (a i w : list Group) (kw : string) :
  In other (a ++ i ++ w) ->
  g_name other <> g_name g ->
  In kw (g_semanticKeywords g) -> In kw (g_semanticKeywords other) ->
  In (g_name other) (findSemanticEquivalents (targetOfGroup g) a i w).
Proof.
  intros Hin Hname Hg Ho. unfold findSemanticEquivalents. cbn [td_semanticKeywords targetOfGroup].
  destruct (g_semanticKeywords g) as [|k0 ks] eqn:K; [destruct Hg|].
  apply setOfList_In, in_map, filter_In. split; [assumption|].
  apply andb_true_intro. split.
  - apply existsb_exists. exists kw. split; [assumption|].
    now apply JsFacts.arrayIncludes_In.
  - cbn [td_name]. apply negb_true_iff, String.eqb_neq. assumption.
Qed.

(** C2 on the search scenario: each platform has one group, each with the
    keyword "search" and a name of its own, so every identity is missing on
    two platforms that hold a group of another name with a common keyword.
    The reconciler reports all three as missing and counts them as
    inconsistent; the search for equivalents, given the group instead of the
    identity record, names the two alternatives. *)
Theorem search_scenario_is_not_rescued :
  let fa := extractFeatures searchAndroid in
  let fi := extractFeatures searchIos in
  let fw := extractFeatures searchWeb in
  let r := compareFeatures fa fi fw in
  map (fun g => (g_name g, g_signature g, g_semanticKeywords g)) (groups fa)
    = [("Search Bar", "T1B1", ["search"])]
  /\ map (fun g => (g_name g, g_signature g, g_semanticKeywords g)) (groups fi)
    = [("Search Icon", "T0B0", ["search"])]
  /\ map (fun g => (g_name g, g_signature g, g_semanticKeywords g)) (groups fw)
    = [("Search Input", "T1B0", ["search"])]
  /\ consistent r = 0 /\ inconsistent r = 3
  /\ map (fun e => (m_name e, m_details e)) (mapping_text r)
    = [ ("Search Bar", MissingOn [iOS; Web]);
        ("Search Icon", MissingOn [Android; Web]);
        ("Search Input", MissingOn [Android; iOS]) ]
  /\ map (fun g => findSemanticEquivalents (targetOfGroup g) [] (groups fi) (groups fw))
         (groups fa)
    = [ ["Search Icon"; "Search Input"] ].
Proof. repeat split. Qed.

End ReconcilerFacts.

(** ** The semantic matcher *)

Module MatcherFacts.

Import AnalyzerNode AiMatcher GroupSpec MatcherSpec Examples.

Lemma signatureOf_inj (t b t' b' : nat) :
  signatureOf t b = signatureOf t' b' -> t = t' /\ b = b'.
Proof.
  unfold signatureOf. intros H.
  change ("T" ++ Js.ofNat t ++ "B" ++ Js.ofNat b)%string
    with (String "T" (Js.ofNat t ++ String "B" (Js.ofNat b)))%string in H.
  change ("T" ++ Js.ofNat t' ++ "B" ++ Js.ofNat b')%string
    with (String "T" (Js.ofNat t' ++ String "B" (Js.ofNat b')))%string in H.
  injection H as H.
  apply JsFacts.digits_B_inj in H; try apply JsFacts.allDigits_ofNat.
  destruct H as [H1 H2]. split; now apply JsFacts.ofNat_inj.
Qed.

Lemma visit_wellFormed (node : DesignNode) (features : Features) :
  Forall wellFormed (groups features) -> Forall wellFormed (groups (visit node features)).
Proof.
  intros H. rewrite GroupFacts.visit_groups. apply Forall_app. split; [assumption|].
  destruct (GroupSpec.tracksGroup node); repeat constructor.
Qed.

(** Every group that the extractor builds is well formed. *)
Lemma extractFeaturesFrom_wellFormed (node : DesignNode) :
  forall features,
    Forall wellFormed (groups features) ->
    Forall wellFormed (groups (extractFeaturesFrom node features)).
Proof.
  induction node as [i n t c cs IH] using DesignNode_nested_ind. intros features H.
  cbn [extractFeaturesFrom].
  generalize (visit_wellFormed (mkNode i n t c cs) features H).
  generalize (visit (mkNode i n t c cs) features). clear H.
  induction IH as [|child rest Hchild _ IHrest]; intros acc Hacc; cbn [fold_left]; auto.
Qed.

Lemma extractFeatures_wellFormed (node : DesignNode) :
  Forall wellFormed (groups (extractFeatures node)).
Proof. apply extractFeaturesFrom_wellFormed. constructor. Qed.

(** C5: a call whose recipes differ in the text or the button count resolves
    its promise with false, and a call on well-formed groups (groups whose
    signature is the one of their recipe, as the extractor builds them) whose
    names and signatures agree resolves it with true; in both cases within
    the call itself, the queue, the timer, the awaited batches and the oracle
    requests being left as they were.  The oracle is not an argument of the
    call. *)
Theorem fast_path (resolve : nat) (a b : Group) (st : State) :
  (r_text (g_recipe a) <> r_text (g_recipe b)
   \/ r_buttons (g_recipe a) <> r_buttons (g_recipe b) ->
   areComponentsSimilar resolve a b st = resolveWith resolve false st)
  /\ (wellFormed a -> wellFormed b ->
      g_name a = g_name b /\ g_signature a = g_signature b ->
      areComponentsSimilar resolve a b st = resolveWith resolve true st)
  /\ (forall v, comparisonQueue (resolveWith resolve v st) = comparisonQueue st
                /\ flushTimer (resolveWith resolve v st) = flushTimer st
                /\ oracleCalls (resolveWith resolve v st) = oracleCalls st
                /\ inFlight (resolveWith resolve v st) = inFlight st
                /\ resolved (resolveWith resolve v st) = resolved st ++ [(resolve, v)]).
Proof.
  split; [|split].
  - intros H. unfold areComponentsSimilar.
    destruct (r_text (g_recipe a) =? r_text (g_recipe b))%nat eqn:E1; [|reflexivity].
    destruct (r_buttons (g_recipe a) =? r_buttons (g_recipe b))%nat eqn:E2; [|reflexivity].
    apply Nat.eqb_eq in E1, E2. tauto.
  - intros Wa Wb [Hn Hs]. unfold areComponentsSimilar.
    rewrite Wa, Wb in Hs. apply signatureOf_inj in Hs as [Ht Hb].
    rewrite Ht, Hb, !Nat.eqb_refl. cbn [negb orb].
    rewrite Hn, String.eqb_refl. cbn [andb].
    rewrite Wa, Wb, Ht, Hb, String.eqb_refl. reflexivity.
  - intros v. repeat split.
Qed.

Lemma fast_path_witness :
  let a := GroupSpec.groupOf (mkNode "1" "Card" "INSTANCE" "" []) in
  let b := GroupSpec.groupOf (mkNode "2" "Card" "COMPONENT" "" []) in
  let c := GroupSpec.groupOf (mkNode "3" "Card" "COMPONENT" ""
                                [mkNode "4" "Title" "TEXT" "Paris" []]) in
  areComponentsSimilar 7 a b initial = resolveWith 7 true initial
  /\ areComponentsSimilar 8 a c initial = resolveWith 8 false initial.
Proof.
  intros a b c. split.
  - refine (proj1 (proj2 (fast_path 7 a b initial)) eq_refl eq_refl _).
    split; reflexivity.
  - refine (proj1 (fast_path 8 a c initial) _).
    left. cbn. discriminate.
Defined.

(** *** The debounce window *)

Lemma ambiguous_call (resolve : nat) (g1 g2 : Group) (st : State) :
  areComponentsSimilar resolve g1 g2 st =
  if ambiguous g1 g2 then
    {| comparisonQueue := comparisonQueue st ++ [itemOf resolve g1 g2];
       flushTimer := true;
       inFlight := inFlight st; oracleCalls := oracleCalls st;
       resolved := resolved st |}
  else resolveWith resolve
         (negb (negb (r_text (g_recipe g1) =? r_text (g_recipe g2))%nat
                || negb (r_buttons (g_recipe g1) =? r_buttons (g_recipe g2))%nat)) st.
Proof.
  unfold areComponentsSimilar, ambiguous.
  destruct (negb (r_text (g_recipe g1) =? r_text (g_recipe g2))%nat
            || negb (r_buttons (g_recipe g1) =? r_buttons (g_recipe g2))%nat);
    cbn [negb andb]; [reflexivity|].
  destruct ((g_name g1 =? g_name g2) && (g_signature g1 =? g_signature g2));
    reflexivity.
Qed.

(** Between two firings of the timer the queue only grows, by the ambiguous
    calls in their order; no request is issued; the timer is armed from the
    first ambiguous call on. *)
Lemma window (events : list Event) :
  forallb (fun e => negb (isTimerFires e)) events = true ->
  forall st,
    comparisonQueue (run st events) = comparisonQueue st ++ enqueued events
    /\ oracleCalls (run st events) = oracleCalls st
    /\ flushTimer (run st events)
       = (flushTimer st || match enqueued events with [] => false | _ => true end).
Proof.
  induction events as [|e events IH]; intros Hno st.
  - cbn. rewrite app_nil_r, orb_false_r. auto.
  - cbn [forallb] in Hno. apply andb_prop in Hno as [He Hno].
    unfold run in *. cbn [fold_left].
    destruct (IH Hno (step st e)) as [Q [O T]]. rewrite Q, O, T. clear IH Q O T.
    destruct e as [resolve g1 g2 | | k o]; [| discriminate |].
    + cbn [step enqueued]. rewrite ambiguous_call.
      destruct (ambiguous g1 g2); cbn.
      * rewrite <- app_assoc. cbn. rewrite orb_true_r.
        destruct (enqueued events); auto.
      * auto.
    + cbn [step enqueued]. unfold oracleSettles.
      destruct (nth_error (inFlight st) k); cbn; auto.
Qed.

Lemma promptLines_length (i : nat) (pairs : list QueueItem) :
  List.length (promptLines i pairs) = List.length pairs.
Proof. revert i. induction pairs as [|p r IH]; intros i; cbn; auto. Qed.

Lemma settle_resolves_each_once (batch : list QueueItem) (results : option ResultMap) :
  map fst (settle batch results) = map q_resolve batch.
Proof. destruct results; cbn; rewrite map_map; reflexivity. Qed.

(** C9: starting with an empty queue and no timer, whatever calls and oracle
    answers arrive before the timer fires, the ambiguous calls among them are
    queued in order and arm one timer; when it fires, one request is issued,
    with one input line per queued pair, the queue is emptied and the timer
    reset in the same step, and the batch awaiting the answer is exactly the
    queued pairs.  Whatever the oracle does, the settlement resolves the
    promise of each pair of the batch once. *)
Theorem one_request_per_window (st : State) (events : list Event) :
  comparisonQueue st = [] -> flushTimer st = false ->
  forallb (fun e => negb (isTimerFires e)) events = true ->
  enqueued events <> [] ->
  let before := run st events in
  let after := step before TimerFires in
  comparisonQueue before = enqueued events
  /\ flushTimer before = true
  /\ oracleCalls before = oracleCalls st
  /\ oracleCalls after = oracleCalls st ++ [requestOf (enqueued events)]
  /\ List.length (req_lines (requestOf (enqueued events))) = List.length (enqueued events)
  /\ comparisonQueue after = [] /\ flushTimer after = false
  /\ inFlight after = inFlight before ++ [enqueued events]
  /\ (forall o, map fst (settle (enqueued events)
                                (batchStructuralMatch (enqueued events) o))
                = map q_resolve (enqueued events)).
Proof.
  intros Hq Ht Hno Hne before after.
  destruct (window events Hno st) as [Q [O T]]. fold before in Q, O, T.
  rewrite Hq in Q. rewrite Ht in T. cbn in Q, T.
  assert (T' : flushTimer before = true).
  { rewrite T. destruct (enqueued events); congruence. }
  subst after. cbn [step]. unfold timerFires. rewrite T', Q, O.
  destruct (enqueued events) as [|x r] eqn:E; [congruence|].
  repeat split; try reflexivity.
  - cbn [requestOf req_lines]. apply promptLines_length.
  - intros o. apply settle_resolves_each_once.
Qed.

Lemma one_request_per_window_witness :
  let events := [ Call 1 (searchBar 1 1) (searchField 1 1);
                  Call 2 (searchBar 1 1) (searchBar 1 1);
                  Call 3 (searchBar 2 0) (searchField 2 0) ] in
  oracleCalls (step (run initial events) TimerFires)
  = [ {| req_lines :=
           [ "1) C1=n:Search Bar|t:1|b:1  C2=n:Search Field|t:1|b:1";
             "2) C1=n:Search Bar|t:2|b:0  C2=n:Search Field|t:2|b:0" ];
         req_max_tokens := 10 |} ].
Proof.
  intros events.
  exact (proj1 (proj2 (proj2 (proj2
           (one_request_per_window initial events eq_refl eq_refl eq_refl
              ltac:(discriminate)))))).
Defined.

(** *** Settling a batch *)

Lemma mapGet_mapSet (k k' : string) (v : bool) (m : ResultMap) :
  mapGet k (mapSet k' v m) = if k' =? k then Some v else mapGet k m.
Proof.
  unfold mapGet. induction m as [|[k0 v0] r IH]; cbn [mapSet find fst].
  - destruct (k' =? k); reflexivity.
  - destruct (k0 =? k') eqn:E0; cbn [find fst].
    + apply String.eqb_eq in E0. subst k0. destruct (k' =? k); reflexivity.
    + destruct (k0 =? k) eqn:E1; cbn [option_map snd].
      * apply String.eqb_eq in E1. subst k0. now rewrite (String.eqb_sym k' k), E0.
      * exact IH.
Qed.

Lemma readLine_get (pairs : list QueueItem) (m : ResultMap) (line k : string) :
  mapGet k (readLine pairs m line) <> None ->
  mapGet k m <> None
  \/ exists j p, lineNames j line /\ nth_error pairs j = Some p /\ q_id p = k.
Proof.
  unfold readLine. destruct (lineMatch line) as [[digits v]|] eqn:L; [|auto].
  destruct (Js.numberOfDigits digits =? 0)%N eqn:Z; [auto|]. apply N.eqb_neq in Z.
  destruct (nth_error pairs (N.to_nat (Js.numberOfDigits digits - 1))) as [p|] eqn:P;
    [|auto].
  rewrite mapGet_mapSet. destruct (q_id p =? k) eqn:E; [|auto].
  intros _. right. apply String.eqb_eq in E.
  exists (N.to_nat (Js.numberOfDigits digits - 1)), p. repeat split; try assumption.
  exists digits, v. split; [exact L | lia].
Qed.

Lemma parse_get (pairs : list QueueItem) (lines : list string) (k : string) :
  forall m,
    mapGet k (fold_left (readLine pairs) lines m) <> None ->
    mapGet k m <> None
    \/ exists line j p, In line lines /\ lineNames j line
                        /\ nth_error pairs j = Some p /\ q_id p = k.
Proof.
  induction lines as [|line lines IH]; intros m H; cbn [fold_left] in H; [auto|].
  destruct (IH _ H) as [H1 | [l [j [p [Hin Hrest]]]]].
  - destruct (readLine_get _ _ _ _ H1) as [H2 | [j [p Hrest]]]; [auto|].
    right. exists line, j, p. split; [now left | exact Hrest].
  - right. exists l, j, p. split; [now right | exact Hrest].
Qed.


Lemma failed_retry_is_a_failure (status401 : bool) :
  callWithRetry {| firstCall := Throws true; refreshSucceeds := true;
                   secondCall := Throws status401 |} = None.
Proof. reflexivity. Qed.

Lemma absent_verdict_distinct_ids (batch : list QueueItem) (response : string)
    (j : nat) (item : QueueItem) :
  NoDup (map q_id batch) ->
  nth_error batch j = Some item ->
  (forall line, In line (Js.splitLines response) -> ~ lineNames j line) ->
  In (q_resolve item, false) (settle batch (batchStructuralMatch batch (answers response))).
Proof.
  intros ND Hj Habsent.
  assert (G : mapGet (q_id item) (parseResponse batch response) = None).
  { destruct (mapGet (q_id item) (parseResponse batch response)) eqn:G; [|reflexivity].
    exfalso. unfold parseResponse in G.
    destruct (parse_get batch (Js.splitLines response) (q_id item) []
                ltac:(rewrite G; discriminate))
      as [H | [line [j' [p [Hin [Hnames [Hp Hid]]]]]]].
    - now apply H.
    - assert (j' = j).
      { apply (proj1 (NoDup_nth_error (map q_id batch)) ND).
        - rewrite length_map. apply nth_error_Some. congruence.
        - rewrite !nth_error_map, Hp, Hj. cbn. now f_equal. }
      subst j'. exact (Habsent line Hin Hnames). }
  unfold batchStructuralMatch. destruct batch as [|x r] eqn:B; [destruct j; discriminate|].
  rewrite <- B in *. cbn [answers callWithRetry firstCall settle].
  apply in_map_iff. exists item. rewrite G. split; [reflexivity|].
  eapply nth_error_In; eassumption.
Qed.

(** C6 on two pairs of the same names: both calls are ambiguous and are sent
    as one request of two lines; the oracle answers the first pair only, with
    Y; the second pair, whose verdict is absent from the response, resolves
    with true, the verdict stored under the id the two pairs share. *)
Theorem shared_id_shares_verdict :
  let events := [ Call 1 (searchBar 1 1) (searchField 1 1);
                  Call 2 (searchBar 2 0) (searchField 2 0);
                  TimerFires;
                  OracleSettles 0 (answers "1:Y") ] in
  map q_id (enqueued events) = ["Search Bar__Search Field"; "Search Bar__Search Field"]
  /\ map (fun r => List.length (req_lines r)) (oracleCalls (run initial events)) = [2]
  /\ map lineMatch (Js.splitLines "1:Y") = [Some ("1", "Y"%char)]
  /\ resolved (run initial events) = [(1, true); (2, true)].
Proof. repeat split. Qed.

End MatcherFacts.

(** * Further properties *)

(** ** The sets of the flat extractor *)

Module FlatFacts.

Import Analyzer FlatSpec.

Lemma Category_eqb_eq (a b : Category) : Category_eqb a b = true <-> a = b.
Proof. destruct a, b; cbn; split; congruence. Qed.

Lemma Feature_eqb_eq (a b : Feature) : Feature_eqb a b = true <-> a = b.
Proof.
  destruct a as [n t], b as [n' t']. unfold Feature_eqb. cbn.
  rewrite andb_true_iff, String.eqb_eq, Category_eqb_eq. split.
  - intros [-> ->]. reflexivity.
  - intros [= -> ->]. auto.
Qed.

Lemma existsb_Feature_In (f : Feature) (s : list Feature) :
  existsb (Feature_eqb f) s = true <-> In f s.
Proof.
  rewrite existsb_exists. split.
  - intros [y [Hin Heq]]. apply Feature_eqb_eq in Heq. now subst.
  - intros Hin. exists f. split; [assumption | now apply Feature_eqb_eq].
Qed.

Lemma setAdd_present (f : Feature) (s : list Feature) :
  In f s -> Js.setAdd Feature_eqb f s = s.
Proof.
  intros H. unfold Js.setAdd. apply existsb_Feature_In in H. now rewrite H.
Qed.

Lemma setAdd_fresh (f : Feature) (s : list Feature) :
  ~ In f s -> Js.setAdd Feature_eqb f s = s ++ [f].
Proof.
  intros H. unfold Js.setAdd.
  destruct (existsb (Feature_eqb f) s) eqn:E; [|reflexivity].
  apply existsb_Feature_In in E. contradiction.
Qed.

Lemma setAdd_mem (f g : Feature) (s : list Feature) :
  In g (Js.setAdd Feature_eqb f s) <-> g = f \/ In g s.
Proof.
  destruct (in_dec (fun a b => match Bool.bool_dec (Feature_eqb a b) true with
                               | left e => left (proj1 (Feature_eqb_eq a b) e)
                               | right n => right (fun e => n (proj2 (Feature_eqb_eq a b) e))
                               end) f s) as [H | H].
  - rewrite (setAdd_present _ _ H). split; [auto | intros [-> | ?]; assumption].
  - rewrite (setAdd_fresh _ _ H), in_app_iff. cbn. intuition.
Qed.

Lemma record_all (f : Feature) (fs : Features) :
  all (record f fs) = Js.setAdd Feature_eqb f (all fs).
Proof. reflexivity. Qed.

(** Recording a feature that is already there changes nothing. *)
Lemma record_absorbed (f : Feature) (fs : Features) :
  setInvariant fs -> In f (all fs) -> record f fs = fs.
Proof.
  intros [ND [Ht Hb]] Hin. destruct fs as [t b a]. cbn in *. unfold record. cbn.
  rewrite (setAdd_present f a Hin). subst t b.
  destruct (f_type f) eqn:T; f_equal;
    apply setAdd_present; apply filter_In; (split; [assumption|]);
    unfold isButtonFeature; rewrite T; reflexivity.
Qed.

Lemma record_invariant (f : Feature) (fs : Features) :
  setInvariant fs -> setInvariant (record f fs).
Proof.
  intros Inv.
  destruct (existsb (Feature_eqb f) (all fs)) eqn:E.
  - apply existsb_Feature_In in E. now rewrite record_absorbed.
  - assert (Hn : ~ In f (all fs)).
    { intros H. apply existsb_Feature_In in H. congruence. }
    destruct Inv as [ND [Ht Hb]]. destruct fs as [t b a]. cbn in *. subst t b.
    unfold setInvariant, record. cbn. rewrite (setAdd_fresh f a Hn).
    rewrite !filter_app. cbn [filter].
    assert (B : isButtonFeature f = match f_type f with BUTTON => true | _ => false end).
    { unfold isButtonFeature. now destruct (f_type f). }
    rewrite B. clear B.
    split; [|split].
    + apply NoDup_app; [assumption | repeat constructor; intros [] |].
      intros x Hx [<- | []]. contradiction.
    + destruct (f_type f) eqn:T; cbn [negb]; rewrite ?app_nil_r; try reflexivity;
        apply setAdd_fresh; rewrite filter_In; tauto.
    + destruct (f_type f) eqn:T; cbn [negb]; rewrite ?app_nil_r; try reflexivity;
        apply setAdd_fresh; rewrite filter_In; tauto.
Qed.

Lemma visit_emits (nodeType nodeName characters : string) (hasChildren : bool)
    (fs : Features) :
  visit nodeType nodeName characters hasChildren fs =
  match emits nodeType nodeName characters hasChildren with
  | Some f => record f fs
  | None => fs
  end.
Proof.
  unfold visit, emits.
  destruct (nodeType =? "TEXT").
  { destruct (Js.truthy (Js.trim characters)); reflexivity. }
  destruct ((nodeType =? "COMPONENT") || (nodeType =? "INSTANCE")).
  { destruct (Js.truthy (Js.trim nodeName)); reflexivity. }
  destruct ((nodeType =? "GROUP") || (nodeType =? "FRAME")); [|reflexivity].
  destruct (Js.truthy (Js.trim nodeName)); [|reflexivity].
  destruct (isIconComponent nodeName); cbn; [reflexivity|].
  destruct hasChildren; cbn; [reflexivity|].
  destruct (classifyGroup nodeName); reflexivity.
Qed.

Lemma trim_empty : Js.trim EmptyString = EmptyString.
Proof. reflexivity. Qed.

Lemma emits_named (nodeType nodeName characters : string) (hasChildren : bool)
    (f : Feature) :
  emits nodeType nodeName characters hasChildren = Some f -> f_name f <> EmptyString.
Proof.
  assert (N : Js.truthy (Js.trim nodeName) = true -> nodeName <> EmptyString).
  { intros H ->. discriminate H. }
  unfold emits.
  repeat match goal with
         | |- context [if ?c then _ else _] => destruct c eqn:?
         | |- context [match classifyGroup ?n with _ => _ end] => destruct (classifyGroup n)
         end;
    intros [= <-]; cbn; auto.
  now apply JsFacts.truthy_true.
Qed.

Lemma visit_invariant t n c h (fs : Features) :
  setInvariant fs -> setInvariant (visit t n c h fs).
Proof.
  intros H. rewrite visit_emits. destruct (emits t n c h); auto using record_invariant.
Qed.

Lemma visit_grows t n c h (fs : Features) (f : Feature) :
  In f (all fs) -> In f (all (visit t n c h fs)).
Proof.
  intros H. rewrite visit_emits. destruct (emits t n c h); [|assumption].
  rewrite record_all. apply setAdd_mem. now right.
Qed.

Lemma visit_named t n c h (fs : Features) :
  Forall (fun f => f_name f <> EmptyString) (all fs) ->
  Forall (fun f => f_name f <> EmptyString) (all (visit t n c h fs)).
Proof.
  intros H. rewrite visit_emits. destruct (emits t n c h) as [f|] eqn:E; [|assumption].
  rewrite record_all. apply Forall_forall. intros g Hg.
  apply setAdd_mem in Hg as [-> | Hg].
  - eapply emits_named; eassumption.
  - revert g Hg. now apply Forall_forall.
Qed.

(** What the traversal keeps, for any property that every visit keeps. *)
Lemma traverse_keeps (P : Features -> Prop) :
  (forall t n c h fs, P fs -> P (visit t n c h fs)) ->
  forall node fs, P fs -> P (traverse node fs).
Proof.
  intros Hv. induction node as [i n t c cs IH] using DesignNode_nested_ind.
  intros fs H. cbn [traverse].
  generalize (Hv t n c (match cs with [] => false | _ => true end) fs H).
  generalize (visit t n c (match cs with [] => false | _ => true end) fs).
  clear H. induction IH as [|child rest Hchild _ IHrest]; intros acc Hacc; cbn [fold_left]; auto.
Qed.

Lemma traverse_invariant (node : DesignNode) (fs : Features) :
  setInvariant fs -> setInvariant (traverse node fs).
Proof. apply traverse_keeps. intros. now apply visit_invariant. Qed.

Lemma traverse_grows (node : DesignNode) (fs : Features) (f : Feature) :
  In f (all fs) -> In f (all (traverse node fs)).
Proof.
  apply (traverse_keeps (fun fs => In f (all fs))). intros. now apply visit_grows.
Qed.

Lemma fold_traverse_grows (cs : list DesignNode) (fs : Features) (f : Feature) :
  In f (all fs) -> In f (all (fold_left (fun acc child => traverse child acc) cs fs)).
Proof.
  revert fs. induction cs as [|c cs IH]; intros fs H; cbn [fold_left]; [assumption|].
  apply IH. now apply traverse_grows.
Qed.

Lemma empty_invariant : setInvariant emptyFeatures.
Proof. repeat split. constructor. Qed.

(** The sets of a flat extraction agree: [all] has no duplicate, [buttons] is
    its BUTTON part and [text] the rest, so the three sizes reported for a
    platform satisfy total = text + buttons; every feature has a name. *)
Theorem flat_sets_agree (node : DesignNode) :
  let fs := extractFeatures node in
  NoDup (all fs)
  /\ text fs = filter (fun f => negb (isButtonFeature f)) (all fs)
  /\ buttons fs = filter isButtonFeature (all fs)
  /\ List.length (all fs) = List.length (text fs) + List.length (buttons fs)
  /\ Forall (fun f => f_name f <> EmptyString) (all fs).
Proof.
  intros fs.
  destruct (traverse_invariant node emptyFeatures empty_invariant) as [ND [Ht Hb]].
  fold (extractFeatures node) in ND, Ht, Hb. fold fs in ND, Ht, Hb.
  repeat split; try assumption.
  - rewrite Ht, Hb. rewrite Nat.add_comm. symmetry. apply filter_length.
  - apply (traverse_keeps (fun fs => Forall (fun f => f_name f <> EmptyString) (all fs))).
    + intros. now apply visit_named.
    + constructor.
Qed.

(** Whatever holds every feature that a traversal from [fs] ends with is left
    unchanged by the traversal. *)
Lemma traverse_absorbed (node : DesignNode) :
  forall fs fs',
    setInvariant fs' ->
    (forall f, In f (all (traverse node fs)) -> In f (all fs')) ->
    traverse node fs' = fs'.
Proof.
  induction node as [i n t c cs IH] using DesignNode_nested_ind.
  intros fs fs' Inv Hincl. cbn [traverse] in *.
  set (h := match cs with [] => false | _ => true end) in *.
  assert (V : visit t n c h fs' = fs').
  { rewrite visit_emits. destruct (emits t n c h) as [f|] eqn:E; [|reflexivity].
    apply record_absorbed; [assumption|]. apply Hincl.
    apply fold_traverse_grows. rewrite visit_emits, E, record_all.
    apply setAdd_mem. now left. }
  rewrite V. clear V.
  revert Hincl. generalize (visit t n c h fs). clear h.
  induction IH as [|child rest Hchild _ IHrest]; intros acc Hincl; cbn [fold_left] in *.
  - reflexivity.
  - rewrite (Hchild acc fs' Inv).
    + apply (IHrest (traverse child acc)). exact Hincl.
    + intros f Hf. apply Hincl. now apply fold_traverse_grows.
Qed.

(** Traversing a tree a second time into the same sets changes nothing, and
    a child that occurs twice in a row counts once. *)
Theorem flat_traversal_is_idempotent (node : DesignNode) (fs : Features) :
  setInvariant fs ->
  traverse node (traverse node fs) = traverse node fs
  /\ (forall i n t c rest,
         traverse (mkNode i n t c (node :: node :: rest)) fs
         = traverse (mkNode i n t c (node :: rest)) fs).
Proof.
  intros Inv. split.
  - apply (traverse_absorbed node fs); [now apply traverse_invariant | auto].
  - intros i n t c rest. cbn [traverse fold_left].
    set (v := visit t n c true fs).
    rewrite (traverse_absorbed node v (traverse node v)); [reflexivity | | auto].
    apply traverse_invariant. subst v. now apply visit_invariant.
Qed.

Lemma flat_traversal_is_idempotent_witness :
  let card := mkNode "1:1" "Buy Button" "INSTANCE" ""
                [mkNode "1:2" "Label" "TEXT" "Buy" []] in
  traverse (mkNode "0:1" "Screen" "FRAME" "" [card; card]) emptyFeatures
  = traverse (mkNode "0:1" "Screen" "FRAME" "" [card]) emptyFeatures.
Proof.
  intros card.
  exact (proj2 (flat_traversal_is_idempotent card emptyFeatures empty_invariant)
               "0:1" "Screen" "FRAME" "" []).
Defined.

End FlatFacts.

(** ** The flat reconciler *)

Module FlatCompareFacts.

Import Analyzer AnalyzerCompare FlatCompareSpec.

Lemma entry_has_keys (k : string) (m : AllFeatures) :
  has k m = existsb (String.eqb k) (map fst m).
Proof.
  unfold has. induction m as [|[k' e] r IH]; cbn; [reflexivity|].
  now rewrite IH, (String.eqb_sym k' k).
Qed.

Lemma addPlatform_keys p key (m : AllFeatures) :
  map fst (addPlatform p key m) = map fst m.
Proof.
  induction m as [|[k e] r IH]; cbn; [reflexivity|].
  destruct (k =? key); cbn; [reflexivity | now rewrite IH].
Qed.

Lemma addFeature_keys p (m : AllFeatures) (f : Feature) :
  map fst (addFeature p m f) = Js.setAdd String.eqb (f_name f) (map fst m).
Proof.
  unfold addFeature, Js.setAdd. rewrite addPlatform_keys, <- entry_has_keys.
  destruct (has (f_name f) m); [reflexivity | now rewrite map_app].
Qed.

Lemma entry_get_app (k : string) (xs ys : AllFeatures) :
  get k (xs ++ ys) = if has k xs then get k xs else get k ys.
Proof.
  unfold get, has. induction xs as [|[k' e] r IH]; cbn; [reflexivity|].
  destruct (k' =? k); cbn; [reflexivity | exact IH].
Qed.

Lemma entry_get_none (k : string) (m : AllFeatures) : has k m = false -> get k m = None.
Proof.
  unfold has, get. induction m as [|[k' e] r IH]; cbn; [reflexivity|].
  destruct (k' =? k); cbn; [discriminate | exact IH].
Qed.

Lemma entry_get_some (k : string) (m : AllFeatures) :
  has k m = true -> exists e, get k m = Some e.
Proof.
  unfold has, get. induction m as [|[k' e] r IH]; cbn; [discriminate|].
  destruct (k' =? k); cbn; [intros _; now exists e | exact IH].
Qed.

Lemma get_addPlatform p (key k : string) (m : AllFeatures) :
  get k (addPlatform p key m)
  = if k =? key then
      option_map (fun e => {| e_name := e_name e; e_type := e_type e;
                              e_platforms :=
                                Js.setAdd AnalyzerNode.Platform_eqb p (e_platforms e) |})
                 (get k m)
    else get k m.
Proof.
  unfold get. induction m as [|[k' e] r IH]; cbn.
  - now destruct (k =? key).
  - destruct (k' =? key) eqn:E1; cbn.
    + apply String.eqb_eq in E1. subst k'.
      rewrite (String.eqb_sym k key). destruct (key =? k); reflexivity.
    + destruct (k' =? k) eqn:E2; cbn.
      * apply String.eqb_eq in E2. subst k'. now rewrite E1.
      * exact IH.
Qed.

Lemma platformsAt_addFeature p (k : string) (m : AllFeatures) (f : Feature) :
  platformsAt k (addFeature p m f)
  = if f_name f =? k then Js.setAdd AnalyzerNode.Platform_eqb p (platformsAt k m)
    else platformsAt k m.
Proof.
  unfold platformsAt, addFeature. rewrite get_addPlatform, (String.eqb_sym k (f_name f)).
  destruct (f_name f =? k) eqn:E.
  - apply String.eqb_eq in E. subst k.
    destruct (has (f_name f) m) eqn:H.
    + destruct (entry_get_some _ _ H) as [e ->]. reflexivity.
    + rewrite entry_get_app, H, (entry_get_none _ _ H). unfold get. cbn [find fst].
      rewrite String.eqb_refl. reflexivity.
  - destruct (has (f_name f) m) eqn:H; [reflexivity|].
    rewrite entry_get_app. destruct (has k m) eqn:H'; [reflexivity|].
    rewrite (entry_get_none _ _ H'). unfold get. cbn [find fst]. rewrite E. reflexivity.
Qed.

Lemma setAdd_platform_twice p (s : list AnalyzerNode.Platform) :
  Js.setAdd AnalyzerNode.Platform_eqb p (Js.setAdd AnalyzerNode.Platform_eqb p s)
  = Js.setAdd AnalyzerNode.Platform_eqb p s.
Proof.
  unfold Js.setAdd.
  destruct (existsb (AnalyzerNode.Platform_eqb p) s) eqn:E.
  - now rewrite E.
  - rewrite existsb_app. cbn [existsb].
    replace (AnalyzerNode.Platform_eqb p p) with true by now destruct p.
    cbn [orb]. now rewrite orb_true_r.
Qed.

Lemma platformsAt_fold p (k : string) (fs : list Feature) (m : AllFeatures) :
  platformsAt k (fold_left (addFeature p) fs m)
  = if existsb (String.eqb k) (map f_name fs)
    then Js.setAdd AnalyzerNode.Platform_eqb p (platformsAt k m)
    else platformsAt k m.
Proof.
  revert m. induction fs as [|f fs IH]; intros m; cbn [fold_left map existsb]; [reflexivity|].
  rewrite IH, platformsAt_addFeature, (String.eqb_sym k (f_name f)).
  destruct (f_name f =? k); cbn [orb].
  - rewrite setAdd_platform_twice. now destruct (existsb (String.eqb k) (map f_name fs)).
  - reflexivity.
Qed.

Lemma keys_fold p (fs : list Feature) (m : AllFeatures) :
  map fst (fold_left (addFeature p) fs m)
  = fold_left (fun s x => Js.setAdd String.eqb x s) (map f_name fs) (map fst m).
Proof.
  revert m. induction fs as [|f fs IH]; intros m; cbn [fold_left map]; [reflexivity|].
  now rewrite IH, addFeature_keys.
Qed.

Lemma built_keys (a i w : Features) : map fst (built a i w) = distinctNames a i w.
Proof.
  unfold built, addFeatures, distinctNames, names, Js.setOfList.
  rewrite !keys_fold, !fold_left_app. reflexivity.
Qed.

Lemma built_platforms (a i w : Features) (k : string) :
  platformsAt k (built a i w) = platformsOf a i w k.
Proof.
  unfold built, addFeatures, platformsOf, hasName, names. rewrite !platformsAt_fold.
  destruct (existsb (String.eqb k) (map f_name (all a)));
    destruct (existsb (String.eqb k) (map f_name (all i)));
    destruct (existsb (String.eqb k) (map f_name (all w))); reflexivity.
Qed.

Lemma entry_platforms (a i w : Features) (e : string * Entry) :
  In e (built a i w) -> e_platforms (snd e) = platformsOf a i w (fst e).
Proof.
  intros Hin. rewrite <- built_platforms. unfold platformsAt.
  assert (ND : NoDup (map fst (built a i w))).
  { rewrite built_keys. apply ReconcilerFacts.setOfList_NoDup. }
  assert (G : get (fst e) (built a i w) = Some (snd e)).
  { clear - ND Hin. unfold get. induction (built a i w) as [|[k d] r IH]; [destruct Hin|].
    cbn in ND. apply NoDup_cons_iff in ND as [Hk ND]. cbn [find fst].
    destruct Hin as [<- | Hin]; cbn [fst snd].
    - now rewrite String.eqb_refl.
    - destruct (k =? fst e) eqn:E.
      + apply String.eqb_eq in E. subst k. exfalso. apply Hk. now apply in_map.
      + now apply IH. }
  now rewrite G.
Qed.

Lemma tally_step (t : Tally) (e : Entry) :
  consistent (tally t e) = consistent t + (if threefold e then 1 else 0)
  /\ consistent (tally t e) + inconsistent (tally t e)
     = consistent t + inconsistent t + 1
  /\ List.length (mapping_text (tally t e)) + List.length (mapping_buttons (tally t e))
     = List.length (mapping_text t) + List.length (mapping_buttons t) + 1.
Proof.
  unfold tally, threefold. cbn [consistent inconsistent mapping_text mapping_buttons].
  destruct (List.length (e_platforms e) =? 3)%nat; destruct (e_type e);
    rewrite ?length_app; cbn [List.length]; lia.
Qed.

Lemma tally_fold (es : list Entry) (t : Tally) :
  consistent (fold_left tally es t) = consistent t + List.length (filter threefold es)
  /\ consistent (fold_left tally es t) + inconsistent (fold_left tally es t)
     = consistent t + inconsistent t + List.length es
  /\ List.length (mapping_text (fold_left tally es t))
     + List.length (mapping_buttons (fold_left tally es t))
     = List.length (mapping_text t) + List.length (mapping_buttons t) + List.length es.
Proof.
  revert t. induction es as [|e es IH]; intros t; cbn [fold_left filter List.length].
  - lia.
  - destruct (IH (tally t e)) as [H1 [H2 H3]].
    destruct (tally_step t e) as [S1 [S2 S3]].
    destruct (threefold e); cbn [List.length]; lia.
Qed.

Lemma filter_snd_fst {K V} (p : V -> bool) (q : K -> bool) (l : list (K * V)) :
  (forall e, In e l -> p (snd e) = q (fst e)) ->
  List.length (filter p (map snd l)) = List.length (filter q (map fst l)).
Proof.
  induction l as [|e l IH]; intros H; [reflexivity|].
  cbn [map filter]. rewrite (H e (or_introl eq_refl)).
  assert (IH' := IH (fun e' He' => H e' (or_intror He'))).
  destruct (q (fst e)); cbn [List.length]; now rewrite IH'.
Qed.

Section Sorting.

Variable localeCompare : string -> string -> Z.

Lemma insertByName_perm (x : Item) (l : list Item) :
  Permutation (x :: l) (insertByName localeCompare x l).
Proof.
  induction l as [|y r IH]; cbn; [reflexivity|].
  destruct (Z.ltb (localeCompare (it_name x) (it_name y)) 0); [reflexivity|].
  rewrite perm_swap. now constructor.
Qed.

Lemma fold_insert_perm (l acc : list Item) :
  Permutation (acc ++ l)
              (fold_left (fun sorted x => insertByName localeCompare x sorted) l acc).
Proof.
  revert acc. induction l as [|x l IH]; intros acc; cbn [fold_left].
  - now rewrite app_nil_r.
  - rewrite <- IH, <- insertByName_perm. symmetry. apply Permutation_middle.
Qed.

Lemma sortByName_perm (l : list Item) : Permutation l (sortByName localeCompare l).
Proof. exact (fold_insert_perm l []). Qed.

Lemma insertByName_ordered (x : Item) (l : list Item) :
  (forall a b, (localeCompare a b < 0)%Z -> (0 <= localeCompare b a)%Z) ->
  ordered localeCompare l -> ordered localeCompare (insertByName localeCompare x l).
Proof.
  intros Hasym. induction l as [|y r IH]; intros Ho; cbn [insertByName].
  - cbn. auto.
  - destruct (Z.ltb (localeCompare (it_name x) (it_name y)) 0) eqn:E.
    + apply Z.ltb_lt in E. cbn [ordered]. split; [auto | exact Ho].
    + apply Z.ltb_ge in E. cbn [ordered] in Ho. destruct Ho as [Hy Hr].
      specialize (IH Hr). cbn [ordered]. split; [|exact IH].
      destruct r as [|z r']; cbn [insertByName].
      * exact E.
      * destruct (Z.ltb (localeCompare (it_name x) (it_name z)) 0); assumption.
Qed.

Lemma sortByName_ordered (l : list Item) :
  (forall a b, (localeCompare a b < 0)%Z -> (0 <= localeCompare b a)%Z) ->
  ordered localeCompare (sortByName localeCompare l).
Proof.
  intros Hasym. unfold sortByName.
  assert (H0 : ordered localeCompare []) by exact I.
  revert H0. generalize (@nil Item).
  induction l as [|x l IH]; intros acc Hacc; cbn [fold_left]; [assumption|].
  apply IH. now apply insertByName_ordered.
Qed.

Lemma flat_totals (a i w : Features) :
  let r := compareFeatures localeCompare a i w in
  r_consistent r + r_inconsistent r = List.length (distinctNames a i w)
  /\ List.length (r_mapping_text r) + List.length (r_mapping_buttons r)
     = List.length (distinctNames a i w)
  /\ r_consistent r
     = List.length (filter (fun k => hasName a k && hasName i k && hasName w k)
                           (distinctNames a i w)).
Proof.
  intros r. subst r. unfold compareFeatures.
  cbn [r_consistent r_inconsistent r_mapping_text r_mapping_buttons].
  fold (built a i w).
  destruct (tally_fold (map snd (built a i w))
              {| consistent := 0; inconsistent := 0;
                 mapping_text := []; mapping_buttons := [] |}) as [H1 [H2 H3]].
  cbn [consistent inconsistent mapping_text mapping_buttons] in H1, H2, H3.
  rewrite <- !(Permutation_length (sortByName_perm _)).
  assert (L : List.length (map snd (built a i w)) = List.length (distinctNames a i w)).
  { now rewrite <- built_keys, !length_map. }
  cbn [List.length] in H2, H3.
  split; [lia | split; [lia|]].
  rewrite H1. cbn [Nat.add].
  rewrite <- built_keys.
  apply filter_snd_fst. intros e He. unfold threefold.
  rewrite (entry_platforms a i w e He). unfold platformsOf.
  destruct (hasName a (fst e)); destruct (hasName i (fst e));
    destruct (hasName w (fst e)); reflexivity.
Qed.

(** In the flat mode the totals count names: consistent + inconsistent is
    the number of distinct feature names of the three platforms, which is
    also the number of items of the two mapping lists; a name is consistent
    exactly when each platform has a feature of that name, of whatever
    category. *)
Theorem flat_totals_count_names (a i w : Features) :
  let r := compareFeatures localeCompare a i w in
  r_consistent r + r_inconsistent r = List.length (distinctNames a i w)
  /\ List.length (r_mapping_text r) + List.length (r_mapping_buttons r)
     = List.length (distinctNames a i w)
  /\ r_consistent r
     = List.length (filter (fun k => hasName a k && hasName i k && hasName w k)
                           (distinctNames a i w)).
Proof.
  intros r. destruct (flat_totals a i w) as [H1 [H2 H3]].
  split; [exact H1 | split; [exact H2 | exact H3]].
Qed.

(** When the comparison of names never puts two names each before the other,
    the two mapping lists come out with no two neighbours in the wrong
    order. *)
Theorem flat_mapping_is_sorted (a i w : Features) :
  (forall x y, (localeCompare x y < 0)%Z -> (0 <= localeCompare y x)%Z) ->
  ordered localeCompare (r_mapping_text (compareFeatures localeCompare a i w))
  /\ ordered localeCompare (r_mapping_buttons (compareFeatures localeCompare a i w)).
Proof.
  intros Hasym. unfold compareFeatures. cbn [r_mapping_text r_mapping_buttons].
  split; now apply sortByName_ordered.
Qed.

End Sorting.

Lemma byCharacters_asym (x y : string) :
  (byCharacters x y < 0)%Z -> (0 <= byCharacters y x)%Z.
Proof.
  unfold byCharacters. rewrite (String.compare_antisym y x).
  destruct (String.compare x y); cbn; lia.
Qed.

Lemma flat_mapping_is_sorted_witness :
  let a := extractFeatures
             (mkNode "0" "Screen" "FRAME" ""
                [mkNode "1" "t1" "TEXT" "Zurich" []; mkNode "2" "t2" "TEXT" "Athens" []]) in
  map it_name (r_mapping_text (compareFeatures byCharacters a a a)) = ["Athens"; "Zurich"]
  /\ ordered byCharacters (r_mapping_text (compareFeatures byCharacters a a a)).
Proof.
  intros a. split; [reflexivity|].
  exact (proj1 (flat_mapping_is_sorted byCharacters a a a byCharacters_asym)).
Defined.

(** A design compared with itself has no inconsistent name, and a comparison
    in which one platform has no feature has no consistent name. *)
Theorem flat_extremes (localeCompare : string -> string -> Z) (a i w : Features) :
  r_inconsistent (compareFeatures localeCompare a a a) = 0
  /\ (all a = [] \/ all i = [] \/ all w = [] ->
      r_consistent (compareFeatures localeCompare a i w) = 0).
Proof.
  split.
  - destruct (flat_totals localeCompare a a a) as [H1 [_ H3]].
    cbn zeta in *.
    assert (E : filter (fun k => hasName a k && hasName a k && hasName a k)
                       (distinctNames a a a) = distinctNames a a a).
    { apply forallb_filter_id. apply forallb_forall. intros k Hk.
      unfold distinctNames in Hk. apply (proj1 (ReconcilerFacts.setOfList_In _ _)) in Hk.
      rewrite !in_app_iff in Hk.
      assert (H : hasName a k = true).
      { apply ReconcilerFacts.existsb_eqb_In. tauto. }
      now rewrite H. }
    rewrite E in H3. lia.
  - intros H. destruct (flat_totals localeCompare a i w) as [_ [_ H3]].
    cbn zeta in H3. rewrite H3.
    assert (E : forall k, hasName a k && hasName i k && hasName w k = false).
    { intros k. unfold hasName, names.
      destruct H as [-> | [-> | ->]]; cbn; rewrite ?andb_false_r; reflexivity. }
    clear H3. induction (distinctNames a i w) as [|k l IH]; [reflexivity|].
    cbn [filter]. now rewrite E.
Qed.

Lemma flat_extremes_witness :
  r_consistent (compareFeatures byCharacters
                  (extractFeatures (mkNode "1" "t1" "TEXT" "Zurich" []))
                  (extractFeatures (mkNode "2" "t2" "TEXT" "Zurich" []))
                  emptyFeatures) = 0.
Proof.
  apply (proj2 (flat_extremes byCharacters
                  (extractFeatures (mkNode "1" "t1" "TEXT" "Zurich" []))
                  (extractFeatures (mkNode "2" "t2" "TEXT" "Zurich" []))
                  emptyFeatures)).
  right. right. reflexivity.
Defined.

End FlatCompareFacts.

(** ** The structural-group extractor, node by node *)

Module GroupExtraFacts.

Import AnalyzerNode GroupSpec GroupExtraSpec.

Lemma appendFeatures_empty_r (f : Features) : appendFeatures f emptyFeatures = f.
Proof. destruct f. unfold appendFeatures. cbn. now rewrite !app_nil_r. Qed.

Lemma appendFeatures_empty_l (f : Features) : appendFeatures emptyFeatures f = f.
Proof. now destruct f. Qed.

Lemma appendFeatures_assoc (f g h : Features) :
  appendFeatures (appendFeatures f g) h = appendFeatures f (appendFeatures g h).
Proof. unfold appendFeatures. cbn. now rewrite !app_assoc. Qed.

Lemma visit_appends (node : DesignNode) (features : Features) :
  visit node features = appendFeatures features (own node).
Proof.
  destruct features as [t b g]. unfold own, visit, appendFeatures.
  repeat match goal with |- context [if ?c then _ else _] => destruct c end;
    cbn; rewrite ?app_nil_r; reflexivity.
Qed.

Lemma fold_appends (children : list DesignNode) :
  Forall (fun child => forall features,
              extractFeaturesFrom child features
              = appendFeatures features (extractFeatures child)) children ->
  forall features,
    fold_left (fun acc child => extractFeaturesFrom child acc) children features
    = fold_left (fun acc child => appendFeatures acc (extractFeatures child))
                children features.
Proof.
  induction 1 as [|child rest Hchild _ IH]; intros features; cbn [fold_left]; [reflexivity|].
  now rewrite Hchild, IH.
Qed.

Lemma fold_append_shift (l : list Features) (f g : Features) :
  fold_left appendFeatures l (appendFeatures f g)
  = appendFeatures f (fold_left appendFeatures l g).
Proof.
  revert g. induction l as [|x l IH]; intros g; cbn [fold_left]; [reflexivity|].
  now rewrite appendFeatures_assoc, IH.
Qed.

Lemma fold_append_map (children : list DesignNode) (features : Features) :
  fold_left (fun acc child => appendFeatures acc (extractFeatures child)) children features
  = fold_left appendFeatures (map extractFeatures children) features.
Proof.
  revert features. induction children as [|c cs IH]; intros features; cbn; auto.
Qed.

(** Extraction into an accumulator appends what extraction from nothing
    gives. *)
Lemma extractFeaturesFrom_appends (node : DesignNode) :
  forall features,
    extractFeaturesFrom node features = appendFeatures features (extractFeatures node).
Proof.
  induction node as [i n t c cs IH] using DesignNode_nested_ind. intros features.
  unfold extractFeatures. cbn [extractFeaturesFrom].
  rewrite !(fold_appends cs IH), !fold_append_map.
  rewrite (visit_appends _ features), fold_append_shift.
  reflexivity.
Qed.

Lemma extractFeatures_unfold i n t c cs :
  extractFeatures (mkNode i n t c cs)
  = fold_left appendFeatures (map extractFeatures cs) (own (mkNode i n t c cs)).
Proof.
  unfold extractFeatures at 1. cbn [extractFeaturesFrom].
  rewrite (fold_appends cs), fold_append_map; [reflexivity|].
  apply Forall_forall. intros child _. apply extractFeaturesFrom_appends.
Qed.

Lemma fold_append_flat {A} (proj : Features -> list A) (l : list Features) (f : Features) :
  (forall x y, proj (appendFeatures x y) = proj x ++ proj y) ->
  proj (fold_left appendFeatures l f) = proj f ++ flat_map proj l.
Proof.
  intros Hp. revert f. induction l as [|x l IH]; intros f; cbn [fold_left flat_map].
  - now rewrite app_nil_r.
  - now rewrite IH, Hp, app_assoc.
Qed.

Lemma flat_map_flat_map {A B C} (f : A -> list B) (g : B -> list C) (l : list A) :
  flat_map g (flat_map f l) = flat_map (fun a => flat_map g (f a)) l.
Proof.
  induction l as [|a l IH]; cbn; [reflexivity|].
  now rewrite flat_map_app, IH.
Qed.

(** Each list of an extraction is the concatenation, in document order, of
    what the nodes add on their own. *)
Lemma extraction_by_nodes {A} (proj : Features -> list A) :
  (forall x y, proj (appendFeatures x y) = proj x ++ proj y) ->
  forall node,
    proj (extractFeatures node) = flat_map (fun n => proj (own n)) (allNodes node).
Proof.
  intros Hp. induction node as [i n t c cs IH] using DesignNode_nested_ind.
  rewrite extractFeatures_unfold, (fold_append_flat proj _ _ Hp).
  cbn [allNodes flat_map]. f_equal.
  rewrite flat_map_flat_map, flat_map_concat_map, map_map, <- flat_map_concat_map.
  induction IH as [|child rest Hchild _ IHrest]; cbn [flat_map]; [reflexivity|].
  now rewrite Hchild, IHrest.
Qed.

(** Extraction into an accumulator appends to it what extraction from
    nothing gives; and the groups, the texts and the buttons of an extraction
    are, in document order, what each node of the tree adds on its own. *)
Theorem extraction_is_node_by_node (node : DesignNode) (features : Features) :
  extractFeaturesFrom node features = appendFeatures features (extractFeatures node)
  /\ groups (extractFeatures node) = flat_map (fun n => groups (own n)) (allNodes node)
  /\ text (extractFeatures node) = flat_map (fun n => text (own n)) (allNodes node)
  /\ buttons (extractFeatures node) = flat_map (fun n => buttons (own n)) (allNodes node).
Proof.
  split; [apply extractFeaturesFrom_appends|].
  repeat split; apply extraction_by_nodes; reflexivity.
Qed.

Lemma own_groups (node : DesignNode) :
  groups (own node) = if tracksGroup node then [groupOf node] else [].
Proof. unfold own. now rewrite GroupFacts.visit_groups. Qed.

Lemma group_origin (node : DesignNode) (g : Group) :
  In g (groups (extractFeatures node)) ->
  exists n, In n (allNodes node) /\ tracksGroup n = true /\ g = groupOf n.
Proof.
  rewrite (extraction_by_nodes groups (fun _ _ => eq_refl)), in_flat_map.
  intros [n [Hn Hg]]. rewrite own_groups in Hg.
  destruct (tracksGroup n) eqn:T; [|destruct Hg].
  destruct Hg as [<- | []]. now exists n.
Qed.

Lemma groupOf_invariant (n : DesignNode) : tracksGroup n = true -> groupInvariant (groupOf n).
Proof.
  unfold tracksGroup. intros H. apply andb_prop in H as [Hc Hq].
  unfold groupInvariant, wellFormed, groupOf.
  cbn [g_signature g_recipe r_text r_buttons r_total g_type g_name].
  split; [reflexivity|]. split; [apply filter_length_le|]. split; [apply filter_length_le|].
  split; [now apply JsFacts.arrayIncludes_In|]. split.
  - apply orb_prop in Hq as [Hq | Hq]; [apply orb_prop in Hq as [Hq | Hq]|].
    + left. apply Nat.ltb_lt in Hq. lia.
    + right. left. now apply String.eqb_eq.
    + right. right. now apply String.eqb_eq.
  - unfold Js.orElse. destruct (node_name n); cbn; discriminate.
Qed.

(** Every extracted group carries the signature of its recipe, counts no
    more texts and no more buttons than it has children, comes from a
    container type, has two children at least unless it is a COMPONENT or an
    INSTANCE, and has a name. *)
Theorem extracted_groups_invariant (node : DesignNode) :
  Forall groupInvariant (groups (extractFeatures node)).
Proof.
  apply Forall_forall. intros g Hg.
  destruct (group_origin node g Hg) as [n [_ [T ->]]].
  now apply groupOf_invariant.
Qed.

Lemma substring0_nonempty (n : nat) (s : string) :
  s <> EmptyString -> Js.substring0 (S n) s <> EmptyString.
Proof. destruct s; [congruence | cbn; discriminate]. Qed.

Lemma own_text (n : DesignNode) :
  text (own n) =
  if node_type n =? "TEXT" then
    if Js.truthy (node_characters n) && Js.truthy (Js.trim (node_characters n)) then
      [ {| t_name := Js.orElse (node_name n) (Js.substring0 30 (node_characters n));
           t_text := node_characters n; t_id := node_id n |} ]
    else []
  else [].
Proof.
  unfold own, visit.
  repeat match goal with |- context [if ?c then _ else _] => destruct c end;
    reflexivity.
Qed.

Lemma own_buttons (n : DesignNode) :
  buttons (own n) =
  if Js.includesSome (Js.toLowerCase (node_name n)) buttonKeywords
     && negb (node_type n =? "TEXT")
  then [ {| b_name := node_name n; b_id := node_id n; b_type := node_type n |} ]
  else [].
Proof.
  unfold own, visit.
  repeat match goal with |- context [if ?c then _ else _] => destruct c end;
    reflexivity.
Qed.

(** Every extracted text comes with characters that are not blank and with a
    name; every extracted button has a name with one of the four button
    words and is not a TEXT node. *)
Theorem extracted_texts_and_buttons (node : DesignNode) :
  Forall (fun t => Js.trim (t_text t) <> EmptyString /\ t_name t <> EmptyString)
         (text (extractFeatures node))
  /\ Forall (fun b => b_type b <> "TEXT"
                      /\ Js.includesSome (Js.toLowerCase (b_name b)) buttonKeywords = true)
            (buttons (extractFeatures node)).
Proof.
  split; apply Forall_forall.
  - intros x Hx. rewrite (extraction_by_nodes text (fun _ _ => eq_refl)), in_flat_map in Hx.
    destruct Hx as [n [_ Hx]]. rewrite own_text in Hx.
    destruct (node_type n =? "TEXT"); [|destruct Hx].
    destruct (Js.truthy (node_characters n) && Js.truthy (Js.trim (node_characters n)))
      eqn:T; [|destruct Hx].
    destruct Hx as [<- | []]. cbn [t_text t_name].
    apply andb_prop in T as [T1 T2].
    apply JsFacts.truthy_true in T1. apply JsFacts.truthy_true in T2.
    split; [assumption|].
    unfold Js.orElse. destruct (Js.truthy (node_name n)) eqn:N.
    + now apply JsFacts.truthy_true.
    + now apply substring0_nonempty.
  - intros x Hx. rewrite (extraction_by_nodes buttons (fun _ _ => eq_refl)), in_flat_map in Hx.
    destruct Hx as [n [_ Hx]]. rewrite own_buttons in Hx.
    destruct (Js.includesSome (Js.toLowerCase (node_name n)) buttonKeywords
              && negb (node_type n =? "TEXT")) eqn:K; [|destruct Hx].
    destruct Hx as [<- | []]. cbn [b_type b_name].
    apply andb_prop in K as [K1 K2]. apply negb_true_iff, String.eqb_neq in K2.
    split; assumption.
Qed.

(** *** The identity of a group *)

Lemma freeOf_app (c : ascii) (a b : string) :
  freeOf c (a ++ b)%string = freeOf c a && freeOf c b.
Proof. induction a as [|x a IH]; cbn; [reflexivity | now rewrite IH, andb_assoc]. Qed.

Lemma digits_free_of_bar (s : string) :
  JsSpec.allDigits s = true -> freeOf "|" s = true.
Proof.
  induction s as [|x s IH]; cbn; [reflexivity|]. intros H.
  apply andb_prop in H as [Hx Hs]. rewrite (IH Hs), andb_true_r.
  destruct (Ascii.eqb x "|") eqn:E; [|reflexivity].
  apply Ascii.eqb_eq in E. subst x. discriminate Hx.
Qed.

Lemma signature_free_of_bar (t b : nat) : freeOf "|" (signatureOf t b) = true.
Proof.
  unfold signatureOf.
  change ("T" ++ Js.ofNat t ++ "B" ++ Js.ofNat b)%string
    with (String "T" (Js.ofNat t ++ String "B" (Js.ofNat b)))%string.
  cbn [freeOf]. rewrite freeOf_app. cbn [freeOf].
  rewrite !digits_free_of_bar by apply JsFacts.allDigits_ofNat. reflexivity.
Qed.

Lemma last_separator (c : ascii) (s1 s2 t1 t2 : string) :
  freeOf c t1 = true -> freeOf c t2 = true ->
  (s1 ++ String c t1)%string = (s2 ++ String c t2)%string ->
  s1 = s2 /\ t1 = t2.
Proof.
  revert s2. induction s1 as [|x s1 IH]; intros [|y s2] F1 F2 E; cbn in E.
  - injection E as ->. auto.
  - injection E as <- ->. rewrite freeOf_app in F1. cbn in F1.
    rewrite Ascii.eqb_refl in F1. cbn in F1. now rewrite andb_false_r in F1.
  - injection E as -> <-. rewrite freeOf_app in F2. cbn in F2.
    rewrite Ascii.eqb_refl in F2. cbn in F2. now rewrite andb_false_r in F2.
  - injection E as -> E. destruct (IH s2 F1 F2 E) as [-> ->]. auto.
Qed.

(** On groups that carry the signature of their recipe, the identity is a
    key: two groups have the same identity exactly when they have the same
    name, the same number of texts and the same number of buttons. *)
Theorem identity_is_a_key (g g' : Group) :
  wellFormed g -> wellFormed g' ->
  (getIdentity g = getIdentity g'
   <-> g_name g = g_name g'
       /\ r_text (g_recipe g) = r_text (g_recipe g')
       /\ r_buttons (g_recipe g) = r_buttons (g_recipe g')).
Proof.
  intros W W'. unfold getIdentity. rewrite W, W'. split.
  - intros E.
    change (g_name g ++ String "|" (signatureOf (r_text (g_recipe g))
                                                (r_buttons (g_recipe g)))
            = g_name g' ++ String "|" (signatureOf (r_text (g_recipe g'))
                                                   (r_buttons (g_recipe g'))))%string
      in E.
    apply last_separator in E; try apply signature_free_of_bar.
    destruct E as [En Es]. apply MatcherFacts.signatureOf_inj in Es. tauto.
  - intros [-> [-> ->]]. reflexivity.
Qed.

Lemma identity_is_a_key_witness :
  getIdentity (groupOf (mkNode "1" "Card" "INSTANCE" "" []))
  = getIdentity (groupOf (mkNode "2" "Card" "COMPONENT" ""
                            [mkNode "3" "Title" "TEXT" "Paris" []]))
  <-> "Card" = "Card" /\ 0 = 1 /\ 0 = 0.
Proof.
  exact (identity_is_a_key
           (groupOf (mkNode "1" "Card" "INSTANCE" "" []))
           (groupOf (mkNode "2" "Card" "COMPONENT" ""
                       [mkNode "3" "Title" "TEXT" "Paris" []]))
           eq_refl eq_refl).
Defined.

End GroupExtraFacts.

(** ** The reconciler: entries and totals *)

Module ReconcilerExtraFacts.

Import AnalyzerNode ReconcilerSpec ReconcilerExtraSpec ReconcilerFacts.

(** The names returned by the search for equivalents are pairwise distinct,
    never the name of the target, and exactly the names of the groups of
    another name that share a keyword with the target. *)
Theorem semantic_equivalents_spec (t : TargetData) (a i w : list Group) :
  NoDup (findSemanticEquivalents t a i w)
  /\ ~ In (td_name t) (findSemanticEquivalents t a i w)
  /\ (forall n, In n (findSemanticEquivalents t a i w)
                <-> exists g kw, In g (a ++ i ++ w) /\ g_name g = n /\ n <> td_name t
                                 /\ In kw (keywordsOf t) /\ In kw (g_semanticKeywords g)).
Proof.
  assert (M : forall n, In n (findSemanticEquivalents t a i w)
                <-> exists g kw, In g (a ++ i ++ w) /\ g_name g = n /\ n <> td_name t
                                 /\ In kw (keywordsOf t) /\ In kw (g_semanticKeywords g)).
  { intros n. unfold findSemanticEquivalents, keywordsOf.
    destruct (match td_semanticKeywords t with Some k => k | None => [] end)
      as [|k0 ks] eqn:K.
    - split; [intros [] | intros [g [kw [_ [_ [_ [[] _]]]]]]].
    - rewrite setOfList_In, in_map_iff. split.
      + intros [g [Hn Hg]]. apply filter_In in Hg as [Hin Hc].
        apply andb_prop in Hc as [Hk Hne].
        apply existsb_exists in Hk as [kw [Hkw Hinc]].
        apply JsFacts.arrayIncludes_In in Hinc.
        apply negb_true_iff, String.eqb_neq in Hne.
        exists g, kw. subst n. auto.
      + intros [g [kw [Hin [Hn [Hne [Hkw Hinc]]]]]]. exists g. split; [assumption|].
        apply filter_In. split; [assumption|]. apply andb_true_intro. split.
        * apply existsb_exists. exists kw. split; [assumption|].
          now apply JsFacts.arrayIncludes_In.
        * apply negb_true_iff, String.eqb_neq. congruence. }
  split; [|split; [|exact M]].
  - unfold findSemanticEquivalents.
    destruct (match td_semanticKeywords t with Some k => k | None => [] end);
      [constructor | apply setOfList_NoDup].
  - intros H. apply M in H as [g [kw [_ [_ [Hne _]]]]]. now apply Hne.
Qed.

(** *** Semantic keywords *)

Lemma lowerAscii_twice (c : ascii) : Js.lowerAscii (Js.lowerAscii c) = Js.lowerAscii c.
Proof. destruct c as [[] [] [] [] [] [] [] []]; reflexivity. Qed.

Lemma toLowerCase_twice (s : string) :
  Js.toLowerCase (Js.toLowerCase s) = Js.toLowerCase s.
Proof. induction s as [|c s IH]; cbn; [reflexivity | now rewrite lowerAscii_twice, IH]. Qed.

Lemma kept_keys_distinct {K V} (keep : K * V -> bool) :
  forall entries : list (K * V),
    NoDup (map fst entries) -> NoDup (map fst (filter keep entries)).
Proof.
  intros entries. induction entries as [|e entries IH]; cbn [map filter]; intros ND.
  - constructor.
  - apply NoDup_cons_iff in ND as [Hfresh ND]. specialize (IH ND).
    destruct (keep e); cbn [map]; [|exact IH].
    constructor; [|exact IH]. intros Hin. apply Hfresh.
    apply in_map_iff in Hin as [e' [He' Hin]]. apply filter_In in Hin as [Hin _].
    rewrite <- He'. now apply in_map.
Qed.

(** The semantic keywords of a name are categories of the vocabulary, each
    at most once, in the order of the vocabulary; they do not depend on the
    case of the name; and a category is among them exactly when one of its
    terms occurs in the lowercased name. *)
Theorem semantic_keywords_spec (name : string) :
  NoDup (extractSemanticKeywords name)
  /\ List.length (extractSemanticKeywords name) <= 8
  /\ extractSemanticKeywords (Js.toLowerCase name) = extractSemanticKeywords name
  /\ (forall category,
         In category (extractSemanticKeywords name)
         <-> exists terms term,
               In (category, terms) semanticMap /\ In term terms
               /\ Js.includes (Js.toLowerCase name) term = true).
Proof.
  unfold extractSemanticKeywords. split; [|split; [|split]].
  - apply kept_keys_distinct. cbn. repeat constructor; cbn; intuition discriminate.
  - rewrite length_map. etransitivity; [apply filter_length_le | reflexivity].
  - now rewrite toLowerCase_twice.
  - intros category. rewrite in_map_iff. split.
    + intros [[c terms] [<- Hin]]. apply filter_In in Hin as [Hin Hp].
      unfold Js.includesSome in Hp. apply existsb_exists in Hp as [term [Ht Hi]].
      exists terms, term. auto.
    + intros [terms [term [Hin [Ht Hi]]]]. exists (category, terms).
      split; [reflexivity|]. apply filter_In. split; [assumption|].
      apply existsb_exists. exists term. auto.
Qed.

(** *** One entry for each identity *)

Lemma present_three (x y z : nat) :
  (List.length ((if (0 <? x)%nat then [Android] else [])
                ++ (if (0 <? y)%nat then [iOS] else [])
                ++ (if (0 <? z)%nat then [Web] else [])) =? 3)%nat
  = (0 <? x)%nat && (0 <? y)%nat && (0 <? z)%nat.
Proof. destruct (0 <? x)%nat, (0 <? y)%nat, (0 <? z)%nat; reflexivity. Qed.

Lemma compareIdentity_split (a i w : list Group) (r : Results) (d : IdentityData) :
  consistent (compareIdentity a i w r d)
  = consistent r + (if perfectData d then c_Android (i_counts d) else 0)
  /\ inconsistent (compareIdentity a i w r d)
     = inconsistent r + (if perfectData d then 0 else peakOfData d)
  /\ List.length (mapping_text (compareIdentity a i w r d))
     = List.length (mapping_text r) + 1.
Proof.
  unfold compareIdentity, perfectData, peakOfData, max3.
  rewrite findSemanticEquivalents_of_identity, present_three.
  change (0 <? List.length (@nil string))%nat with false.
  destruct (0 <? c_Android (i_counts d))%nat, (0 <? c_iOS (i_counts d))%nat,
    (0 <? c_Web (i_counts d))%nat,
    (c_Android (i_counts d) =? c_iOS (i_counts d))%nat,
    (c_iOS (i_counts d) =? c_Web (i_counts d))%nat;
    cbn; rewrite ?length_app; cbn; repeat split; lia.
Qed.

Lemma compareIdentity_shape (a i w : list Group) (r : Results) (d : IdentityData) :
  Forall entryShape (mapping_text r) ->
  Forall entryShape (mapping_text (compareIdentity a i w r d)).
Proof.
  intros H. unfold compareIdentity.
  rewrite findSemanticEquivalents_of_identity, present_three.
  change (0 <? List.length (@nil string))%nat with false.
  destruct (0 <? c_Android (i_counts d))%nat eqn:EA;
    destruct (0 <? c_iOS (i_counts d))%nat eqn:EI;
    destruct (0 <? c_Web (i_counts d))%nat eqn:EW;
    destruct (c_Android (i_counts d) =? c_iOS (i_counts d))%nat eqn:E1;
    destruct (c_iOS (i_counts d) =? c_Web (i_counts d))%nat eqn:E2;
    cbn; apply Forall_app; (split; [assumption|]); constructor; try constructor;
    unfold entryShape; cbn;
    rewrite ?Nat.eqb_eq, ?Nat.eqb_neq, ?Nat.ltb_lt, ?Nat.ltb_ge in *;
    try (replace (c_Android (i_counts d) =? 0)%nat with true
           by (symmetry; apply Nat.eqb_eq; lia));
    try (replace (c_Android (i_counts d) =? 0)%nat with false
           by (symmetry; apply Nat.eqb_neq; lia));
    try (replace (c_iOS (i_counts d) =? 0)%nat with true
           by (symmetry; apply Nat.eqb_eq; lia));
    try (replace (c_iOS (i_counts d) =? 0)%nat with false
           by (symmetry; apply Nat.eqb_neq; lia));
    try (replace (c_Web (i_counts d) =? 0)%nat with true
           by (symmetry; apply Nat.eqb_eq; lia));
    try (replace (c_Web (i_counts d) =? 0)%nat with false
           by (symmetry; apply Nat.eqb_neq; lia));
    cbn;
    repeat split; try discriminate; try lia;
    try (eexists; split; [|reflexivity]; lia);
    try (match goal with p : Platform |- _ => destruct p end;
         intuition (discriminate || auto)).
Qed.

Lemma fold_compare_split (a i w : list Group) (ds : list IdentityData) (r : Results) :
  consistent (fold_left (compareIdentity a i w) ds r)
  = consistent r
    + list_sum (map (fun d => if perfectData d then c_Android (i_counts d) else 0) ds)
  /\ inconsistent (fold_left (compareIdentity a i w) ds r)
     = inconsistent r
       + list_sum (map (fun d => if perfectData d then 0 else peakOfData d) ds)
  /\ List.length (mapping_text (fold_left (compareIdentity a i w) ds r))
     = List.length (mapping_text r) + List.length ds
  /\ (Forall entryShape (mapping_text r) ->
      Forall entryShape (mapping_text (fold_left (compareIdentity a i w) ds r))).
Proof.
  revert r. induction ds as [|d ds IH]; intros r; cbn [fold_left map List.length].
  - cbn. repeat split; auto; lia.
  - destruct (IH (compareIdentity a i w r d)) as [H1 [H2 [H3 H4]]].
    destruct (compareIdentity_split a i w r d) as [S1 [S2 S3]].
    change (list_sum (?x :: ?l)) with (x + list_sum l).
    repeat split; try lia.
    intros H. apply H4. now apply compareIdentity_shape.
Qed.

Lemma counts_of_entry (a i w : list Group) (e : string * IdentityData) :
  In e (buildIdentities a i w) ->
  c_Android (i_counts (snd e)) = occurrences (fst e) a
  /\ c_iOS (i_counts (snd e)) = occurrences (fst e) i
  /\ c_Web (i_counts (snd e)) = occurrences (fst e) w.
Proof.
  intros Hin.
  assert (ND : NoDup (map fst (buildIdentities a i w))).
  { rewrite buildIdentities_keys. apply setOfList_NoDup. }
  pose proof (get_of_entry _ ND e Hin) as G.
  destruct (buildIdentities_counts a i w (fst e)) as [HA [HI HW]].
  unfold countAt in HA, HI, HW. rewrite G in HA, HI, HW. cbn in HA, HI, HW. auto.
Qed.

Lemma sum_over_identities (a i w : list Group) (f : IdentityData -> nat)
    (g : string -> nat) :
  (forall e, In e (buildIdentities a i w) -> f (snd e) = g (fst e)) ->
  list_sum (map f (map snd (buildIdentities a i w)))
  = list_sum (map g (distinctIdentities a i w)).
Proof.
  intros H. rewrite <- buildIdentities_keys, !map_map. f_equal.
  now apply map_ext_in.
Qed.

(** The closed form of the two totals. *)
Lemma totals_closed_form (a i w : Features) :
  consistent (compareFeatures a i w)
  = list_sum (map (fun k => if perfect (groups a) (groups i) (groups w) k
                            then occurrences k (groups a) else 0)
                  (distinctIdentities (groups a) (groups i) (groups w)))
  /\ inconsistent (compareFeatures a i w)
     = list_sum (map (fun k => if perfect (groups a) (groups i) (groups w) k
                               then 0 else peak (groups a) (groups i) (groups w) k)
                     (distinctIdentities (groups a) (groups i) (groups w))).
Proof.
  unfold compareFeatures.
  match goal with |- context [fold_left _ _ ?r0] =>
    destruct (fold_compare_split (groups a) (groups i) (groups w)
                (map snd (buildIdentities (groups a) (groups i) (groups w))) r0)
      as [H1 [H2 _]]
  end.
  rewrite H1, H2. cbn [consistent inconsistent Nat.add].
  split; apply sum_over_identities; intros e He;
    destruct (counts_of_entry _ _ _ e He) as [HA [HI HW]];
    unfold perfectData, perfect, peakOfData, peak; now rewrite HA, HI, HW.
Qed.

(** *** Counting *)

Lemma list_sum_zero {A} (l : list A) : list_sum (map (fun _ => 0) l) = 0.
Proof. induction l as [|x l IH]; [reflexivity | exact IH]. Qed.

Lemma list_sum_add {A} (f g : A -> nat) (l : list A) :
  list_sum (map (fun x => f x + g x) l) = list_sum (map f l) + list_sum (map g l).
Proof.
  induction l as [|x l IH]; [reflexivity|].
  change (f x + g x + list_sum (map (fun x => f x + g x) l)
          = f x + list_sum (map f l) + (g x + list_sum (map g l))).
  lia.
Qed.

Lemma list_sum_le {A} (f g : A -> nat) (l : list A) :
  (forall x, In x l -> f x <= g x) -> list_sum (map f l) <= list_sum (map g l).
Proof.
  induction l as [|x l IH]; intros H; [cbn; lia|].
  change (f x + list_sum (map f l) <= g x + list_sum (map g l)).
  specialize (H x (or_introl eq_refl)) as Hx.
  assert (IH' := IH (fun y Hy => H y (or_intror Hy))). lia.
Qed.

Lemma list_sum_ext {A} (f g : A -> nat) (l : list A) :
  (forall x, In x l -> f x = g x) -> list_sum (map f l) = list_sum (map g l).
Proof. intros H. f_equal. now apply map_ext_in. Qed.

Lemma list_sum_perm (l l' : list nat) : Permutation l l' -> list_sum l = list_sum l'.
Proof.
  induction 1 as [| x l l' _ IH | x y l | l l' l'' _ IH1 _ IH2].
  - reflexivity.
  - change (x + list_sum l = x + list_sum l'). lia.
  - change (y + (x + list_sum l) = x + (y + list_sum l)). lia.
  - lia.
Qed.

Lemma indicator_sum (j : string) (ks : list string) :
  NoDup ks -> In j ks -> list_sum (map (fun k => if j =? k then 1 else 0) ks) = 1.
Proof.
  induction ks as [|k ks IH]; intros ND Hin; [destruct Hin|].
  apply NoDup_cons_iff in ND as [Hk ND].
  change ((if j =? k then 1 else 0)
          + list_sum (map (fun k => if j =? k then 1 else 0) ks) = 1).
  destruct (j =? k) eqn:E.
  - apply String.eqb_eq in E. subst k.
    rewrite (list_sum_ext _ (fun _ => 0)), list_sum_zero; [reflexivity|].
    intros x Hx. destruct (j =? x) eqn:E; [|reflexivity].
    apply String.eqb_eq in E. subst x. contradiction.
  - destruct Hin as [-> | Hin]; [now rewrite String.eqb_refl in E|].
    now rewrite IH.
Qed.

(** Summed over a duplicate-free list of identities that covers the groups,
    the occurrences count each group once. *)
Lemma sum_occurrences (ks : list string) (l : list Group) :
  NoDup ks -> (forall g, In g l -> In (getIdentity g) ks) ->
  list_sum (map (fun k => occurrences k l) ks) = List.length l.
Proof.
  intros ND. induction l as [|g l IH]; intros Hcov.
  - apply list_sum_zero.
  - rewrite (list_sum_ext _ (fun k => (if getIdentity g =? k then 1 else 0)
                                      + occurrences k l))
      by (intros; apply occurrences_cons).
    rewrite list_sum_add, indicator_sum, IH; auto.
    + intros g' Hg'. apply Hcov. now right.
    + apply Hcov. now left.
Qed.

Lemma distinct_covers (a i w : list Group) (g : Group) :
  In g (a ++ i ++ w) -> In (getIdentity g) (distinctIdentities a i w).
Proof. intros H. apply setOfList_In. now apply in_map. Qed.

Lemma distinct_perm (a i w a' i' w' : list Group) :
  (forall k, In k (map getIdentity (a ++ i ++ w))
             <-> In k (map getIdentity (a' ++ i' ++ w'))) ->
  Permutation (distinctIdentities a i w) (distinctIdentities a' i' w').
Proof.
  intros H. apply NoDup_Permutation; try apply setOfList_NoDup.
  intros k. unfold distinctIdentities. now rewrite !setOfList_In.
Qed.

(** The reconciler reports one entry for each distinct identity, and each
    entry is either perfect, on the three platforms with a positive count, or
    a warning that lists the platforms on which the identity is missing, or a
    warning with three counts that are not all equal; its status is never
    empty. *)
Theorem one_entry_per_identity (androidFeatures iosFeatures webFeatures : Features) :
  let r := compareFeatures androidFeatures iosFeatures webFeatures in
  List.length (mapping_text r)
  = List.length (distinctIdentities (groups androidFeatures) (groups iosFeatures)
                                    (groups webFeatures))
  /\ Forall entryShape (mapping_text r)
  /\ total (android r) = List.length (groups androidFeatures)
  /\ total (ios r) = List.length (groups iosFeatures)
  /\ total (web r) = List.length (groups webFeatures).
Proof.
  intros r. subst r. unfold compareFeatures.
  match goal with |- context [fold_left _ _ ?r0] =>
    destruct (fold_compare_split (groups androidFeatures) (groups iosFeatures)
                (groups webFeatures)
                (map snd (buildIdentities (groups androidFeatures) (groups iosFeatures)
                                          (groups webFeatures))) r0)
      as [_ [_ [H3 H4]]];
    assert (T : android (fold_left (compareIdentity (groups androidFeatures)
                                      (groups iosFeatures) (groups webFeatures))
                           (map snd (buildIdentities (groups androidFeatures)
                                       (groups iosFeatures) (groups webFeatures))) r0)
                = android r0
                /\ ios (fold_left (compareIdentity (groups androidFeatures)
                                     (groups iosFeatures) (groups webFeatures))
                          (map snd (buildIdentities (groups androidFeatures)
                                      (groups iosFeatures) (groups webFeatures))) r0)
                   = ios r0
                /\ web (fold_left (compareIdentity (groups androidFeatures)
                                     (groups iosFeatures) (groups webFeatures))
                          (map snd (buildIdentities (groups androidFeatures)
                                      (groups iosFeatures) (groups webFeatures))) r0)
                   = web r0)
  end.
  { generalize (map snd (buildIdentities (groups androidFeatures) (groups iosFeatures)
                                         (groups webFeatures))).
    intros ds.
    match goal with |- context [fold_left _ ds ?r0] => generalize r0 end.
    induction ds as [|d ds IH]; intros r0; cbn [fold_left]; [auto|].
    destruct (IH (compareIdentity (groups androidFeatures) (groups iosFeatures)
                                  (groups webFeatures) r0 d)) as [E1 [E2 E3]].
    rewrite E1, E2, E3. unfold compareIdentity.
    repeat match goal with |- context [if ?c then _ else _] => destruct c end;
      auto. }
  destruct T as [T1 [T2 T3]]. rewrite T1, T2, T3, H3.
  cbn [mapping_text List.length android ios web totalsOf total].
  rewrite length_map, <- buildIdentities_keys, length_map.
  repeat split. apply H4. constructor.
Qed.

(** The consistent total adds, for each perfect identity, its common count;
    the inconsistent total adds, for each other identity, the largest of its
    three counts; so the consistent total exceeds the number of groups of no
    platform. *)
Theorem totals_by_identity (androidFeatures iosFeatures webFeatures : Features) :
  let a := groups androidFeatures in
  let i := groups iosFeatures in
  let w := groups webFeatures in
  let r := compareFeatures androidFeatures iosFeatures webFeatures in
  consistent r
  = list_sum (map (fun k => if perfect a i w k then occurrences k a else 0)
                  (distinctIdentities a i w))
  /\ inconsistent r
     = list_sum (map (fun k => if perfect a i w k then 0 else peak a i w k)
                     (distinctIdentities a i w))
  /\ consistent r <= List.length a
  /\ consistent r <= List.length i
  /\ consistent r <= List.length w.
Proof.
  intros a i w r.
  destruct (totals_closed_form androidFeatures iosFeatures webFeatures) as [H1 H2].
  fold a i w r in H1, H2. split; [exact H1 | split; [exact H2|]].
  assert (ND : NoDup (distinctIdentities a i w)) by apply setOfList_NoDup.
  assert (Bound : forall l : list Group,
             (forall g, In g l -> In g (a ++ i ++ w)) ->
             (forall k, perfect a i w k = true -> occurrences k a = occurrences k l) ->
             consistent r <= List.length l).
  { intros l Hsub Hocc. rewrite H1.
    rewrite <- (sum_occurrences (distinctIdentities a i w) l ND)
      by (intros g Hg; apply distinct_covers; auto).
    apply list_sum_le. intros k _.
    destruct (perfect a i w k) eqn:P; [rewrite (Hocc k P)|]; lia. }
  repeat split; apply Bound.
  - intros g Hg. rewrite in_app_iff. auto.
  - reflexivity.
  - intros g Hg. rewrite !in_app_iff. auto.
  - intros k P. unfold perfect in P. rewrite !andb_true_iff, !Nat.eqb_eq in P. tauto.
  - intros g Hg. rewrite !in_app_iff. auto.
  - intros k P. unfold perfect in P. rewrite !andb_true_iff, !Nat.eqb_eq in P. lia.
Qed.

Lemma perfect_swap_12 (a i w : list Group) (k : string) :
  perfect a i w k = perfect i a w k.
Proof.
  apply Bool.eq_true_iff_eq. unfold perfect.
  rewrite !andb_true_iff, !Nat.ltb_lt, !Nat.eqb_eq. lia.
Qed.

Lemma perfect_swap_23 (a i w : list Group) (k : string) :
  perfect a i w k = perfect a w i k.
Proof.
  apply Bool.eq_true_iff_eq. unfold perfect.
  rewrite !andb_true_iff, !Nat.ltb_lt, !Nat.eqb_eq. lia.
Qed.

(** The two totals do not depend on which design is given as which platform:
    exchanging two of the three arguments leaves them unchanged. *)
Theorem totals_are_symmetric (a i w : Features) :
  consistent (compareFeatures a i w) = consistent (compareFeatures i a w)
  /\ inconsistent (compareFeatures a i w) = inconsistent (compareFeatures i a w)
  /\ consistent (compareFeatures a i w) = consistent (compareFeatures a w i)
  /\ inconsistent (compareFeatures a i w) = inconsistent (compareFeatures a w i).
Proof.
  destruct (totals_closed_form a i w) as [C0 I0].
  destruct (totals_closed_form i a w) as [C1 I1].
  destruct (totals_closed_form a w i) as [C2 I2].
  rewrite C0, I0, C1, I1, C2, I2.
  assert (P1 : Permutation (distinctIdentities (groups a) (groups i) (groups w))
                           (distinctIdentities (groups i) (groups a) (groups w))).
  { apply distinct_perm. intros k. rewrite !map_app, !in_app_iff. tauto. }
  assert (P2 : Permutation (distinctIdentities (groups a) (groups i) (groups w))
                           (distinctIdentities (groups a) (groups w) (groups i))).
  { apply distinct_perm. intros k. rewrite !map_app, !in_app_iff. tauto. }
  repeat split.
  - rewrite (list_sum_perm _ _ (Permutation_map _ P1)). apply list_sum_ext.
    intros k _. rewrite perfect_swap_12.
    destruct (perfect (groups i) (groups a) (groups w) k) eqn:P; [|reflexivity].
    unfold perfect in P. rewrite !andb_true_iff, !Nat.eqb_eq in P. lia.
  - rewrite (list_sum_perm _ _ (Permutation_map _ P1)). apply list_sum_ext.
    intros k _. rewrite perfect_swap_12. unfold peak, max3.
    destruct (perfect (groups i) (groups a) (groups w) k); lia.
  - rewrite (list_sum_perm _ _ (Permutation_map _ P2)). apply list_sum_ext.
    intros k _. now rewrite perfect_swap_23.
  - rewrite (list_sum_perm _ _ (Permutation_map _ P2)). apply list_sum_ext.
    intros k _. rewrite perfect_swap_23. unfold peak, max3.
    destruct (perfect (groups a) (groups w) (groups i) k); lia.
Qed.

(** The analysis of three uploads of one document finds every group
    consistent and none inconsistent; and a comparison in which one platform
    has no group finds nothing consistent. *)
Theorem analysis_extremes (document : DesignNode) (a i w : Features) :
  (let r := BotHandler.performAnalysis
              {| BotHandler.f_android := document; BotHandler.f_ios := document;
                 BotHandler.f_web := document |} in
   consistent r = List.length (groups (extractFeatures document))
   /\ inconsistent r = 0)
  /\ (groups a = [] \/ groups i = [] \/ groups w = [] ->
      consistent (compareFeatures a i w) = 0).
Proof.
  split.
  - unfold BotHandler.performAnalysis. cbn [BotHandler.f_android BotHandler.f_ios BotHandler.f_web].
    set (f := extractFeatures document). set (l := groups f).
    destruct (totals_closed_form f f f) as [H1 H2]. fold l in H1, H2.
    assert (P : forall k, In k (distinctIdentities l l l) -> perfect l l l k = true).
    { intros k Hk. unfold distinctIdentities in Hk.
      apply (proj1 (setOfList_In _ _)) in Hk. rewrite !map_app, !in_app_iff in Hk.
      assert (Hp : 1 <= occurrences k l) by (apply occurrences_present; tauto).
      unfold perfect. rewrite Nat.eqb_refl.
      replace (0 <? occurrences k l)%nat with true by (symmetry; apply Nat.ltb_lt; lia).
      reflexivity. }
    split.
    + rewrite H1, (list_sum_ext _ (fun k => occurrences k l)).
      * apply sum_occurrences; [apply setOfList_NoDup|].
        intros g Hg. apply distinct_covers. rewrite in_app_iff. auto.
      * intros k Hk. now rewrite (P k Hk).
    + rewrite H2, (list_sum_ext _ (fun _ => 0)); [apply list_sum_zero|].
      intros k Hk. now rewrite (P k Hk).
  - intros H. destruct (totals_closed_form a i w) as [H1 _]. rewrite H1.
    rewrite (list_sum_ext _ (fun _ => 0)); [apply list_sum_zero|].
    intros k _.
    assert (F : perfect (groups a) (groups i) (groups w) k = false).
    { unfold perfect, occurrences.
      destruct H as [-> | [-> | ->]]; cbn; rewrite ?andb_false_r; reflexivity. }
    now rewrite F.
Qed.

Lemma analysis_extremes_witness :
  consistent (compareFeatures (extractFeatures Examples.twoCards)
                              (extractFeatures Examples.twoCards) emptyFeatures) = 0.
Proof.
  apply (proj2 (analysis_extremes Examples.twoCards
                  (extractFeatures Examples.twoCards)
                  (extractFeatures Examples.twoCards) emptyFeatures)).
  right. right. reflexivity.
Defined.

End ReconcilerExtraFacts.

(** ** The hierarchical extractor *)

Module HierarchyFacts.

Import Hierarchical HierarchicalPages HierarchySpec GroupExtraSpec.

Lemma structure_fields (node : DesignNode) (depth maxDepth : nat) (s : Structure) :
  extractDetailedHierarchy node depth maxDepth = Some s ->
  s_id s = node_id node /\ s_type s = node_type node
  /\ s_name s = Js.orElse (node_name node) "Unnamed"
  /\ (s_componentType s = Some text <-> node_type node = "TEXT").
Proof.
  destruct node as [i n t c cs]. cbn [extractDetailedHierarchy node_id node_type node_name].
  destruct (maxDepth <? depth)%nat; [discriminate|]. intros [= <-].
  destruct (t =? "TEXT") eqn:T.
  - apply String.eqb_eq in T. cbn. tauto.
  - apply String.eqb_neq in T.
    repeat match goal with |- context [if ?b then _ else _] => destruct b end;
      cbn; repeat split; auto; try discriminate; try (intros H; contradiction).
Qed.

Lemma height_child (c : DesignNode) (cs : list DesignNode) :
  In c cs -> height c <= fold_right Nat.max 0 (map height cs).
Proof.
  induction cs as [|x cs IH]; intros H; [destruct H|]. cbn [map fold_right].
  destruct H as [-> | H]; [lia | specialize (IH H); lia].
Qed.

Lemma In_filterBoolean {A B} (f : A -> option B) (l : list A) (b : B) :
  In b (Js.filterBoolean (map f l)) <-> exists a, In a l /\ f a = Some b.
Proof.
  induction l as [|x l IH]; cbn [map Js.filterBoolean].
  - split; [intros [] | intros [a [[] _]]].
  - destruct (f x) as [y|] eqn:E; cbn [In]; rewrite IH; split.
    + intros [<- | [a [Ha Hf]]]; [exists x; auto | exists a; auto].
    + intros [a [[<- | Ha] Hf]]; [left; congruence | right; exists a; auto].
    + intros [a [Ha Hf]]. exists a; auto.
    + intros [a [[<- | Ha] Hf]]; [congruence | exists a; auto].
Qed.

(** Within the cap nothing is lost. *)
Lemma shallow_tree_kept (node : DesignNode) :
  forall depth maxDepth,
    depth + height node <= maxDepth + 1 ->
    exists s, extractDetailedHierarchy node depth maxDepth = Some s
              /\ map s_id (nodesOf s) = map node_id (allNodes node)
              /\ map s_type (nodesOf s) = map node_type (allNodes node).
Proof.
  induction node as [i n t c cs IH] using DesignNode_nested_ind.
  intros depth maxDepth H. cbn [height] in H.
  destruct (extractDetailedHierarchy (mkNode i n t c cs) depth maxDepth) as [s|] eqn:E.
  - exists s. split; [reflexivity|].
    destruct (structure_fields _ _ _ _ E) as [Hid [Hty _]].
    destruct (DepthFacts.structure_shape _ _ _ _ E) as [_ [_ Hc]].
    rewrite DepthFacts.nodesOf_unfold. cbn [allNodes map]. rewrite Hid, Hty, Hc.
    cbn [node_id node_type node_children].
    assert (Hcs : forall child, In child cs -> depth + 1 + height child <= maxDepth + 1).
    { intros child Hin. pose proof (height_child child cs Hin). lia. }
    clear E Hid Hty Hc H.
    enough (K : map s_id (flat_map nodesOf
                  (Js.filterBoolean
                     (map (fun child => extractDetailedHierarchy child (depth + 1) maxDepth)
                          cs))) = map node_id (flat_map allNodes cs)
                /\ map s_type (flat_map nodesOf
                     (Js.filterBoolean
                        (map (fun child => extractDetailedHierarchy child (depth + 1) maxDepth)
                             cs))) = map node_type (flat_map allNodes cs)).
    { destruct K as [K1 K2]. now rewrite K1, K2. }
    induction IH as [|child rest Hchild _ IHrest]; [split; reflexivity|].
    destruct (Hchild (depth + 1) maxDepth (Hcs child (or_introl eq_refl)))
      as [sc [Ec [Ic Tc]]].
    destruct (IHrest (fun x Hx => Hcs x (or_intror Hx))) as [K1 K2].
    cbn [map Js.filterBoolean flat_map]. rewrite Ec. cbn [Js.filterBoolean flat_map].
    rewrite !map_app, Ic, Tc, K1, K2. split; reflexivity.
  - exfalso. cbn [extractDetailedHierarchy] in E.
    destruct (maxDepth <? depth)%nat eqn:L; [|discriminate].
    apply Nat.ltb_lt in L. lia.
Qed.

(** A tree whose levels all lie within the cap is extracted whole: the
    structure has the nodes of the tree, in document order, with their ids
    and types. *)
Theorem shallow_trees_are_kept_whole (node : DesignNode) :
  height node <= 16 ->
  exists s, extractDetailedHierarchy node 0 15 = Some s
            /\ map s_id (nodesOf s) = map node_id (allNodes node)
            /\ map s_type (nodesOf s) = map node_type (allNodes node)
            /\ List.length (nodesOf s) = List.length (allNodes node).
Proof.
  intros H. destruct (shallow_tree_kept node 0 15 ltac:(lia)) as [s [E [Hi Ht]]].
  exists s. repeat split; try assumption.
  rewrite <- (length_map s_id), Hi. apply length_map.
Qed.

Lemma shallow_trees_are_kept_whole_witness :
  exists s, extractDetailedHierarchy Examples.twoCards 0 15 = Some s
            /\ List.length (nodesOf s) = 7.
Proof.
  destruct (shallow_trees_are_kept_whole Examples.twoCards ltac:(cbn; lia))
    as [s [E [_ [_ L]]]].
  exists s. split; [exact E | exact L].
Defined.

(** *** The inventory *)

Lemma categorize_entries (node : Structure) (path : list string) (inv : Inventory)
    (ct : ComponentType) :
  entriesOf (categorize node path inv) ct
  = entriesOf inv ct
    + match s_componentType node with
      | Some c => if ComponentType_eqb c ct then 1 else 0
      | None => 0
      end.
Proof.
  unfold categorize.
  destruct (s_componentType node) as [[]|]; destruct ct; cbn;
    rewrite ?length_app; cbn; lia.
Qed.

Lemma ofKind_unfold (ct : ComponentType) (s : Structure) :
  List.length (ofKind ct s)
  = match s_componentType s with
    | Some c => if ComponentType_eqb c ct then 1 else 0
    | None => 0
    end
    + list_sum (map (fun c => List.length (ofKind ct c)) (s_children s)).
Proof.
  unfold ofKind. rewrite DepthFacts.nodesOf_unfold. cbn [filter].
  assert (F : forall l, List.length
                (filter (fun x => match s_componentType x with
                                  | Some c => ComponentType_eqb c ct
                                  | None => false
                                  end) (flat_map nodesOf l))
              = list_sum (map (fun c => List.length
                                 (filter (fun x => match s_componentType x with
                                                   | Some c => ComponentType_eqb c ct
                                                   | None => false
                                                   end) (nodesOf c))) l)).
  { induction l as [|c l IHl]; [reflexivity|].
    cbn [flat_map map]. rewrite filter_app, length_app, IHl. reflexivity. }
  rewrite <- F.
  destruct (s_componentType s) as [c|]; [destruct (ComponentType_eqb c ct)|];
    reflexivity.
Qed.

Lemma inventory_entries (s : Structure) (ct : ComponentType) :
  forall path inv,
    entriesOf (inventoryTraverse s path inv) ct
    = entriesOf inv ct + List.length (ofKind ct s).
Proof.
  induction s as [t n i d k tc ic ins cs IH] using Structure_nested_ind.
  intros path inv. rewrite ofKind_unfold. cbn [inventoryTraverse s_children].
  assert (F : forall p acc,
             entriesOf (fold_left (fun acc child => inventoryTraverse child p acc) cs acc) ct
             = entriesOf acc ct
               + list_sum (map (fun c => List.length (ofKind ct c)) cs)).
  { intros p. induction IH as [|c rest Hc _ IHrest]; intros acc; cbn [fold_left map].
    - cbn. lia.
    - rewrite IHrest, Hc.
      change (list_sum (?x :: ?l)) with (x + list_sum l). lia. }
  rewrite F, categorize_entries. lia.
Qed.

Lemma kinds_are_exclusive (l : list Structure) :
  list_sum (map (fun ct => List.length
                   (filter (fun x => match s_componentType x with
                                     | Some c => ComponentType_eqb c ct
                                     | None => false
                                     end) l))
                [text; icon; button; container; instance])
  <= List.length l.
Proof.
  induction l as [|x l IH]; [cbn; lia|].
  cbn [map list_sum fold_right filter] in *.
  destruct (s_componentType x) as [[]|]; cbn [ComponentType_eqb List.length]; lia.
Qed.

(** The inventory of a structure keeps, for each kind, one entry for each
    node classified as that kind, so that it never holds more entries than
    the structure has nodes. *)
Theorem inventory_counts_nodes (s : Structure) :
  (forall ct, entriesOf (createComponentInventory s) ct = List.length (ofKind ct s))
  /\ List.length (texts (createComponentInventory s))
     + List.length (icons (createComponentInventory s))
     + List.length (buttons (createComponentInventory s))
     + List.length (frames (createComponentInventory s))
     + List.length (instances (createComponentInventory s))
     <= List.length (nodesOf s).
Proof.
  assert (E : forall ct, entriesOf (createComponentInventory s) ct
                         = List.length (ofKind ct s)).
  { intros ct. unfold createComponentInventory. rewrite inventory_entries.
    destruct ct; reflexivity. }
  split; [exact E|].
  pose proof (kinds_are_exclusive (nodesOf s)) as K.
  cbn [map list_sum fold_right] in K. fold (ofKind text s) in K.
  fold (ofKind icon s) in K. fold (ofKind button s) in K.
  fold (ofKind container s) in K. fold (ofKind instance s) in K.
  rewrite <- (E text), <- (E icon), <- (E button), <- (E container), <- (E instance) in K.
  cbn [entriesOf] in K. lia.
Qed.

Lemma filter_flat_map {A B} (p : B -> bool) (f : A -> list B) (l : list A) :
  filter p (flat_map f l) = flat_map (fun a => filter p (f a)) l.
Proof.
  induction l as [|a l IH]; [reflexivity|]. cbn [flat_map].
  now rewrite filter_app, IH.
Qed.

Lemma flat_map_ext_in {A B} (f g : A -> list B) (l : list A) :
  (forall a, In a l -> f a = g a) -> flat_map f l = flat_map g l.
Proof.
  induction l as [|a l IH]; intros H; [reflexivity|]. cbn [flat_map].
  rewrite (H a (or_introl eq_refl)), IH; [reflexivity|].
  intros b Hb. apply H. now right.
Qed.

Lemma text_kind_is_text_type (node : DesignNode) :
  forall depth maxDepth s,
    extractDetailedHierarchy node depth maxDepth = Some s ->
    ofKind text s = filter (fun x => s_type x =? "TEXT") (nodesOf s).
Proof.
  induction node as [i n t c cs IH] using DesignNode_nested_ind.
  intros depth maxDepth s E.
  destruct (structure_fields _ _ _ _ E) as [_ [Hty [_ Hk]]].
  destruct (DepthFacts.structure_shape _ _ _ _ E) as [_ [_ Hc]].
  unfold ofKind. rewrite DepthFacts.nodesOf_unfold. cbn [filter].
  rewrite !filter_flat_map.
  assert (T : flat_map (fun a => filter (fun x => match s_componentType x with
                                                  | Some c => ComponentType_eqb c text
                                                  | None => false
                                                  end) (nodesOf a)) (s_children s)
              = flat_map (fun a => filter (fun x => s_type x =? "TEXT") (nodesOf a))
                         (s_children s)).
  { apply flat_map_ext_in. intros c' Hc'. rewrite Hc in Hc'.
    apply In_filterBoolean in Hc' as [child [Hin Ec]].
    rewrite Forall_forall in IH. exact (IH child Hin _ _ _ Ec). }
  rewrite T. clear T. rewrite <- Hty in Hk.
  destruct (s_type s =? "TEXT") eqn:B.
  - apply String.eqb_eq in B. apply Hk in B. now rewrite B.
  - apply String.eqb_neq in B.
    destruct (s_componentType s) as [[]|]; cbn [ComponentType_eqb]; try reflexivity.
    exfalso. apply B, Hk. reflexivity.
Qed.

Lemma filter_map_length {A B} (f : A -> B) (p : B -> bool) (l : list A) :
  List.length (filter p (map f l)) = List.length (filter (fun a => p (f a)) l).
Proof.
  induction l as [|a l IH]; [reflexivity|]. cbn [map filter].
  destruct (p (f a)); cbn [List.length]; now rewrite IH.
Qed.

(** For a tree within the cap, the inventory counts as texts all the TEXT
    nodes of the tree, whatever their characters. *)
Theorem inventory_counts_every_text (node : DesignNode) :
  height node <= 16 ->
  exists s, extractDetailedHierarchy node 0 15 = Some s
            /\ List.length (texts (createComponentInventory s))
               = List.length (filter (fun n => node_type n =? "TEXT") (allNodes node)).
Proof.
  intros H. destruct (shallow_tree_kept node 0 15 ltac:(lia)) as [s [E [_ Ht]]].
  exists s. split; [exact E|].
  change (entriesOf (createComponentInventory s) text
          = List.length (filter (fun n => node_type n =? "TEXT") (allNodes node))).
  unfold createComponentInventory. rewrite inventory_entries. cbn [entriesOf emptyInventory texts List.length Nat.add].
  rewrite (text_kind_is_text_type node 0 15 s E).
  rewrite <- (filter_map_length node_type (fun t => t =? "TEXT")), <- Ht.
  now rewrite filter_map_length.
Qed.

Lemma inventory_counts_every_text_witness :
  exists s, extractDetailedHierarchy
              (mkNode "1:1" "card" "FRAME" ""
                 [mkNode "1:2" "lbl1" "TEXT" "" []; mkNode "1:3" "lbl2" "TEXT" "Hi" []])
              0 15 = Some s
            /\ List.length (texts (createComponentInventory s)) = 2.
Proof.
  exact (inventory_counts_every_text
           (mkNode "1:1" "card" "FRAME" ""
              [mkNode "1:2" "lbl1" "TEXT" "" []; mkNode "1:3" "lbl2" "TEXT" "Hi" []])
           ltac:(cbn; lia)).
Defined.

(** *** The table of icon counts *)

Lemma countUp_keys (name : string) (counts : list (string * nat)) :
  map fst (countUp name counts) = Js.setAdd String.eqb name (map fst counts).
Proof.
  unfold Js.setAdd. induction counts as [|[k n] r IH]; cbn [countUp map fst existsb].
  - reflexivity.
  - rewrite (String.eqb_sym name k). destruct (k =? name) eqn:E; cbn [orb map fst].
    + reflexivity.
    + rewrite IH. destruct (existsb (String.eqb name) (map fst r)); reflexivity.
Qed.

Lemma countUp_countFor (name k : string) (counts : list (string * nat)) :
  countFor k (countUp name counts)
  = countFor k counts + (if name =? k then 1 else 0).
Proof.
  unfold countFor. induction counts as [|[k' n] r IH]; cbn [countUp find fst snd].
  - rewrite (String.eqb_sym name k). destruct (k =? name); cbn; lia.
  - destruct (k' =? name) eqn:E; cbn [find fst snd].
    + apply String.eqb_eq in E. subst k'.
      destruct (name =? k); cbn [snd]; lia.
    + destruct (k' =? k) eqn:E'; cbn [snd].
      * apply String.eqb_eq in E'. subst k'. rewrite (String.eqb_sym name k), E. lia.
      * exact IH.
Qed.

Lemma countUp_sum (name : string) (counts : list (string * nat)) :
  list_sum (map snd (countUp name counts)) = list_sum (map snd counts) + 1
  /\ (Forall (fun e => 1 <= snd e) counts ->
      Forall (fun e => 1 <= snd e) (countUp name counts)).
Proof.
  induction counts as [|[k n] r [IH1 IH2]]; cbn [countUp].
  - split; [reflexivity | repeat constructor].
  - destruct (k =? name); cbn [map snd].
    + change (list_sum (?x :: ?l)) with (x + list_sum l). split; [lia|].
      intros H. inversion H; subst. constructor; [cbn in *; lia | assumption].
    + change (list_sum (?x :: ?l)) with (x + list_sum l). split; [lia|].
      intros H. inversion H; subst. constructor; auto.
Qed.

(** The table of icon counts has one row for each distinct icon name, in the
    order of first occurrence; the count of a row is the number of icons of
    that name, at least one, and the counts add up to the number of icons. *)
Theorem icon_counts (inventory : Inventory) :
  let table := countIconsByName inventory in
  map fst table = Js.setOfList (map ne_name (icons inventory))
  /\ NoDup (map fst table)
  /\ list_sum (map snd table) = List.length (icons inventory)
  /\ (forall k n, In (k, n) table ->
                  1 <= n
                  /\ n = List.length (filter (fun i => ne_name i =? k) (icons inventory))).
Proof.
  intros table. subst table. unfold countIconsByName.
  assert (G : forall l acc,
             map fst (fold_left (fun counts i => countUp (ne_name i) counts) l acc)
             = fold_left (fun s x => Js.setAdd String.eqb x s) (map ne_name l) (map fst acc)
             /\ list_sum (map snd (fold_left (fun counts i => countUp (ne_name i) counts) l acc))
                = list_sum (map snd acc) + List.length l
             /\ (Forall (fun e => 1 <= snd e) acc ->
                 Forall (fun e => 1 <= snd e)
                        (fold_left (fun counts i => countUp (ne_name i) counts) l acc))
             /\ (forall k, countFor k (fold_left (fun counts i => countUp (ne_name i) counts)
                                                 l acc)
                           = countFor k acc
                             + List.length (filter (fun i => ne_name i =? k) l))).
  { induction l as [|x l IH]; intros acc; cbn [fold_left map List.length filter].
    - repeat split; auto; cbn; lia.
    - destruct (IH (countUp (ne_name x) acc)) as [H1 [H2 [H3 H4]]].
      destruct (countUp_sum (ne_name x) acc) as [S1 S2].
      rewrite H1, H2, countUp_keys. repeat split; auto; try lia.
      intros k. rewrite H4, countUp_countFor.
      destruct (ne_name x =? k); cbn [List.length]; lia. }
  destruct (G (icons inventory) []) as [H1 [H2 [H3 H4]]].
  assert (ND : NoDup (map fst (fold_left (fun counts i => countUp (ne_name i) counts)
                                         (icons inventory) []))).
  { rewrite H1. apply ReconcilerFacts.setOfList_NoDup. }
  split; [exact H1 | split; [exact ND | split; [exact H2|]]].
  intros k n Hin. split.
  - specialize (H3 (Forall_nil _)). rewrite Forall_forall in H3.
    exact (H3 (k, n) Hin).
  - rewrite <- (Nat.add_0_l (List.length _)).
    change 0 with (countFor k []) at 1. rewrite <- H4.
    clear - ND Hin. unfold countFor.
    induction (fold_left (fun counts i => countUp (ne_name i) counts) (icons inventory) [])
      as [|[k' n'] r IH]; [destruct Hin|].
    cbn in ND. apply NoDup_cons_iff in ND as [Hk ND]. cbn [find fst].
    destruct Hin as [[= -> ->] | Hin].
    + now rewrite String.eqb_refl.
    + destruct (k' =? k) eqn:E.
      * apply String.eqb_eq in E. subst k'. exfalso. apply Hk.
        change k with (fst (k, n)). now apply in_map.
      * now apply IH.
Qed.

(** *** Cards *)

Lemma levelled_extracted (node : DesignNode) :
  forall depth maxDepth s,
    extractDetailedHierarchy node depth maxDepth = Some s -> levelled s.
Proof.
  induction node as [i n t c cs IH] using DesignNode_nested_ind.
  intros depth maxDepth s E.
  destruct (DepthFacts.structure_shape _ _ _ _ E) as [_ [Hd Hc]].
  cbn [node_children] in Hc. rewrite Forall_forall in IH.
  intros x Hx. rewrite DepthFacts.nodesOf_unfold in Hx. destruct Hx as [<- | Hx].
  - intros c' Hc'. rewrite Hc in Hc'. apply In_filterBoolean in Hc' as [child [Hin Ec]].
    destruct (DepthFacts.structure_shape _ _ _ _ Ec) as [_ [Hd' _]]. lia.
  - apply in_flat_map in Hx as [c' [Hc' Hx]]. rewrite Hc in Hc'.
    apply In_filterBoolean in Hc' as [child [Hin Ec]].
    exact (IH child Hin _ _ _ Ec x Hx).
Qed.

Lemma nodesOf_child (s c : Structure) :
  In c (s_children s) -> forall x, In x (nodesOf c) -> In x (nodesOf s).
Proof.
  intros Hc x Hx. rewrite DepthFacts.nodesOf_unfold. right.
  apply in_flat_map. now exists c.
Qed.

Lemma levelled_child (s c : Structure) :
  levelled s -> In c (s_children s) -> levelled c /\ s_depth c = s_depth s + 1.
Proof.
  intros L Hc. split.
  - intros x Hx. apply L. now apply (nodesOf_child s c).
  - apply (L s); [|assumption]. rewrite DepthFacts.nodesOf_unfold. now left.
Qed.

Lemma extractCards_unfold (s : Structure) (cards : list Card) (depth : nat) :
  extractCardsWithDetails s cards depth =
  if (10 <? depth)%nat then cards
  else if isMainFeature s
          && ((0 <? List.length (texts (createComponentInventory s)))%nat
              || (0 <? List.length (buttons (createComponentInventory s)))%nat)
       then cards ++ [cardOf s]
       else fold_left (fun acc child => extractCardsWithDetails child acc (depth + 1))
                      (s_children s) cards.
Proof. destruct s. reflexivity. Qed.

Lemma cardOf_ok_child (s c : Structure) (card : Card) :
  In c (s_children s) -> CardSpec.cardOf_ok c card -> CardSpec.cardOf_ok s card.
Proof.
  intros Hc [H1 [H2 H3]]. split; [exact H1 | split; [|exact H3]].
  now apply (nodesOf_child s c).
Qed.

Lemma cards_found (s : Structure) :
  levelled s ->
  forall cards, exists found,
    extractCardsWithDetails s cards (s_depth s) = cards ++ found
    /\ Forall (CardSpec.cardOf_ok s) found.
Proof.
  induction s as [t n i d k tc ic ins cs IH] using Structure_nested_ind.
  intros L cards. rewrite extractCards_unfold. cbn [s_depth s_children].
  set (s := mkStructure t n i d k tc ic ins cs) in *.
  destruct (10 <? d)%nat eqn:D.
  { exists []. rewrite app_nil_r. split; [reflexivity | constructor]. }
  apply Nat.ltb_ge in D.
  destruct (isMainFeature s
            && ((0 <? List.length (texts (createComponentInventory s)))%nat
                || (0 <? List.length (buttons (createComponentInventory s)))%nat)) eqn:C.
  { exists [cardOf s]. split; [reflexivity|]. constructor; [|constructor].
    apply andb_prop in C as [M T].
    unfold CardSpec.cardOf_ok. cbn [card_fullStructure cardOf card_inventory ci_texts ci_buttons].
    split; [reflexivity|]. split; [rewrite DepthFacts.nodesOf_unfold; now left|].
    split; [exact M|].
    pose proof M as M'. unfold isMainFeature in M'.
    apply andb_prop in M' as [M' _]. apply andb_prop in M' as [M1 M2].
    apply String.eqb_eq in M1. apply Nat.leb_le in M2.
    repeat split; try assumption.
    apply orb_prop in T as [T | T]; apply Nat.ltb_lt in T; auto. }
  clear C.
  assert (Lc : forall c, In c cs -> levelled c /\ s_depth c = d + 1).
  { intros c Hc. exact (levelled_child s c L Hc). }
  assert (Sub : forall c card, In c cs -> CardSpec.cardOf_ok c card -> CardSpec.cardOf_ok s card).
  { intros c card Hc. now apply cardOf_ok_child. }
  clearbody s. clear L.
  revert cards. induction IH as [|c rest Hc _ IHrest]; intros cards; cbn [fold_left].
  - exists []. rewrite app_nil_r. split; [reflexivity | constructor].
  - destruct (Lc c (or_introl eq_refl)) as [Lc1 Lc2].
    destruct (Hc Lc1 cards) as [f1 [E1 F1]]. rewrite Lc2 in E1. rewrite E1.
    destruct (IHrest (fun x Hx => Lc x (or_intror Hx))
                     (fun x card Hx => Sub x card (or_intror Hx)) (cards ++ f1))
      as [f2 [E2 F2]].
    exists (f1 ++ f2). rewrite E2, app_assoc. split; [reflexivity|].
    apply Forall_app. split; [|exact F2].
    eapply Forall_impl; [|exact F1]. intros card. apply Sub. now left.
Qed.

(** Every card of a hierarchical extraction is the card of a FRAME of the
    structure with two children at least that passes the test of a main
    feature, has a text or a button in its inventory, and lies at depth 10 at
    most. *)
Theorem cards_are_main_features (document : DesignNode) :
  exists tree,
    fullTree (extractHierarchicalFeatures document) = Some tree
    /\ Forall (CardSpec.cardOf_ok tree) (cards (extractHierarchicalFeatures document)).
Proof.
  destruct (DepthFacts.root_is_extracted document 15) as [tree E].
  exists tree. unfold extractHierarchicalFeatures. rewrite E. cbn [fullTree cards].
  split; [reflexivity|].
  destruct (DepthFacts.structure_shape _ _ _ _ E) as [_ [Hd _]].
  destruct (cards_found tree (levelled_extracted _ _ _ _ E) []) as [found [Ef F]].
  rewrite Hd in Ef. rewrite Ef. exact F.
Qed.

(** *** Pages *)

Lemma pageOf_bounds (page : DesignNode) :
  totalCards (pageOf page) = List.length (page_cards (pageOf page))
  /\ totalCards (pageOf page) <= 100
  /\ pageName (pageOf page) = node_name page.
Proof.
  unfold pageOf. cbn [totalCards page_cards pageName].
  repeat split.
  match goal with |- context [if (100 <? List.length ?l)%nat then _ else _] =>
    destruct (100 <? List.length l)%nat eqn:E
  end.
  - rewrite length_firstn. lia.
  - apply Nat.ltb_ge in E. exact E.
Qed.

(** The pages of an extraction by page are the CANVAS children of the
    document, in their order, less those without a card; each page holds
    between one and a hundred cards, and its total is the number of its
    cards.  A document without children has no page. *)
Theorem pages_hold_one_to_hundred_cards (figmaDocument : DesignNode) :
  Forall (fun p => 1 <= totalCards p <= 100
                   /\ totalCards p = List.length (page_cards p)
                   /\ exists page, In page (node_children figmaDocument)
                                   /\ node_type page = "CANVAS" /\ p = pageOf page)
         (extractHierarchicalFeaturesByPage figmaDocument)
  /\ List.length (extractHierarchicalFeaturesByPage figmaDocument)
     <= List.length (filter (fun child => node_type child =? "CANVAS")
                            (node_children figmaDocument))
  /\ (node_children figmaDocument = [] ->
      extractHierarchicalFeaturesByPage figmaDocument = []).
Proof.
  assert (E : extractHierarchicalFeaturesByPage figmaDocument
              = filter (fun p => (0 <? List.length (page_cards p))%nat)
                       (map pageOf (filter (fun child => node_type child =? "CANVAS")
                                           (node_children figmaDocument)))).
  { unfold extractHierarchicalFeaturesByPage.
    destruct (node_children figmaDocument); reflexivity. }
  rewrite E. split; [|split].
  - apply Forall_forall. intros p Hp. apply filter_In in Hp as [Hp Hc].
    apply in_map_iff in Hp as [page [<- Hpage]]. apply filter_In in Hpage as [Hin Ht].
    apply String.eqb_eq in Ht. apply Nat.ltb_lt in Hc.
    destruct (pageOf_bounds page) as [B1 [B2 _]].
    repeat split; try lia. exists page. auto.
  - etransitivity; [apply filter_length_le|]. now rewrite length_map.
  - intros ->. reflexivity.
Qed.

Lemma pages_hold_one_to_hundred_cards_witness :
  extractHierarchicalFeaturesByPage (mkNode "0:0" "Document" "DOCUMENT" "" []) = [].
Proof.
  exact (proj2 (proj2 (pages_hold_one_to_hundred_cards
                         (mkNode "0:0" "Document" "DOCUMENT" "" []))) eq_refl).
Defined.

End HierarchyFacts.

(** ** The matcher: queue, timer and promises *)

Module QueueFacts.

Import AnalyzerNode AiMatcher GroupSpec QueueSpec.

(** Two well-formed groups of the same name are never queued: the call
    resolves at once, with true exactly when the two recipes agree on texts
    and buttons.  The comparison by name only ever compares groups of the
    same name, so on extracted groups it never reaches the oracle. *)
Theorem same_name_is_never_queued (resolve : nat) (a b : Group) (st : State) :
  wellFormed a -> wellFormed b -> g_name a = g_name b ->
  ambiguous a b = false
  /\ areComponentsSimilar resolve a b st = resolveWith resolve (recipesAgree a b) st.
Proof.
  intros Wa Wb Hn. unfold ambiguous, areComponentsSimilar, recipesAgree.
  destruct (r_text (g_recipe a) =? r_text (g_recipe b))%nat eqn:E1; cbn [negb orb andb];
    [|split; reflexivity].
  destruct (r_buttons (g_recipe a) =? r_buttons (g_recipe b))%nat eqn:E2; cbn [negb orb andb];
    [|split; reflexivity].
  apply Nat.eqb_eq in E1, E2.
  rewrite Wa, Wb, E1, E2, Hn, !String.eqb_refl. split; reflexivity.
Qed.

Lemma same_name_is_never_queued_witness :
  areComponentsSimilar 1 (groupOf (mkNode "1" "Card" "INSTANCE" "" []))
                         (groupOf (mkNode "2" "Card" "COMPONENT" ""
                                     [mkNode "3" "Title" "TEXT" "Paris" []]))
                       initial
  = resolveWith 1 false initial.
Proof.
  exact (proj2 (same_name_is_never_queued 1
                  (groupOf (mkNode "1" "Card" "INSTANCE" "" []))
                  (groupOf (mkNode "2" "Card" "COMPONENT" ""
                              [mkNode "3" "Title" "TEXT" "Paris" []]))
                  initial eq_refl eq_refl eq_refl)).
Defined.

Lemma step_keeps_timer (st : State) (e : Event) :
  timerMatchesQueue st -> timerMatchesQueue (step st e).
Proof.
  unfold timerMatchesQueue. intros H. destruct e as [resolve g1 g2 | | k o]; cbn [step].
  - rewrite MatcherFacts.ambiguous_call. destruct (ambiguous g1 g2); cbn.
    + now destruct (comparisonQueue st).
    + exact H.
  - unfold timerFires. destruct (flushTimer st) eqn:T; [|now rewrite T].
    destruct (comparisonQueue st); reflexivity.
  - unfold oracleSettles. destruct (nth_error (inFlight st) k); [cbn|]; exact H.
Qed.

(** In every state reached from the initial one the timer is armed exactly
    when the queue is not empty; so a pair never waits without a timer, and
    the timer never fires on an empty queue. *)
Theorem timer_is_armed_iff_queue_waits (events : list Event) :
  let st := run initial events in
  (flushTimer st = true <-> comparisonQueue st <> [])
  /\ (flushTimer st = true ->
      List.length (oracleCalls (step st TimerFires)) = List.length (oracleCalls st) + 1).
Proof.
  intros st.
  assert (Inv : timerMatchesQueue st).
  { subst st. unfold run.
    assert (H0 : timerMatchesQueue initial) by reflexivity.
    revert H0. generalize initial.
    induction events as [|e events IH]; intros s Hs; cbn [fold_left]; [assumption|].
    apply IH. now apply step_keeps_timer. }
  unfold timerMatchesQueue in Inv. split.
  - rewrite Inv. destruct (comparisonQueue st); split; congruence.
  - intros T. cbn [step]. unfold timerFires. rewrite T.
    rewrite T in Inv. destruct (comparisonQueue st); [discriminate|].
    cbn [oracleCalls]. rewrite length_app. reflexivity.
Qed.

Lemma timer_is_armed_iff_queue_waits_witness :
  List.length (oracleCalls
                 (step (run initial [Call 1 (Examples.searchBar 1 1)
                                            (Examples.searchField 1 1)]) TimerFires)) = 1.
Proof.
  exact (proj2 (timer_is_armed_iff_queue_waits
                  [Call 1 (Examples.searchBar 1 1) (Examples.searchField 1 1)]) eq_refl).
Defined.

Lemma concat_removeNth {A} (k : nat) (l : list (list A)) (batch : list A) :
  nth_error l k = Some batch ->
  Permutation (List.concat l) (batch ++ List.concat (removeNth k l)).
Proof.
  revert l. induction k as [|k IH]; intros [|x l] H; try discriminate; cbn in *.
  - injection H as ->. reflexivity.
  - rewrite (IH l H). rewrite !app_assoc. apply Permutation_app_tail, Permutation_app_comm.
Qed.

Lemma step_accounts (st : State) (e : Event) :
  Permutation (accounted (step st e)) (accounted st ++ promised [e]).
Proof.
  unfold accounted. destruct e as [resolve g1 g2 | | k o]; cbn [step promised].
  - rewrite MatcherFacts.ambiguous_call. destruct (ambiguous g1 g2);
      cbn [resolved comparisonQueue inFlight resolveWith].
    + rewrite map_app. cbn [map itemOf q_resolve].
      rewrite <- !app_assoc. do 2 apply Permutation_app_head.
      apply Permutation_app_comm.
    + rewrite map_app. cbn [map fst]. rewrite <- !app_assoc.
      apply Permutation_app_head.
      etransitivity; [apply Permutation_app_comm|]. now rewrite <- app_assoc.
  - rewrite app_nil_r. unfold timerFires. destruct (flushTimer st); [|reflexivity].
    destruct (comparisonQueue st) as [|x q] eqn:Q; cbn [resolved comparisonQueue inFlight].
    + reflexivity.
    + apply Permutation_app_head. rewrite concat_app, map_app.
      cbn [List.concat map app]. rewrite app_nil_r.
      apply (Permutation_app_comm (map q_resolve (List.concat (inFlight st)))
                                  (q_resolve x :: map q_resolve q)).
  - rewrite app_nil_r. unfold oracleSettles.
    destruct (nth_error (inFlight st) k) as [batch|] eqn:N; [|reflexivity].
    cbn [resolved comparisonQueue inFlight].
    rewrite map_app, MatcherFacts.settle_resolves_each_once.
    rewrite <- app_assoc. apply Permutation_app_head.
    rewrite (Permutation_map q_resolve (concat_removeNth k _ _ N)), map_app.
    apply Permutation_app_swap_app.
Qed.

(** Whatever the order of calls, timer firings and oracle answers, every
    promise handed out is accounted for once: it is resolved, or its pair is
    in the queue, or its pair is in a batch that awaits its answer.  No
    promise is lost and none is resolved twice. *)
Theorem every_promise_is_accounted_once (events : list Event) :
  Permutation (accounted (run initial events)) (promised events).
Proof.
  unfold run.
  assert (G : forall st, Permutation (accounted (fold_left step events st))
                                     (accounted st ++ promised events)).
  { induction events as [|e events IH]; intros st; cbn [fold_left].
    - cbn. now rewrite app_nil_r.
    - rewrite IH, step_accounts. rewrite <- app_assoc. apply Permutation_app_head.
      destruct e; reflexivity. }
  exact (G initial).
Qed.

(** *** Reading a full answer *)

Lemma of_uint_acc_fold (d : Decimal.uint) :
  forall acc,
    fold_left (fun acc c => (10 * acc + N.of_nat (nat_of_ascii c - 48))%N)
              (list_ascii_of_string (NilEmpty.string_of_uint d)) acc
    = N.of_nat (Nat.of_uint_acc d (N.to_nat acc)).
Proof.
  induction d; intros acc;
    cbn [NilEmpty.string_of_uint list_ascii_of_string fold_left Nat.of_uint_acc];
    [now rewrite N2Nat.id | ..];
    rewrite IHd; do 2 f_equal; rewrite Nat.tail_mul_spec;
    match goal with |- context [nat_of_ascii ?c - 48] =>
      let k := eval vm_compute in (nat_of_ascii c - 48) in
      change (nat_of_ascii c - 48) with k
    end; lia.
Qed.

(** The number printed in a template is the number read back. *)
Lemma numberOfDigits_ofNat (n : nat) : Js.numberOfDigits (Js.ofNat n) = N.of_nat n.
Proof.
  unfold Js.numberOfDigits, Js.ofNat, NilZero.string_of_uint.
  assert (R : Nat.of_uint (Nat.to_uint n) = n) by apply DecimalNat.Unsigned.of_to.
  destruct (Nat.to_uint n) eqn:E;
    [cbn in R; subst n; reflexivity | ..];
    rewrite of_uint_acc_fold; f_equal; exact R.
Qed.

Lemma ofNat_nonempty (n : nat) : Js.ofNat n <> EmptyString.
Proof.
  intros H. pose proof (numberOfDigits_ofNat n) as R. rewrite H in R. cbn in R.
  assert (n = 0) by lia. subst n. discriminate H.
Qed.

Lemma matchAt_printed (digits : string) (v : ascii) (rest : string) :
  JsSpec.allDigits digits = true -> digits <> EmptyString -> isYN v = true ->
  matchAt (digits ++ String ":" (String v rest)) = Some (digits, v).
Proof.
  induction digits as [|d ds IH]; intros A N Y; [congruence|].
  cbn [JsSpec.allDigits] in A. apply andb_prop in A as [Ad As].
  cbn [append matchAt]. rewrite Ad.
  destruct ds as [|d' ds'].
  - cbn [append matchAt]. change (Js.isDigit ":") with false. cbv iota. now rewrite Y.
  - now rewrite (IH As ltac:(discriminate) Y).
Qed.

Lemma lineMatch_head (line : string) (m : string * ascii) :
  matchAt line = Some m -> lineMatch line = Some m.
Proof. intros H. destruct line; cbn [lineMatch]; now rewrite H. Qed.

Lemma digits_free_of (c : ascii) (s : string) :
  Js.isDigit c = false -> JsSpec.allDigits s = true -> GroupExtraSpec.freeOf c s = true.
Proof.
  intros Hc. induction s as [|x s IH]; cbn; [reflexivity|]. intros H.
  apply andb_prop in H as [Hx Hs]. rewrite (IH Hs), andb_true_r.
  destruct (Ascii.eqb x c) eqn:E; [|reflexivity].
  apply Ascii.eqb_eq in E. subst x. congruence.
Qed.

Lemma splitLines_free (x : string) :
  GroupExtraSpec.freeOf "010"%char x = true ->
  Js.splitLines x = [x]
  /\ forall rest, Js.splitLines (x ++ String "010"%char rest) = x :: Js.splitLines rest.
Proof.
  induction x as [|c x IH]; intros F.
  - split; reflexivity.
  - cbn [GroupExtraSpec.freeOf] in F. apply andb_prop in F as [Fc Fx].
    apply negb_true_iff in Fc. destruct (IH Fx) as [I1 I2].
    cbn [append Js.splitLines]. rewrite Fc, I1. split; [reflexivity|].
    intros rest. now rewrite I2.
Qed.

Lemma splitLines_join (lines : list string) :
  lines <> [] -> Forall (fun l => GroupExtraSpec.freeOf "010"%char l = true) lines ->
  Js.splitLines (Js.join (String "010"%char EmptyString) lines) = lines.
Proof.
  induction lines as [|x lines IH]; intros N F; [congruence|].
  inversion F as [|? ? Fx Fl]; subst.
  destruct lines as [|y lines].
  - cbn [Js.join]. now apply splitLines_free.
  - change (Js.join (String "010"%char EmptyString) (x :: y :: lines))
      with (x ++ String "010"%char (Js.join (String "010"%char EmptyString) (y :: lines)))%string.
    rewrite (proj2 (splitLines_free x Fx)), IH; [reflexivity | discriminate | assumption].
Qed.

Lemma answerLine_free (v : nat -> bool) (j : nat) :
  GroupExtraSpec.freeOf "010"%char (answerLine v j) = true.
Proof.
  unfold answerLine.
  change (Js.ofNat (j + 1) ++ ":" ++ (if v j then "Y" else "N"))%string
    with (Js.ofNat (j + 1) ++ String ":" (if v j then "Y" else "N"))%string.
  rewrite GroupExtraFacts.freeOf_app, digits_free_of;
    [now destruct (v j) | reflexivity | apply JsFacts.allDigits_ofNat].
Qed.

Lemma readLine_answer (pairs : list QueueItem) (m : ResultMap) (v : nat -> bool) (j : nat) :
  readLine pairs m (answerLine v j)
  = match nth_error pairs j with
    | Some p => mapSet (q_id p) (v j) m
    | None => m
    end.
Proof.
  unfold readLine, answerLine.
  assert (L : lineMatch (Js.ofNat (j + 1) ++ ":" ++ (if v j then "Y" else "N"))%string
              = Some (Js.ofNat (j + 1), if v j then "Y"%char else "N"%char)).
  { apply lineMatch_head.
    change (Js.ofNat (j + 1) ++ ":" ++ (if v j then "Y" else "N"))%string
      with (Js.ofNat (j + 1)
            ++ String ":" (String (if v j then "Y"%char else "N"%char) EmptyString))%string
      || (destruct (v j);
          [change (Js.ofNat (j + 1) ++ ":" ++ "Y")%string
             with (Js.ofNat (j + 1) ++ String ":" (String "Y" EmptyString))%string
          |change (Js.ofNat (j + 1) ++ ":" ++ "N")%string
             with (Js.ofNat (j + 1) ++ String ":" (String "N" EmptyString))%string]).
    all: apply matchAt_printed;
      [apply JsFacts.allDigits_ofNat | apply ofNat_nonempty | try now destruct (v j)];
      reflexivity. }
  rewrite L, numberOfDigits_ofNat.
  replace (N.of_nat (j + 1) =? 0)%N with false by (symmetry; apply N.eqb_neq; lia).
  replace (N.to_nat (N.of_nat (j + 1) - 1)) with j by lia.
  now destruct (v j).
Qed.

Lemma parse_full (pairs : list QueueItem) (v : nat -> bool) :
  NoDup (map q_id pairs) ->
  forall k, k <= List.length pairs ->
    forall j item, j < k -> nth_error pairs j = Some item ->
      mapGet (q_id item)
             (fold_left (readLine pairs) (map (answerLine v) (seq 0 k)) [])
      = Some (v j).
Proof.
  intros ND. induction k as [|k IH]; intros Hk j item Hj Hitem; [lia|].
  rewrite seq_S, map_app, fold_left_app. cbn [map fold_left Nat.add].
  rewrite readLine_answer.
  destruct (nth_error pairs k) as [p|] eqn:P;
    [|apply nth_error_None in P; lia].
  rewrite MatcherFacts.mapGet_mapSet.
  destruct (Nat.eq_dec j k) as [-> | Hne].
  - rewrite Hitem in P. injection P as ->. now rewrite String.eqb_refl.
  - destruct (q_id p =? q_id item) eqn:E.
    + exfalso. apply String.eqb_eq in E. apply Hne.
      apply (proj1 (NoDup_nth_error (map q_id pairs)) ND).
      * rewrite length_map. apply nth_error_Some. congruence.
      * rewrite !nth_error_map, P, Hitem. cbn. now f_equal.
    + apply IH; [lia | lia | assumption].
Qed.

(** When the oracle answers, at once or after a token refresh, with one line
    for each pair of the batch, numbered as in the prompt, and the ids of the
    batch are pairwise distinct, each pair resolves with the verdict of its
    own line. *)
Theorem full_answer_resolves_each_pair (batch : list QueueItem) (v : nat -> bool)
    (o : Oracle) :
  NoDup (map q_id batch) ->
  callWithRetry o = Some (fullAnswer v (List.length batch)) ->
  forall j item, nth_error batch j = Some item ->
    nth_error (settle batch (batchStructuralMatch batch o)) j
    = Some (q_resolve item, v j).
Proof.
  intros ND Ho j item Hitem.
  assert (Hj : j < List.length batch) by (apply nth_error_Some; congruence).
  unfold batchStructuralMatch. rewrite Ho.
  destruct batch as [|x r] eqn:B; [cbn in Hj; lia|]. rewrite <- B in *.
  cbn [settle]. rewrite nth_error_map, Hitem. cbn [option_map]. do 2 f_equal.
  unfold parseResponse, fullAnswer. rewrite splitLines_join.
  - now rewrite (parse_full batch v ND (List.length batch) (le_n _) j item Hj Hitem).
  - rewrite B. cbn. discriminate.
  - apply Forall_forall. intros l Hl. apply in_map_iff in Hl as [i [<- _]].
    apply answerLine_free.
Qed.

Lemma full_answer_resolves_each_pair_witness :
  nth_error
    (settle [itemOf 1 (Examples.searchBar 1 1) (Examples.searchField 1 1);
             itemOf 2 (Examples.searchBar 1 1) (Examples.searchBar 1 0)]
            (batchStructuralMatch
               [itemOf 1 (Examples.searchBar 1 1) (Examples.searchField 1 1);
                itemOf 2 (Examples.searchBar 1 1) (Examples.searchBar 1 0)]
               (Examples.answers (fullAnswer (fun j => Nat.eqb j 0) 2))))
    1
  = Some (2, false).
Proof.
  exact (full_answer_resolves_each_pair
           [itemOf 1 (Examples.searchBar 1 1) (Examples.searchField 1 1);
            itemOf 2 (Examples.searchBar 1 1) (Examples.searchBar 1 0)]
           (fun j => Nat.eqb j 0)
           (Examples.answers (fullAnswer (fun j => Nat.eqb j 0) 2))
           ltac:(cbn; repeat constructor; cbn; intuition discriminate)
           eq_refl 1 _ eq_refl).
Defined.

(** *** Failures and answers that name no pair *)



End QueueFacts.

(** ** The comparison by name *)

Module AiCompareFacts.

Import AnalyzerNode AiMatcher AiCompare GroupSpec QueueSpec.

Lemma findByName_found (name : string) (l : list Group) :
  match findByName name l with Some _ => true | None => false end
  = existsb (fun g => g_name g =? name) l.
Proof.
  unfold findByName. induction l as [|g l IH]; cbn; [reflexivity|].
  destruct (g_name g =? name); cbn; [reflexivity | exact IH].
Qed.

Lemma findByName_name (name : string) (l : list Group) (g : Group) :
  findByName name l = Some g -> g_name g = name /\ In g l.
Proof.
  unfold findByName. intros H. apply find_some in H as [Hin Hn].
  apply String.eqb_eq in Hn. auto.
Qed.

Lemma found_all (a i w : list Group) (name : string) :
  onAllThree a i w name
  = match findByName name a, findByName name i, findByName name w with
    | Some _, Some _, Some _ => true
    | _, _, _ => false
    end.
Proof.
  unfold onAllThree. rewrite <- !findByName_found.
  destruct (findByName name a), (findByName name i), (findByName name w); reflexivity.
Qed.

(** The three promises of a name are resolved, whatever the groups and the
    collaborators do. *)
Lemma similarities_total (o : Oracle) (x y z : Group) :
  exists v, similarities o x y z = Some v.
Proof.
  unfold similarities, run. cbn [fold_left step]. unfold areComponentsSimilar.
  repeat match goal with
         | |- context [if ?c then _ else _] => destruct c
         end;
    unfold timerFires, oracleSettles, resolveWith, valueOf;
    cbn [comparisonQueue flushTimer inFlight oracleCalls resolved initial app nth_error];
    unfold batchStructuralMatch; try destruct (callWithRetry o);
    cbn; eexists; reflexivity.
Qed.

Lemma same_name_resolves (resolve : nat) (x y : Group) (st : State) :
  wellFormed x -> wellFormed y -> g_name x = g_name y ->
  areComponentsSimilar resolve x y st = resolveWith resolve (recipesAgree x y) st.
Proof.
  intros Wx Wy Hn. unfold areComponentsSimilar, recipesAgree.
  destruct (r_text (g_recipe x) =? r_text (g_recipe y))%nat eqn:E1; cbn [negb orb andb];
    [|reflexivity].
  destruct (r_buttons (g_recipe x) =? r_buttons (g_recipe y))%nat eqn:E2;
    cbn [negb orb andb]; [|reflexivity].
  apply Nat.eqb_eq in E1, E2.
  now rewrite Wx, Wy, E1, E2, Hn, !String.eqb_refl.
Qed.

(** On well-formed groups of one name the three values are those of the fast
    paths, and the collaborators are not consulted. *)
Lemma similarities_same_name (o : Oracle) (x y z : Group) :
  wellFormed x -> wellFormed y -> wellFormed z ->
  g_name x = g_name y -> g_name y = g_name z ->
  similarities o x y z = Some (recipesAgree x y, recipesAgree x z, recipesAgree y z).
Proof.
  intros Wx Wy Wz Hxy Hyz. unfold similarities, run. cbn [fold_left step].
  rewrite (same_name_resolves 0 x y), (same_name_resolves 1 x z),
    (same_name_resolves 2 y z) by congruence.
  reflexivity.
Qed.

Section WithOracle.

Variable oracle : string -> Oracle.

Lemma compareName_step (a i w : list Group) (r : Results) (name : string) :
  exists r',
    compareName oracle a i w (Some r) name = Some r'
    /\ consistent r' + inconsistent r' = consistent r + inconsistent r + 1
    /\ List.length (mapping_text r') = List.length (mapping_text r) + 1
    /\ consistent r' <= consistent r + (if onAllThree a i w name then 1 else 0)
    /\ (Forall wellFormed (a ++ i ++ w) ->
        consistent r' = consistent r + (if agreeOnAllThree a i w name then 1 else 0))
    /\ android r' = android r /\ ios r' = ios r /\ web r' = web r.
Proof.
  unfold compareName, agreeOnAllThree. rewrite found_all.
  destruct (findByName name a) as [x|] eqn:Ea;
    [destruct (findByName name i) as [y|] eqn:Ei;
     [destruct (findByName name w) as [z|] eqn:Ew|]|].
  - destruct (similarities_total (oracle name) x y z) as [[[p q] t] E].
    assert (W : Forall wellFormed (a ++ i ++ w) ->
                (p, q, t) = (recipesAgree x y, recipesAgree x z, recipesAgree y z)).
    { intros Hw. rewrite Forall_forall in Hw.
      destruct (findByName_name _ _ _ Ea) as [Na Ia].
      destruct (findByName_name _ _ _ Ei) as [Ni Ii].
      destruct (findByName_name _ _ _ Ew) as [Nw Iw].
      rewrite (similarities_same_name (oracle name) x y z) in E.
      - congruence.
      - apply Hw. apply in_or_app. now left.
      - apply Hw. apply in_or_app. right. apply in_or_app. now left.
      - apply Hw. apply in_or_app. right. apply in_or_app. now right.
      - congruence.
      - congruence. }
    rewrite E. destruct (p && q && t) eqn:B; eexists; (split; [reflexivity|]);
      cbn [consistent inconsistent mapping_text android ios web];
      rewrite length_app; cbn [List.length];
      (repeat split; try lia); intros Hw; specialize (W Hw);
      injection W as <- <- <-; rewrite B; lia.
  - eexists. split; [reflexivity|].
    cbn [consistent inconsistent mapping_text android ios web].
    rewrite length_app. cbn [List.length]. repeat split; lia.
  - eexists. split; [reflexivity|].
    cbn [consistent inconsistent mapping_text android ios web].
    rewrite length_app. cbn [List.length]. repeat split; lia.
  - eexists. split; [reflexivity|].
    cbn [consistent inconsistent mapping_text android ios web].
    rewrite length_app. cbn [List.length]. repeat split; lia.
Qed.

Lemma compareName_fold (a i w : list Group) (names : list string) (r : Results) :
  exists r',
    fold_left (compareName oracle a i w) names (Some r) = Some r'
    /\ consistent r' + inconsistent r' = consistent r + inconsistent r + List.length names
    /\ List.length (mapping_text r') = List.length (mapping_text r) + List.length names
    /\ consistent r' <= consistent r + List.length (filter (onAllThree a i w) names)
    /\ (Forall wellFormed (a ++ i ++ w) ->
        consistent r'
        = consistent r + List.length (filter (agreeOnAllThree a i w) names))
    /\ android r' = android r /\ ios r' = ios r /\ web r' = web r.
Proof.
  revert r. induction names as [|n names IH]; intros r; cbn [fold_left filter List.length].
  - exists r. repeat split; auto; lia.
  - destruct (compareName_step a i w r n) as [r1 [E1 [S1 [S2 [S3 [S4 [S5 [S6 S7]]]]]]]].
    rewrite E1.
    destruct (IH r1) as [r' [E [H1 [H2 [H3 [H4 [H5 [H6 H7]]]]]]]].
    exists r'. split; [exact E|].
    repeat split; try congruence; try lia.
    + destruct (onAllThree a i w n); cbn [List.length]; lia.
    + intros Hw. specialize (H4 Hw). specialize (S4 Hw).
      destruct (agreeOnAllThree a i w n); cbn [List.length]; lia.
Qed.

(** The comparison by name returns, whatever the collaborators do, and it
    counts names: consistent + inconsistent is the number of distinct group
    names, one entry is reported for each, the names that some platform lacks
    are never consistent, and the totals of the platforms are their numbers of
    groups.  On well-formed groups, as the extractor builds them, the
    consistent names are exactly those that the three platforms share with
    recipes that agree pairwise on texts and buttons, whatever the
    collaborators would answer. *)
Theorem comparison_by_name_counts_names (a i w : list Group) :
  let names := Js.setOfList (map g_name a ++ map g_name i ++ map g_name w) in
  exists r,
    compareComponentsWithAI oracle a i w = Some r
    /\ consistent r + inconsistent r = List.length names
    /\ List.length (mapping_text r) = List.length names
    /\ consistent r <= List.length (filter (onAllThree a i w) names)
    /\ (Forall wellFormed (a ++ i ++ w) ->
        consistent r = List.length (filter (agreeOnAllThree a i w) names))
    /\ total (android r) = List.length a
    /\ total (ios r) = List.length i
    /\ total (web r) = List.length w.
Proof.
  intros names. unfold compareComponentsWithAI. fold names.
  match goal with |- context [fold_left _ names (Some ?r0)] =>
    destruct (compareName_fold a i w names r0) as [r [E [H1 [H2 [H3 [H4 [H5 [H6 H7]]]]]]]]
  end.
  exists r. split; [exact E|].
  cbn [consistent inconsistent mapping_text List.length android ios web] in *.
  rewrite H5, H6, H7. cbn [totalsOf total].
  repeat split; try lia. intros Hw. specialize (H4 Hw). lia.
Qed.

End WithOracle.

Lemma comparison_by_name_counts_names_witness :
  exists r,
    compareComponentsWithAI (fun _ => Examples.answers "1:Y")
      [Examples.searchBar 1 1; Examples.searchField 1 0]
      [Examples.searchBar 1 1; Examples.searchField 1 0]
      [Examples.searchBar 2 0; Examples.searchField 1 0] = Some r
    /\ consistent r = 1 /\ inconsistent r = 1.
Proof.
  destruct (comparison_by_name_counts_names (fun _ => Examples.answers "1:Y")
              [Examples.searchBar 1 1; Examples.searchField 1 0]
              [Examples.searchBar 1 1; Examples.searchField 1 0]
              [Examples.searchBar 2 0; Examples.searchField 1 0])
    as [r [E [Hsum [_ [_ [Hw _]]]]]].
  exists r. split; [exact E|].
  assert (C : consistent r = 1).
  { apply Hw. repeat constructor. }
  split; [exact C|]. rewrite C in Hsum. cbn in Hsum. lia.
Defined.

End AiCompareFacts.

